(** * Hasaba: the ledger engine of [src/src/App.tsx]

    A shallow embedding of the balance engine ([computeBalances]), the
    month aggregation ([gastosPorMes] with [monthKey]), the CSV adapter
    ([buildCSV], [parseCSV]) and the registry migration ([ensureAccounts],
    [ensureCategories]) of the app, with the earlier version of
    [computeBalances] kept in the unnamed source file [part_000].

    Modelling conventions:
    - amounts of the transaction log are integer cents ([Z]): the app creates
      them with [toCents], which rounds to an integer;
    - a [Record<string, number>] used as a dictionary ([ef], [debt]) is a
      [gmap string Z] of its number-valued own properties, keyed by account
      ids; the account ids of the registry are plain keys, not
      [Object.prototype] names;
    - [t.accountToId in ef] also holds for a name [ef] inherits from
      [Object.prototype]: the income then writes a string-valued property
      into [ef] and leaves its number-valued ones alone.  [App] follows the
      number-valued properties, which make the rows; [AppJs] adds the
      string-valued ones and gives the whole result object, whose
      [efectivoTotal] is then a string;
    - [x || 0] on an optional number is [default 0 x];
    - the JS [Map] of [ensureAccounts] is an insertion-ordered association
      list whose [set] replaces the value of an existing key in place. *)

From Stdlib Require Import ZArith Ascii Decimal DecimalString DecimalZ DecimalPos.
From Stdlib Require String.
From Stdlib Require Import Sorted.
From stdpp Require Import base gmap strings list.

Local Open Scope Z_scope.

(* ------------------------------------------------------------------ *)
(** ** Data model *)

(** [const ACCOUNT_TYPES = { CASH: "CASH", CREDIT: "CREDIT" }] *)
Inductive AccountType := CASH | CREDIT.

#[global] Instance AccountType_eq_dec : EqDecision AccountType.
Proof. solve_decision. Defined.

(** [type Account] *)
Module Account.
Record t := mk {
  id : string;
  name : string;
  type : AccountType;
  initialBalanceCents : option Z;  (* for CASH *)
  creditLimitCents : option Z;     (* for CREDIT *)
  initialDebtCents : option Z      (* for CREDIT *)
}.
End Account.

(** [type Category] *)
Module Category.
Record t := mk { id : string; name : string; kind : string }.
End Category.

(** [type Tx]; the amount type is a parameter because [parseCSV] fills the
    field with whatever [Number(...)] returns (see [JsNumber] below), while
    the log the app builds holds integer cents ([Tx.t Z]). *)
Module Tx.
Record t (A : Type) := mk {
  id : string;
  type : string;
  date : string;
  amountCents : A;
  accountFromId : option string;
  accountToId : option string;
  categoryId : option string;
  paymentMethod : option string;
  note : option string;
  createdAt : Z;
  updatedAt : Z
}.
Arguments mk {A}.
Arguments id {A}. Arguments type {A}. Arguments date {A}.
Arguments amountCents {A}. Arguments accountFromId {A}.
Arguments accountToId {A}. Arguments categoryId {A}.
Arguments paymentMethod {A}. Arguments note {A}.
Arguments createdAt {A}. Arguments updatedAt {A}.
End Tx.

(** JS truthiness of a [string | null] field: [null] and [""] are falsy. *)
Definition truthy (o : option string) : option string :=
  match o with
  | Some k => if String.eqb k "" then None else Some k
  | None => None
  end.

(** [accounts.find((a) => a.id === x)] for [x : string | null]. *)
Definition find_account (accounts : list Account.t) (x : option string)
  : option Account.t :=
  match x with
  | Some k => List.find (fun a => String.eqb (Account.id a) k) accounts
  | None => None
  end.

(* ------------------------------------------------------------------ *)
(** ** The balance engine of [App.tsx] *)

(** The two dictionaries [ef] (cash balances) and [debt] (credit debts). *)
Record State := mkState { ef : gmap string Z; debt : gmap string Z }.

(** Result rows and result object of [computeBalances]. *)
Record BalanceEntry := mkEntry {
  account : Account.t;
  balanceCents : Z;
  creditAvailableCents : option Z
}.

Record Summary := mkSummary {
  accounts : list BalanceEntry;
  efectivoTotal : Z;
  creditoDisponibleTotal : Z
}.

Module App.

(** [accounts.forEach((a) => { if CASH ef[a.id] = ...; else debt[a.id] = ... })] *)
Definition init_one (s : State) (a : Account.t) : State :=
  match Account.type a with
  | CASH => mkState (<[Account.id a := default 0 (Account.initialBalanceCents a)]> (ef s)) (debt s)
  | CREDIT => mkState (ef s) (<[Account.id a := default 0 (Account.initialDebtCents a)]> (debt s))
  end.

Definition init_state (accounts : list Account.t) : State :=
  foldl init_one (mkState ∅ ∅) accounts.

(** One iteration of [for (const t of txs)]. *)
Definition step (accounts : list Account.t) (s : State) (t : Tx.t Z) : State :=
  let amount := Tx.amountCents t in
  if bool_decide (amount = 0) then s                       (* if (!amount) continue; *)
  else if String.eqb (Tx.type t) "INGRESO" then
    match truthy (Tx.accountToId t) with
    | Some k =>
        match ef s !! k with                               (* t.accountToId in ef *)
        | Some v => mkState (<[k := v + amount]> (ef s)) (debt s)
        | None => s            (* no own number: see [ef_strings_step] *)
        end
    | None => s
    end
  else if String.eqb (Tx.type t) "GASTO" then
    match find_account accounts (Tx.accountFromId t) with
    | None => s
    | Some from =>
        match Account.type from with
        | CREDIT =>
            mkState (ef s)
              (<[Account.id from := default 0 (debt s !! Account.id from) + amount]> (debt s))
        | CASH =>
            mkState (<[Account.id from := default 0 (ef s !! Account.id from) - amount]> (ef s))
              (debt s)
        end
    end
  else if String.eqb (Tx.type t) "TRANSFERENCIA" then
    match find_account accounts (Tx.accountFromId t),
          find_account accounts (Tx.accountToId t) with
    | Some from, Some to =>
        if String.eqb (Account.id from) (Account.id to) then s
        else
          match Account.type to with
          | CREDIT =>
              let s1 := mkState (ef s)
                (<[Account.id to := default 0 (debt s !! Account.id to) - amount]> (debt s)) in
              match Account.type from with
              | CASH =>
                  mkState (<[Account.id from := default 0 (ef s1 !! Account.id from) - amount]> (ef s1))
                    (debt s1)
              | CREDIT => s1
              end
          | CASH =>
              match Account.type from with
              | CASH =>
                  let ef1 := <[Account.id from := default 0 (ef s !! Account.id from) - amount]> (ef s) in
                  mkState (<[Account.id to := default 0 (ef1 !! Account.id to) + amount]> ef1) (debt s)
              | CREDIT => s
              end
          end
    | _, _ => s
    end
  else s.

(** The per-account row built by [accounts.map(...)]. *)
Definition entry (s : State) (a : Account.t) : BalanceEntry :=
  match Account.type a with
  | CREDIT =>
      let d := default 0 (debt s !! Account.id a) in
      let disp := default 0 (Account.creditLimitCents a) - d in
      mkEntry a (- d) (Some disp)
  | CASH => mkEntry a (default 0 (ef s !! Account.id a)) None
  end.

(** The result with [efectivoTotal] the sum of the number-valued
    properties of [ef]: the code's value as long as [ef] holds no string
    (see [AppJs.computeBalances]). *)
Definition computeBalances (accounts : list Account.t) (txs : list (Tx.t Z)) : Summary :=
  let s := foldl (step accounts) (init_state accounts) txs in
  let perAccount := map (entry s) accounts in
  let creditoDisponibleTotal :=
    foldl (fun acc e => acc + default 0 (creditAvailableCents e)) 0 perAccount in
  let efectivoTotal := map_fold (fun _ n acc => acc + n) 0 (ef s) in
  mkSummary perAccount efectivoTotal creditoDisponibleTotal.

End App.

(* ------------------------------------------------------------------ *)
(** ** The balance engine as a set of additive effects

    Every branch of [App.step] adds a signed amount to one or two entries
    of [ef] or [debt]; the only test that reads the running state is
    whether [t.accountToId] is a number-valued key of [ef], and these keys
    are always exactly the ids of the CASH accounts.  [Effects.effects]
    lists the additions a transaction makes to the number-valued state,
    with that test read off the registry instead of the state (the
    string-valued properties are the business of [ef_strings_step]). *)

Inductive Effect := OnEf (k : string) (d : Z) | OnDebt (k : string) (d : Z).

Definition add_to (m : gmap string Z) (k : string) (d : Z) : gmap string Z :=
  <[k := default 0 (m !! k) + d]> m.

Definition apply_effect (s : State) (e : Effect) : State :=
  match e with
  | OnEf k d => mkState (add_to (ef s) k d) (debt s)
  | OnDebt k d => mkState (ef s) (add_to (debt s) k d)
  end.

(** Is [k] the id of some account of the given type in the registry? *)
Definition has_id_of_type (ty : AccountType) (accounts : list Account.t) (k : string) : bool :=
  existsb (fun a => String.eqb (Account.id a) k && bool_decide (Account.type a = ty)) accounts.

Module Effects.

Definition effects (accounts : list Account.t) (t : Tx.t Z) : list Effect :=
  let amount := Tx.amountCents t in
  if bool_decide (amount = 0) then []
  else if String.eqb (Tx.type t) "INGRESO" then
    match truthy (Tx.accountToId t) with
    | Some k => if has_id_of_type CASH accounts k then [OnEf k amount] else []
    | None => []
    end
  else if String.eqb (Tx.type t) "GASTO" then
    match find_account accounts (Tx.accountFromId t) with
    | None => []
    | Some from =>
        match Account.type from with
        | CREDIT => [OnDebt (Account.id from) amount]
        | CASH => [OnEf (Account.id from) (- amount)]
        end
    end
  else if String.eqb (Tx.type t) "TRANSFERENCIA" then
    match find_account accounts (Tx.accountFromId t),
          find_account accounts (Tx.accountToId t) with
    | Some from, Some to =>
        if String.eqb (Account.id from) (Account.id to) then []
        else
          match Account.type to with
          | CREDIT =>
              OnDebt (Account.id to) (- amount) ::
              match Account.type from with
              | CASH => [OnEf (Account.id from) (- amount)]
              | CREDIT => []
              end
          | CASH =>
              match Account.type from with
              | CASH => [OnEf (Account.id from) (- amount); OnEf (Account.id to) amount]
              | CREDIT => []
              end
          end
    | _, _ => []
    end
  else [].

End Effects.

(** The state after folding a log. *)
Definition final_state (accounts : list Account.t) (txs : list (Tx.t Z)) : State :=
  foldl (App.step accounts) (App.init_state accounts) txs.

(* ------------------------------------------------------------------ *)
(** ** The earlier balance engine of [src/unnamed/part_000] *)

Record Summary0 := mkSummary0 { accounts0 : list BalanceEntry; liquidez : Z }.

Module Part000.

(** [txs.forEach((t) => { ... })]: no [!amount] guard, and an income
    into an account of either type. *)
Definition step (accounts : list Account.t) (s : State) (t : Tx.t Z) : State :=
  let amount := Tx.amountCents t in
  if String.eqb (Tx.type t) "INGRESO" then
    match truthy (Tx.accountToId t) with
    | Some k =>
        let s1 := match ef s !! k with                    (* cash[k] !== undefined *)
                  | Some v => mkState (<[k := v + amount]> (ef s)) (debt s)
                  | None => s
                  end in
        match debt s1 !! k with                           (* debt[k] !== undefined *)
        | Some v => mkState (ef s1) (<[k := v - amount]> (debt s1))  (* abono a credito *)
        | None => s1
        end
    | None => s
    end
  else if String.eqb (Tx.type t) "GASTO" then
    match find_account accounts (Tx.accountFromId t) with
    | None => s
    | Some from =>
        match Account.type from with
        | CREDIT =>
            mkState (ef s)
              (<[Account.id from := default 0 (debt s !! Account.id from) + amount]> (debt s))
        | CASH =>
            mkState (<[Account.id from := default 0 (ef s !! Account.id from) - amount]> (ef s))
              (debt s)
        end
    end
  else if String.eqb (Tx.type t) "TRANSFERENCIA" then
    match find_account accounts (Tx.accountFromId t),
          find_account accounts (Tx.accountToId t) with
    | Some from, Some to =>
        if String.eqb (Account.id from) (Account.id to) then s
        else
          match Account.type to with
          | CREDIT =>
              let s1 := mkState (ef s)
                (<[Account.id to := default 0 (debt s !! Account.id to) - amount]> (debt s)) in
              match Account.type from with
              | CASH =>
                  mkState (<[Account.id from := default 0 (ef s1 !! Account.id from) - amount]> (ef s1))
                    (debt s1)
              | CREDIT => s1
              end
          | CASH =>
              match Account.type from with
              | CASH =>
                  let ef1 := <[Account.id from := default 0 (ef s !! Account.id from) - amount]> (ef s) in
                  mkState (<[Account.id to := default 0 (ef1 !! Account.id to) + amount]> ef1) (debt s)
              | CREDIT => s
              end
          end
    | _, _ => s
    end
  else s.

Definition liquidezIds : list string := ["daviplata"; "nequi"; "empresa"; "efectivo"; "ahorros"].

Definition computeBalances (accounts : list Account.t) (txs : list (Tx.t Z)) : Summary0 :=
  let s := foldl (step accounts) (App.init_state accounts) txs in
  let perAccount := map (App.entry s) accounts in
  let liquidez := foldl Z.add 0 (map (fun id => default 0 (ef s !! id)) liquidezIds) in
  mkSummary0 perAccount liquidez.

End Part000.

(** The reported row of the account with id [k] ([summary.accounts.find]),
    read as its balance. *)
Definition balance_of (r : Summary) (k : string) : Z :=
  default 0 (balanceCents <$> List.find (fun e => String.eqb (Account.id (account e)) k) (accounts r)).

(** A transaction field naming an id that no account of the registry has. *)
Definition unknown_ref (accs : list Account.t) (x : option string) : Prop :=
  ∃ k, x = Some k ∧ ∀ a, In a accs → Account.id a ≠ k.

(* ------------------------------------------------------------------ *)
(** ** Registry migration: [ensureAccounts], [ensureCategories] *)

#[global] Instance Account_eq_dec : EqDecision Account.t.
Proof. solve_decision. Defined.
#[global] Instance Category_eq_dec : EqDecision Category.t.
Proof. solve_decision. Defined.

Definition defaultAccounts : list Account.t := [
  Account.mk "daviplata" "Daviplata" CASH (Some 0) None None;
  Account.mk "nequi" "Nequi" CASH (Some 0) None None;
  Account.mk "visa" "Tarjeta Visa" CREDIT None (Some 300000000) (Some 0);
  Account.mk "rotativo" "Crédito rotativo" CREDIT None (Some 500000000) (Some 0);
  Account.mk "empresa" "Cuenta de la empresa" CASH (Some 0) None None;
  Account.mk "efectivo" "Efectivo" CASH (Some 0) None None;
  Account.mk "ahorros" "Cuenta de ahorros" CASH (Some 0) None None;
  Account.mk "inversion" "Inversión - Ahorro" CASH (Some 0) None None
].

Definition defaultCategories : list Category.t := [
  Category.mk "vivienda_servicios" "Vivienda - Servicios" "GASTO";
  Category.mk "mercado" "Mercado" "GASTO";
  Category.mk "restaurantes_ocio" "Restaurantes - Ocio" "GASTO";
  Category.mk "transporte" "Transporte" "GASTO";
  Category.mk "salud_bienestar" "Salud - bienestar" "GASTO";
  Category.mk "mascota" "Mascota" "GASTO";
  Category.mk "aseo_hogar" "Aseo - hogar" "GASTO";
  Category.mk "suscripciones" "Suscripciones" "GASTO";
  Category.mk "trabajos" "Trabajos" "INGRESO";
  Category.mk "ventas_reembolsos" "Ventas - reembolsos" "INGRESO";
  Category.mk "rendimientos" "Rendimientos" "INGRESO"
].

(** A JS [Map] with string keys: its entries in insertion order. *)
Module JsMap.
Definition t (V : Type) := list (string * V).

(** [m.set(k, v)]: an existing key keeps its position, a new key goes last. *)
Fixpoint set {V} (m : t V) (k : string) (v : V) : t V :=
  match m with
  | [] => [(k, v)]
  | (k', v') :: m' => if String.eqb k' k then (k', v) :: m' else (k', v') :: set m' k v
  end.

Definition has {V} (m : t V) (k : string) : bool := existsb (fun p => String.eqb p.1 k) m.

(** [m.get(k)] *)
Definition get {V} (m : t V) (k : string) : option V :=
  snd <$> List.find (fun p => String.eqb p.1 k) m.

(** [new Map(entries)] *)
Definition of_entries {V} (l : list (string * V)) : t V :=
  foldl (fun m p => set m p.1 p.2) [] l.

(** [Array.from(m.values())] *)
Definition values {V} (m : t V) : list V := map snd m.
End JsMap.

(** One iteration of [for (const a of defaultAccounts)]. *)
Definition ensureAccounts_step (st : JsMap.t Account.t * bool) (a : Account.t) : JsMap.t Account.t * bool :=
  let '(byId, changed) := st in
  if JsMap.has byId (Account.id a) then (byId, changed)
  else (JsMap.set byId (Account.id a) a, true).

Definition ensureAccounts (current : list Account.t) : list Account.t :=
  let byId := JsMap.of_entries (map (fun a => (Account.id a, a)) current) in
  let '(byId, changed) := foldl ensureAccounts_step (byId, false) defaultAccounts in
  let list := JsMap.values byId in
  if changed then list else current.

(** [ensureCategories] pushes the missing seeds onto [current] in place and
    returns a copy ([[...current]]) or [current] itself: either way the
    value returned is [current] followed by the pushed seeds.  [have] is
    computed once, before the loop. *)
Definition ensureCategories (current : list Category.t) : list Category.t :=
  let have := map Category.id current in
  foldl (fun cur c => if existsb (String.eqb (Category.id c)) have then cur else cur ++ [c])
    current defaultCategories.

(** ** Concrete registries and transactions used by the witnesses *)
Module Ex.
Definition mkCash (id : string) (bal : Z) : Account.t :=
  Account.mk id id CASH (Some bal) None None.
Definition mkCredit (id : string) (limit debt : Z) : Account.t :=
  Account.mk id id CREDIT None (Some limit) (Some debt).
Definition mkTx (ty : string) (amt : Z) (from to : option string) : Tx.t Z :=
  Tx.mk "t1" ty "2024-05-01" amt from to None None None 0 0.

(** Scenario D of the spec: Income 20000 into the credit account "card"
    whose opening debt is 5000. *)
Definition card : Account.t := mkCredit "card" 100000 5000.
Definition income_card : Tx.t Z := mkTx "INGRESO" 20000 None (Some "card").

(** Scenario C: cash "A" = 10000, cash "B" = 0, transfer 4000 A to B. *)
Definition cashA : Account.t := mkCash "A" 10000.
Definition cashB : Account.t := mkCash "B" 0.
Definition transfer_AB : Tx.t Z := mkTx "TRANSFERENCIA" 4000 (Some "A") (Some "B").

(** Two credit cards and a transfer of 2000 from the first to the second. *)
Definition card1 : Account.t := mkCredit "card1" 100000 0.
Definition card2 : Account.t := mkCredit "card2" 100000 5000.
Definition transfer_cards : Tx.t Z := mkTx "TRANSFERENCIA" 2000 (Some "card1") (Some "card2").
Definition transfer_card_cash : Tx.t Z := mkTx "TRANSFERENCIA" 2000 (Some "card1") (Some "A").

(** Scenario E: an expense from the deleted account "ghost". *)
Definition ghost_expense : Tx.t Z := mkTx "GASTO" 700 (Some "ghost") None.
Definition wallet_expense : Tx.t Z := mkTx "GASTO" 1500 (Some "A") None.
End Ex.

(* ------------------------------------------------------------------ *)
(** ** [Number(...)] on a string

    [JsNumber] is the value of the ECMAScript [StringToNumber] conversion:
    [JsFinite m e] is the finite value [m * 10^e], kept exact (the rounding
    to the nearest double is not modelled; it is the identity on integers of
    magnitude at most [2^53]), [JsInfinity neg] is [Infinity] or
    [-Infinity], [JsNaN] is [NaN].  Negative zero is not told apart from
    zero.  Characters are bytes; the white space trimmed around the literal
    is the ASCII one (tab, line feed, vertical tab, form feed, carriage
    return, space). *)
Inductive JsNumber := JsFinite (m e : Z) | JsInfinity (neg : bool) | JsNaN.

Definition is_ws (c : ascii) : bool :=
  let n := nat_of_ascii c in (n =? 32)%nat || ((9 <=? n)%nat && (n <=? 13)%nat).

Fixpoint skip_ws (l : list ascii) : list ascii :=
  match l with
  | c :: l' => if is_ws c then skip_ws l' else l
  | [] => []
  end.

Definition trim_ws (l : list ascii) : list ascii := rev (skip_ws (rev (skip_ws l))).

(** The value of a digit character (letters count from 10 on). *)
Definition digit_value (c : ascii) : option Z :=
  let n := Z.of_nat (nat_of_ascii c) in
  if (48 <=? n) && (n <=? 57) then Some (n - 48)
  else if (97 <=? n) && (n <=? 122) then Some (n - 87)
  else if (65 <=? n) && (n <=? 90) then Some (n - 55)
  else None.

Definition digit_in (base : Z) (c : ascii) : option Z :=
  match digit_value c with
  | Some d => if d <? base then Some d else None
  | None => None
  end.

(** The longest prefix of base-[base] digits, read onto [acc]: the value,
    the number of digits read added to [n], and the rest. *)
Fixpoint take_digits (base : Z) (l : list ascii) (acc : Z) (n : nat)
  : Z * nat * list ascii :=
  match l with
  | c :: l' =>
      match digit_in base c with
      | Some d => take_digits base l' (acc * base + d) (S n)
      | None => (acc, n, l)
      end
  | [] => (acc, n, [])
  end.

(** [ExponentPart] (or nothing), up to the end of the literal. *)
Definition exponent_part (l : list ascii) : option Z :=
  match l with
  | [] => Some 0
  | c :: r =>
      if Ascii.eqb c "e" || Ascii.eqb c "E" then
        let '(sgn, r') :=
          match r with
          | s :: r'' =>
              if Ascii.eqb s "+" then (1, r'')
              else if Ascii.eqb s "-" then (-1, r'') else (1, r)
          | [] => (1, r)
          end in
        let '(v, k, rest) := take_digits 10 r' 0 0 in
        if (k =? 0)%nat then None
        else match rest with [] => Some (sgn * v) | _ => None end
      else None
  end.

(** [StrUnsignedDecimalLiteral] without [Infinity]: digits, an optional
    fraction, an optional exponent, at least one digit before the
    exponent.  The result [(m, e)] stands for [m * 10^e]. *)
Definition unsigned_decimal (l : list ascii) : option (Z * Z) :=
  let '(ip, ni, r1) := take_digits 10 l 0 0 in
  let '(m, nf, r2) :=
    match r1 with
    | c :: r => if Ascii.eqb c "." then take_digits 10 r ip 0 else (ip, 0%nat, r1)
    | [] => (ip, 0%nat, r1)
    end in
  if (ni + nf =? 0)%nat then None
  else match exponent_part r2 with
       | Some e => Some (m, e - Z.of_nat nf)
       | None => None
       end.

Definition infinity_chars : list ascii := String.list_ascii_of_string "Infinity".

(** [StrDecimalLiteral]: an optional sign, then [Infinity] or an unsigned
    decimal literal. *)
Definition signed_decimal (l : list ascii) : JsNumber :=
  let '(neg, u) :=
    match l with
    | c :: r =>
        if Ascii.eqb c "-" then (true, r)
        else if Ascii.eqb c "+" then (false, r) else (false, l)
    | [] => (false, l)
    end in
  if bool_decide (u = infinity_chars) then JsInfinity neg
  else match unsigned_decimal u with
       | Some (m, e) => JsFinite (if neg then - m else m) e
       | None => JsNaN
       end.

(** The prefixes [0x], [0o] and [0b] of [NonDecimalIntegerLiteral]. *)
Definition radix_of (x : ascii) : option Z :=
  if Ascii.eqb x "x" || Ascii.eqb x "X" then Some 16
  else if Ascii.eqb x "o" || Ascii.eqb x "O" then Some 8
  else if Ascii.eqb x "b" || Ascii.eqb x "B" then Some 2
  else None.

Definition integer_in (base : Z) (r : list ascii) : JsNumber :=
  let '(v, k, rest) := take_digits base r 0 0 in
  if (k =? 0)%nat then JsNaN
  else match rest with [] => JsFinite v 0 | _ => JsNaN end.

Definition Number_of_chars (l : list ascii) : JsNumber :=
  match trim_ws l with
  | [] => JsFinite 0 0
  | l' =>
      match l' with
      | z :: x :: r =>
          if Ascii.eqb z "0" then
            match radix_of x with
            | Some b => integer_in b r
            | None => signed_decimal l'
            end
          else signed_decimal l'
      | _ => signed_decimal l'
      end
  end.

(** [Number(s)] for a string [s]. *)
Definition Number_of_string (s : string) : JsNumber :=
  Number_of_chars (String.list_ascii_of_string s).

(** [String(n)] for an integer [n] (of magnitude below [10^21], where the
    conversion writes plain decimal digits). *)
Definition number_to_string (z : Z) : string :=
  NilZero.string_of_int (Z.to_int z).

(* ------------------------------------------------------------------ *)
(** ** The CSV adapter *)

(** [s.split(c)] for a one-character separator [c]. *)
Fixpoint split_on (c : ascii) (s : string) : list string :=
  match s with
  | EmptyString => [EmptyString]
  | String x s' =>
      let rest := split_on c s' in
      if Ascii.eqb x c then EmptyString :: rest
      else match rest with
           | r :: rs => String x r :: rs
           | [] => [String x EmptyString]
           end
  end.

(** [l.join(sep)]. *)
Fixpoint join (sep : string) (l : list string) : string :=
  match l with
  | [] => EmptyString
  | [x] => x
  | x :: l' => String.append x (String.append sep (join sep l'))
  end.

(** [s.replace(/c/g, d)] for single characters. *)
Fixpoint replace_char (c d : ascii) (s : string) : string :=
  match s with
  | EmptyString => EmptyString
  | String x s' => String (if Ascii.eqb x c then d else x) (replace_char c d s')
  end.

(** [s.replace(/c/g, "")]. *)
Fixpoint remove_char (c : ascii) (s : string) : string :=
  match s with
  | EmptyString => EmptyString
  | String x s' => if Ascii.eqb x c then remove_char c s' else String x (remove_char c s')
  end.

Definition LF : ascii := "010"%char.
Definition CR : ascii := "013"%char.

Definition csv_header : string :=
  "id,type,date,amountCents,accountFromId,accountToId,categoryId,paymentMethod,note".

(** One row of [buildCSV]; [x || ""] on a [string | null] field is
    [default ""]. *)
Definition csv_row (t : Tx.t Z) : string :=
  join ","
    [Tx.id t; Tx.type t; Tx.date t; number_to_string (Tx.amountCents t);
     default "" (Tx.accountFromId t); default "" (Tx.accountToId t);
     default "" (Tx.categoryId t); default "" (Tx.paymentMethod t);
     replace_char "," ";" (default "" (Tx.note t))].

Definition buildCSV (txs : list (Tx.t Z)) : string :=
  join (String LF EmptyString) (csv_header :: map csv_row txs).

Section ParseCSV.
(** [crypto.randomUUID?.() || String(Math.random())] at the [i]-th row,
    [todayStr()], and [Date.now()] at the [i]-th row. *)
Variable fresh : nat → string.
Variable today : string.
Variable now : nat → Z.

(** The [i]-th data row; destructuring [line.split(",")] gives
    [undefined] ([None]) past the last field. *)
Definition parse_row (i : nat) (line : string) : Tx.t JsNumber :=
  let fs := split_on "," line in
  let f := nth_error fs in
  Tx.mk (default (fresh i) (truthy (f 0%nat)))
        (default "GASTO" (truthy (f 1%nat)))
        (default today (truthy (f 2%nat)))
        (match truthy (f 3%nat) with
         | Some s => Number_of_string s
         | None => JsFinite 0 0
         end)
        (truthy (f 4%nat)) (truthy (f 5%nat)) (truthy (f 6%nat))
        (truthy (f 7%nat)) (truthy (f 8%nat))
        (now i) (now i).

Definition parseCSV (text : string) : list (Tx.t JsNumber) :=
  let clean := remove_char CR text in
  let lines := List.filter (fun l => negb (String.eqb l EmptyString)) (split_on LF clean) in
  if (length lines <=? 1)%nat then []
  else imap parse_row (tl lines).
End ParseCSV.

(** The tuple the round trip is about: everything but the id, the note and
    the timestamps. *)
Definition tuple {A} (t : Tx.t A)
  : string * string * A * option string * option string * option string * option string :=
  (Tx.type t, Tx.date t, Tx.amountCents t, Tx.accountFromId t,
   Tx.accountToId t, Tx.categoryId t, Tx.paymentMethod t).

(** [s] holds no character [c]. *)
Fixpoint no_char (c : ascii) (s : string) : bool :=
  match s with
  | EmptyString => true
  | String x s' => negb (Ascii.eqb x c) && no_char c s'
  end.

(** A field the CSV format carries as is: no comma, no line break. *)
Definition csv_field_ok (s : string) : bool :=
  no_char "," s && no_char LF s && no_char CR s.

(** An optional field that survives [x || ""] on export and [x || null] on
    import: absent, or a non-empty field. *)
Definition opt_field_ok (o : option string) : bool :=
  match o with
  | None => true
  | Some s => csv_field_ok s && negb (String.eqb s EmptyString)
  end.

(** The transactions whose tuple the CSV round trip keeps: plain fields, a
    non-empty type and date, a note without line breaks (its commas become
    [;]), and a safe-integer amount. *)
Definition csv_safe_tx (t : Tx.t Z) : bool :=
  csv_field_ok (Tx.id t)
  && csv_field_ok (Tx.type t) && negb (String.eqb (Tx.type t) EmptyString)
  && csv_field_ok (Tx.date t) && negb (String.eqb (Tx.date t) EmptyString)
  && (Z.abs (Tx.amountCents t) <=? 2 ^ 53)
  && opt_field_ok (Tx.accountFromId t) && opt_field_ok (Tx.accountToId t)
  && opt_field_ok (Tx.categoryId t) && opt_field_ok (Tx.paymentMethod t)
  && no_char LF (default "" (Tx.note t)) && no_char CR (default "" (Tx.note t)).

Module ExCSV.
(** An expense entered with the date input cleared: [addTx] stores
    [form.date], here the empty string. *)
Definition undated_expense : Tx.t Z :=
  Tx.mk "t1" "GASTO" EmptyString 1500 (Some "A") None (Some "food") (Some "VISA") None 0 0.
Definition plain_expense : Tx.t Z :=
  Tx.mk "t2" "GASTO" "2024-05-02" 1500 (Some "A") None (Some "food") (Some "VISA") (Some "lunch, tip") 0 0.
(** An export with a hand-edited row: no id, amount [abc]. *)
Definition csv_abc : string :=
  String.append csv_header (String LF ",GASTO,2024-05-01,abc,A,,,,").
(** An export with a hand-edited row: no id, amount [$1500]. *)
Definition csv_dollar : string :=
  String.append csv_header (String LF ",GASTO,2024-05-01,$1500,A,,,,").
(** A row with only an id and a type, and a row with an empty amount. *)
Definition csv_short : string :=
  String.append csv_header
    (String LF (String.append "r1,GASTO" (String LF ",INGRESO,2024-05-03,,,A,,,"))).
End ExCSV.

(** The tuple of a logged transaction, its integer amount read as the
    number [Number] gives back for it. *)
Definition tuple_Z (t : Tx.t Z)
  : string * string * JsNumber * option string * option string * option string * option string :=
  (Tx.type t, Tx.date t, JsFinite (Tx.amountCents t) 0, Tx.accountFromId t,
   Tx.accountToId t, Tx.categoryId t, Tx.paymentMethod t).

(* ------------------------------------------------------------------ *)
(** ** The month aggregation

    [new Date(s)] on a date-only ISO string ([YYYY], [YYYY-MM] or
    [YYYY-MM-DD]) is the UTC midnight of that day; a string that is not of
    this form, or whose month or day is out of range, is modelled as an
    invalid date (the engines' fallback parsers are implementation
    defined).  [getFullYear] and [getMonth] read the local time
    [t + tz t], where [tz] is the time-zone offset (in ms) of the running
    machine at the time value [t]. *)

Definition msPerDay : Z := 86400000.

Definition leap (y : Z) : bool :=
  ((y mod 4 =? 0) && negb (y mod 100 =? 0)) || (y mod 400 =? 0).

Definition days_in_month (y m : Z) : Z :=
  if m =? 2 then (if leap y then 29 else 28)
  else if (m =? 4) || (m =? 6) || (m =? 9) || (m =? 11) then 30 else 31.

(** Days from 1970-01-01 to the proleptic Gregorian date [y-m-d]
    ([MakeDay]). *)
Definition days_from_civil (y m d : Z) : Z :=
  let y' := if m <=? 2 then y - 1 else y in
  let era := y' / 400 in
  let yoe := y' - era * 400 in
  let mp := (m + 9) mod 12 in
  let doy := (153 * mp + 2) / 5 + d - 1 in
  let doe := yoe * 365 + yoe / 4 - yoe / 100 + doy in
  era * 146097 + doe - 719468.

(** The year and the month (1 to 12) of a day number ([YearFromTime],
    [MonthFromTime] + 1). *)
Definition civil_from_days (z : Z) : Z * Z :=
  let z' := z + 719468 in
  let era := z' / 146097 in
  let doe := z' - era * 146097 in
  let yoe := (doe - doe / 1460 + doe / 36524 - doe / 146096) / 365 in
  let y := yoe + era * 400 in
  let doy := doe - (365 * yoe + yoe / 4 - yoe / 100) in
  let mp := (5 * doy + 2) / 153 in
  let m := if mp <? 10 then mp + 3 else mp - 9 in
  (if m <=? 2 then y + 1 else y, m).

Definition num_of (l : list ascii) : option Z :=
  match take_digits 10 l 0 0 with
  | (v, S _, []) => Some v
  | _ => None
  end.

(** The day number of a date-only ISO string. *)
Definition parse_iso_date (s : string) : option Z :=
  let ymd :=
    match String.list_ascii_of_string s with
    | [y1; y2; y3; y4] => Some ([y1; y2; y3; y4], ["0"%char; "1"%char], ["0"%char; "1"%char])
    | [y1; y2; y3; y4; s1; m1; m2] =>
        if Ascii.eqb s1 "-" then Some ([y1; y2; y3; y4], [m1; m2], ["0"%char; "1"%char])
        else None
    | [y1; y2; y3; y4; s1; m1; m2; s2; d1; d2] =>
        if Ascii.eqb s1 "-" && Ascii.eqb s2 "-"
        then Some ([y1; y2; y3; y4], [m1; m2], [d1; d2]) else None
    | _ => None
    end in
  match ymd with
  | Some (ys, ms, ds) =>
      match num_of ys, num_of ms, num_of ds with
      | Some y, Some m, Some d =>
          if (1 <=? m) && (m <=? 12) && (1 <=? d) && (d <=? days_in_month y m)
          then Some (days_from_civil y m d) else None
      | _, _, _ => None
      end
  | None => None
  end.

(** [String(n).padStart(2, "0")]. *)
Definition pad2 (s : string) : string :=
  match String.length s with
  | 0%nat => "00"
  | 1%nat => String "0" s
  | _ => s
  end.

(** [monthKey]: [`${d.getFullYear()}-${String(d.getMonth() + 1).padStart(2, "0")}`];
    on an invalid date both parts are [NaN]. *)
Definition monthKey (tz : Z → Z) (dateStr : string) : string :=
  match parse_iso_date dateStr with
  | Some days =>
      let t := days * msPerDay in
      let '(y, m) := civil_from_days ((t + tz t) / msPerDay) in
      String.append (number_to_string y) (String "-" (pad2 (number_to_string m)))
  | None => "NaN-NaN"
  end.

(** [map[k] = (map[k] || 0) + d] on a [Record<string, number>] whose keys
    are kept in insertion order ([Object.keys] order for non-index keys). *)
Definition assoc_add (m : list (string * Z)) (k : string) (d : Z) : list (string * Z) :=
  if existsb (fun p => String.eqb p.1 k) m
  then map (fun p => if String.eqb p.1 k then (p.1, p.2 + d) else p) m
  else m ++ [(k, d)].

Definition assoc_get (m : list (string * Z)) (k : string) : Z :=
  match List.find (fun p => String.eqb p.1 k) m with
  | Some p => p.2
  | None => 0
  end.

(** The default order of [Array.prototype.sort] on strings: code units,
    a proper prefix first. *)
Fixpoint str_ltb (a b : string) : bool :=
  match a, b with
  | _, EmptyString => false
  | EmptyString, String _ _ => true
  | String x a', String y b' =>
      if (nat_of_ascii x <? nat_of_ascii y)%nat then true
      else if (nat_of_ascii y <? nat_of_ascii x)%nat then false
      else str_ltb a' b'
  end.

Fixpoint insert_sorted (k : string) (l : list string) : list string :=
  match l with
  | [] => [k]
  | x :: l' => if str_ltb x k then x :: insert_sorted k l' else k :: l
  end.

Definition sort_strings (l : list string) : list string := foldr insert_sorted [] l.

(** [gastosPorMes]: Expense amounts summed by [monthKey] over the whole
    log, the keys sorted, the last six kept. *)
Definition gastosPorMes (tz : Z → Z) (txs : list (Tx.t Z)) : list (string * Z) :=
  let m := foldl (fun m t =>
                    if String.eqb (Tx.type t) "GASTO"
                    then assoc_add m (monthKey tz (Tx.date t)) (Tx.amountCents t)
                    else m) [] txs in
  let keys := sort_strings (map fst m) in
  let keys6 := skipn (length keys - 6) keys in
  map (fun k => (k, assoc_get m k)) keys6.

Module ExMonth.
Definition exp (date : string) (amt : Z) : Tx.t Z :=
  Tx.mk "t" "GASTO" date amt (Some "A") None None None None 0 0.
Definition inc (date : string) (amt : Z) : Tx.t Z :=
  Tx.mk "t" "INGRESO" date amt None (Some "A") None None None 0 0.
(** Scenario F: Expenses in eight months (and an Income). *)
Definition eight_months : list (Tx.t Z) :=
  [exp "2024-03-10" 300; exp "2023-12-05" 100; exp "2024-05-20" 500;
   exp "2024-01-15" 100; exp "2024-02-11" 200; inc "2024-06-02" 9999;
   exp "2024-06-30" 600; exp "2023-11-01" 50; exp "2024-04-04" 400;
   exp "2024-03-31" 30].
(** A machine in Colombia: UTC-5 all year. *)
Definition bogota (t : Z) : Z := -5 * 3600000.
End ExMonth.

(* ------------------------------------------------------------------ *)
(** ** Invariants and proof helpers *)

(** The keys of [ef] and [debt] are the ids of the CASH and CREDIT accounts. *)
Definition WF (accounts : list Account.t) (s : State) : Prop :=
  ∀ k, (is_Some (ef s !! k) ↔ has_id_of_type CASH accounts k = true) ∧
       (is_Some (debt s !! k) ↔ has_id_of_type CREDIT accounts k = true).

(** An effect only touches a key the registry already put in the state. *)
Definition good (accounts : list Account.t) (e : Effect) : Prop :=
  match e with
  | OnEf k _ => has_id_of_type CASH accounts k = true
  | OnDebt k _ => has_id_of_type CREDIT accounts k = true
  end.

Definition pairs (l : list Account.t) : JsMap.t Account.t := map (fun a => (Account.id a, a)) l.

(** Every entry of the map stores an account under that account's id. *)
Definition keyed (m : JsMap.t Account.t) : Prop := Forall (fun p => Account.id p.2 = p.1) m.

(** What the digits of [string_of_uint] are not. *)
Definition plain_digit (c : ascii) : Prop :=
  is_ws c = false ∧ radix_of c = None ∧ Ascii.eqb c "-" = false
  ∧ Ascii.eqb c "+" = false ∧ Ascii.eqb c "I" = false.

Ltac digit_values :=
  repeat match goal with
  | |- context [Z.of_nat (nat_of_ascii ?c) - 48] =>
      let v := eval vm_compute in (Z.of_nat (nat_of_ascii c) - 48) in
      change (Z.of_nat (nat_of_ascii c) - 48) with v
  end.

Ltac split_ands H :=
  repeat match type of H with
  | _ && _ = true => apply andb_prop in H as [H ?]
  end.

(* ------------------------------------------------------------------ *)
(** ** What a list of effects adds to one key *)

Fixpoint ef_delta (es : list Effect) (k : string) : Z :=
  match es with
  | [] => 0
  | OnEf k' d :: es' => (if String.eqb k' k then d else 0) + ef_delta es' k
  | OnDebt _ _ :: es' => ef_delta es' k
  end.

Fixpoint debt_delta (es : list Effect) (k : string) : Z :=
  match es with
  | [] => 0
  | OnDebt k' d :: es' => (if String.eqb k' k then d else 0) + debt_delta es' k
  | OnEf _ _ :: es' => debt_delta es' k
  end.

(** The CASH accounts of a registry, in order. *)
Definition cash_accounts (accs : list Account.t) : list Account.t :=
  List.filter (fun a => bool_decide (Account.type a = CASH)) accs.

(** Sum of a list of integers. *)
Definition sum_Z (l : list Z) : Z := foldr Z.add 0 l.

Module Ex2.
Definition accs : list Account.t := [Ex.cashA; Ex.cashB; Ex.card].
Definition card_expense : Tx.t Z := Ex.mkTx "GASTO" 300 (Some "card") None.
Definition card_payment : Tx.t Z := Ex.mkTx "TRANSFERENCIA" 2500 (Some "A") (Some "card").
Definition salary : Tx.t Z := Ex.mkTx "INGRESO" 90000 None (Some "B").
Definition adjustment : Tx.t Z := Ex.mkTx "AJUSTE" 500 (Some "A") None.
End Ex2.


(** The same text with Windows line endings: every line feed preceded by a
    carriage return. *)
Fixpoint to_crlf (s : string) : string :=
  match s with
  | EmptyString => EmptyString
  | String x s' => if Ascii.eqb x LF then String CR (String LF (to_crlf s')) else String x (to_crlf s')
  end.


(** Integers [a], [a + 1], ..., [a + n - 1]. *)
Definition zrange (a n : Z) : list Z := map (fun i => a + Z.of_nat i) (seq 0 (Z.to_nat n)).

(** The numerator of the year-of-era step of [civil_from_days]. *)
Definition civ_E (x : Z) : Z := x - x / 1460 + x / 36524 - x / 146096.

(** Day of the era on which the (March-based) year [yoe] of the era starts. *)
Definition year_start (yoe : Z) : Z := 365 * yoe + yoe / 4 - yoe / 100.

(** The first and the last day of year [yoe] of an era give back [yoe]. *)
Definition yoe_ok (yoe : Z) : bool :=
  let s := year_start yoe in
  let last := s + 336 + days_in_month (yoe + 1) 2 in
  (civ_E s / 365 =? yoe) && (civ_E last / 365 =? yoe) && (last <? 146097).

(** Civil month of the March-based month index [mp]. *)
Definition month_of_mp (mp : Z) : Z := if mp <? 10 then mp + 3 else mp - 9.

(** Every day of month [mp] (in a leap year) gives back [mp]. *)
Definition mp_ok (mp : Z) : bool :=
  forallb (fun d => (5 * ((153 * mp + 2) / 5 + d - 1) + 2) / 153 =? mp)
    (zrange 1 (days_in_month 2000 (month_of_mp mp))).

(** The first day of the next month comes [days_in_month y m] days after
    the first day of this one. *)
Definition next_month_ok (y m : Z) : bool :=
  days_from_civil y m 1 + days_in_month y m =?
  (if m =? 12 then days_from_civil (y + 1) 1 1 else days_from_civil y (m + 1) 1).

(** The key [monthKey] builds from a year and a month:
    [`${y}-${String(m).padStart(2, "0")}`]. *)
Definition month_key_of (y m : Z) : string :=
  String.append (number_to_string y) (String "-" (pad2 (number_to_string m))).

(** The strict order [Array.prototype.sort] puts strings in. *)
Definition str_lt (a b : string) : Prop := str_ltb a b = true.


(** [liquidezCents]: the balances of the rows of [summary.accounts] whose
    account id is one of [liquidezIds], summed in that order; an id with no
    row adds nothing. *)
Definition liquidez_of (rows : list BalanceEntry) : Z :=
  foldl (fun total id =>
           match List.find (fun x => String.eqb (Account.id (account x)) id) rows with
           | Some s => total + balanceCents s
           | None => total
           end) 0 Part000.liquidezIds.

Definition liquidezCents (summary : Summary) : Z := liquidez_of (accounts summary).

(** How much the reported balance of the account with id [k] moves when
    the effects [es] are applied. *)
Definition row_delta (accs : list Account.t) (es : list Effect) (k : string) : Z :=
  match find_account accs (Some k) with
  | Some b =>
      match Account.type b with
      | CASH => ef_delta es (Account.id b)
      | CREDIT => - debt_delta es (Account.id b)
      end
  | None => 0
  end.

(** Effects that only move CASH balances of the registry. *)
Definition cash_only (accs : list Account.t) (es : list Effect) : Prop :=
  Forall (fun e => ∃ a x, In a accs ∧ Account.type a = CASH ∧ e = OnEf (Account.id a) x) es.


(* ------------------------------------------------------------------ *)
(** ** The report breakdowns

    [txsFiltered], [gastosPorCuenta] and [gastosPorCategoria] fill a plain
    object [{}] with [map[name] = (map[name] || 0) + t.amountCents] and
    read it back with [Object.entries].  On such an object a name that
    [Object.prototype] provides is not an own number: writing to
    ["__proto__"] a number is ignored, and the other inherited names (a
    method) turn the value into a string, which is outside this model of
    integer cents ([None]).  [Object.entries] lists the array-index names
    first, by numeric value, then the other names in insertion order. *)

Definition proto_names : list string :=
  ["__proto__"; "constructor"; "hasOwnProperty"; "isPrototypeOf"; "propertyIsEnumerable";
   "toLocaleString"; "toString"; "valueOf"; "__defineGetter__"; "__defineSetter__";
   "__lookupGetter__"; "__lookupSetter__"].

(** [map[k] = (map[k] || 0) + d] on an object created by [{}]. *)
Definition obj_add (m : list (string * Z)) (k : string) (d : Z) : option (list (string * Z)) :=
  if String.eqb k "__proto__" then Some m
  else if existsb (String.eqb k) proto_names then None
  else Some (assoc_add m k d).

(** The value of a name that is an array index: the canonical decimal
    string of an integer below [2^32 - 1]. *)
Definition array_index (k : string) : option Z :=
  match num_of (String.list_ascii_of_string k) with
  | Some n => if (n <? 4294967295) && String.eqb (number_to_string n) k then Some n else None
  | None => None
  end.

Fixpoint index_entries (m : list (string * Z)) : list (Z * (string * Z)) :=
  match m with
  | [] => []
  | p :: m' =>
      match array_index p.1 with
      | Some n => (n, p) :: index_entries m'
      | None => index_entries m'
      end
  end.

Fixpoint insert_idx (x : Z * (string * Z)) (l : list (Z * (string * Z))) : list (Z * (string * Z)) :=
  match l with
  | [] => [x]
  | y :: l' => if y.1 <? x.1 then y :: insert_idx x l' else x :: l
  end.

(** [Object.entries(map)]. *)
Definition object_entries (m : list (string * Z)) : list (string * Z) :=
  map snd (foldr insert_idx [] (index_entries m)) ++
  List.filter (fun p => match array_index p.1 with Some _ => false | None => true end) m.

(** The loop of the breakdowns: Expense amounts summed by [key t]. *)
Definition gastos_by (key : Tx.t Z → string) (txs : list (Tx.t Z)) : option (list (string * Z)) :=
  object_entries <$>
    foldl (fun om t => if String.eqb (Tx.type t) "GASTO"
                       then om ≫= (fun m => obj_add m (key t) (Tx.amountCents t))
                       else om) (Some []) txs.

(** [x?.name || dflt]. *)
Definition name_or (o : option string) (dflt : string) : string :=
  match o with
  | Some n => if String.eqb n "" then dflt else n
  | None => dflt
  end.

Definition account_label (accounts : list Account.t) (t : Tx.t Z) : string :=
  name_or (Account.name <$> find_account accounts (Tx.accountFromId t)) "—".

Definition category_label (categories : list Category.t) (t : Tx.t Z) : string :=
  name_or (Category.name <$> match Tx.categoryId t with
                             | Some k => List.find (fun c => String.eqb (Category.id c) k) categories
                             | None => None
                             end) "Sin categoría".

(** [txsFiltered]: the whole log for ["__all__"], else the transactions
    whose [monthKey] is the chosen month. *)
Definition txsFiltered (tz : Z → Z) (reportMonth : string) (txs : list (Tx.t Z)) : list (Tx.t Z) :=
  if String.eqb reportMonth "__all__" then txs
  else List.filter (fun t => String.eqb (monthKey tz (Tx.date t)) reportMonth) txs.

Definition gastosPorCuenta (accounts : list Account.t) (txsF : list (Tx.t Z)) : option (list (string * Z)) :=
  gastos_by (account_label accounts) txsF.

Definition gastosPorCategoria (categories : list Category.t) (txsF : list (Tx.t Z)) : option (list (string * Z)) :=
  gastos_by (category_label categories) txsF.


(** [last12]: for [i] from 0 to 11, [const d = new Date(); d.setMonth(d.getMonth() - i)]
    and the key of [d].  [clock i] is the time value [new Date()] reads at
    iteration [i]; [tz] is the offset of local time at a time value
    ([LocalTime]) and [tzl] the offset the machine assumes for a local time
    ([UTC]).  [setMonth] keeps the day of the month and the time of day and
    lets [MakeDay] carry an overflowing day into the next month;
    [TimeClip] makes a time value beyond 8.64e15 ms invalid. *)
Definition last12 (tz tzl : Z → Z) (clock : nat → Z) : list string :=
  map (fun i =>
         let t := clock i in
         let L := t + tz t in
         let '(y, m) := civil_from_days (L / msPerDay) in
         let dt := L / msPerDay - days_from_civil y m 1 + 1 in
         let mon := m - 1 - Z.of_nat i in
         let ym := y + mon / 12 in
         let mn := mon mod 12 in
         let newL := days_from_civil ym (mn + 1) dt * msPerDay + L mod msPerDay in
         let u := newL - tzl newL in
         if 8640000000000000 <? Z.abs u then "NaN-NaN"
         else
           let L2 := u + tz u in
           let '(y2, m2) := civil_from_days (L2 / msPerDay) in
           month_key_of y2 m2)
      (seq 0 12).

(** The month [setMonth] lands in from day [dt] of the month [mn] of year
    [ym]: that month when it has day [dt], else the month after it. *)
Definition landing_month (ym mn dt : Z) : Z * Z :=
  if dt <=? days_in_month ym mn then (ym, mn)
  else if mn =? 12 then (ym + 1, 1) else (ym, mn + 1).

(** The form effect on [form.categoryId] run when [form.type] or the
    categories change: the value [setForm] leaves in the field. *)
Definition categoryEffect (ftype : string) (categoryId : option string)
           (categories : list Category.t) : option string :=
  if String.eqb ftype "TRANSFERENCIA" then
    match truthy categoryId with Some _ => None | None => categoryId end
  else
    let allowed := List.filter (fun c =>
      (String.eqb ftype "GASTO" && String.eqb (Category.kind c) "GASTO") ||
      (String.eqb ftype "INGRESO" && String.eqb (Category.kind c) "INGRESO")) categories in
    if existsb (fun c => match categoryId with
                         | Some k => String.eqb (Category.id c) k
                         | None => false end) allowed
    then categoryId
    else match allowed with
         | c :: _ => truthy (Some (Category.id c))
         | [] => None
         end.

(* ------------------------------------------------------------------ *)
(** ** The result object of [computeBalances] with the strings of [ef]

    For a name [k] of [Object.prototype] ([proto_names]) that is not an own
    property of [ef], [t.accountToId in ef] holds and [ef[k] += amount]
    reads the inherited value: a method, whose string form is its source
    text [native_source k], or, for ["__proto__"], [Object.prototype]
    itself (string form ["[object Object]"]).  The sum is a string: written
    to ["__proto__"] it is ignored, written to any other name it becomes a
    new own property of [ef], which a later income into the same name
    extends.  The other branches only write the keys of CASH accounts,
    which are number-valued from the start. *)

(** [String(Object.prototype[k])] for the name [k] of a method. *)
Definition native_source (k : string) : string :=
  if String.eqb k "constructor" then "function Object() { [native code] }"
  else String.append "function " (String.append k "() { [native code] }").

(** The string-valued own properties of [ef] (in creation order) after one
    iteration of the loop, [s] being the number-valued state before it. *)
Definition ef_strings_step (s : State) (ps : JsMap.t string) (t : Tx.t Z) : JsMap.t string :=
  let amount := Tx.amountCents t in
  if bool_decide (amount = 0) then ps
  else if String.eqb (Tx.type t) "INGRESO" then
    match truthy (Tx.accountToId t) with
    | Some k =>
        match ef s !! k with
        | Some _ => ps                                   (* an own number: [App.step] *)
        | None =>
            match JsMap.get ps k with
            | Some v => JsMap.set ps k (String.append v (number_to_string amount))
            | None =>
                if String.eqb k "__proto__" then ps
                else if existsb (String.eqb k) proto_names
                then JsMap.set ps k (String.append (native_source k) (number_to_string amount))
                else ps                                  (* not [in ef] *)
            end
        end
    | None => ps
    end
  else ps.

(** A JS value that is a number or a string. *)
Inductive JsVal := JNum (n : Z) | JStr (s : string).

(** [a + b] on numbers and strings. *)
Definition js_add (a b : JsVal) : JsVal :=
  match a, b with
  | JNum x, JNum y => JNum (x + y)
  | JNum x, JStr y => JStr (String.append (number_to_string x) y)
  | JStr x, JNum y => JStr (String.append x (number_to_string y))
  | JStr x, JStr y => JStr (String.append x y)
  end.

Module AppJs.

Record JsState := mkJsState { nums : State; strs : JsMap.t string }.

(** One iteration of [for (const t of txs)] on the whole of [ef] and [debt]. *)
Definition step (accs : list Account.t) (st : JsState) (t : Tx.t Z) : JsState :=
  mkJsState (App.step accs (nums st) t) (ef_strings_step (nums st) (strs st) t).

Record Result := mkResult {
  accounts : list BalanceEntry;
  efectivoTotal : JsVal;
  creditoDisponibleTotal : Z
}.

(** [computeBalances].  [Object.values(ef)] lists the number-valued
    properties first (they were created first and none is a string name
    created later; their sum does not depend on their order), then the
    string-valued ones in creation order; [reduce((acc, n) => acc + n, 0)]
    adds them up from [0]. *)
Definition computeBalances (accs : list Account.t) (txs : list (Tx.t Z)) : Result :=
  let st := foldl (step accs) (mkJsState (App.init_state accs) []) txs in
  let s := nums st in
  let perAccount := map (App.entry s) accs in
  let creditoDisponibleTotal :=
    foldl (fun acc e => acc + default 0 (creditAvailableCents e)) 0 perAccount in
  let efectivoTotal :=
    foldl js_add (JNum (map_fold (fun _ n acc => acc + n) 0 (ef s)))
      (map (fun p => JStr p.2) (strs st)) in
  mkResult perAccount efectivoTotal creditoDisponibleTotal.

End AppJs.

(** An income the code applies to a name [ef] inherits: a non-zero amount
    into a name of [Object.prototype] other than ["__proto__"] that is not
    the id of a CASH account. *)
Definition proto_income (accs : list Account.t) (t : Tx.t Z) : bool :=
  negb (bool_decide (Tx.amountCents t = 0)) && String.eqb (Tx.type t) "INGRESO" &&
  match truthy (Tx.accountToId t) with
  | Some k => negb (has_id_of_type CASH accs k) && negb (String.eqb k "__proto__") &&
              existsb (String.eqb k) proto_names
  | None => false
  end.

(** Incomes into the name ["toString"], which every plain object inherits;
    [parseCSV] accepts any destination field. *)
Module ExJs.
Definition to_toString (d : Z) : Tx.t Z := Ex.mkTx "INGRESO" d None (Some "toString").
End ExJs.

(* ================================================================== *)
(** * Proofs *)

(** ** The effect view of the balance engine agrees with [App.step] *)


Lemma has_id_of_type_cons ty a accounts k :
  has_id_of_type ty (a :: accounts) k = true ↔
  (Account.id a = k ∧ Account.type a = ty) ∨ has_id_of_type ty accounts k = true.
Proof.
  unfold has_id_of_type; simpl. rewrite orb_true_iff, andb_true_iff, String.eqb_eq.
  rewrite bool_decide_eq_true. done.
Qed.

Lemma has_id_of_type_spec ty accounts k :
  has_id_of_type ty accounts k = true ↔
  ∃ a, In a accounts ∧ Account.id a = k ∧ Account.type a = ty.
Proof.
  induction accounts as [|a accounts IH].
  - split; [done|]. intros (? & [] & _).
  - rewrite has_id_of_type_cons, IH. split.
    + intros [[<- <-]|(b & ? & ? & ?)]; [exists a|exists b]; simpl; eauto.
    + intros (b & [<-|?] & ? & ?); [left; done|right; eauto].
Qed.

Lemma init_lookup accounts s k :
  (is_Some (ef (foldl App.init_one s accounts) !! k) ↔
     is_Some (ef s !! k) ∨ has_id_of_type CASH accounts k = true) ∧
  (is_Some (debt (foldl App.init_one s accounts) !! k) ↔
     is_Some (debt s !! k) ∨ has_id_of_type CREDIT accounts k = true).
Proof.
  revert s. induction accounts as [|a accounts IH]; intros s; cbn [foldl].
  - split; split; auto; intros [?|?]; done.
  - destruct (IH (App.init_one s a)) as [IH1 IH2].
    rewrite IH1, IH2, !has_id_of_type_cons.
    unfold App.init_one. destruct (Account.type a); simpl;
      rewrite ?lookup_insert_is_Some'; split; naive_solver.
Qed.

Lemma WF_init accounts : WF accounts (App.init_state accounts).
Proof.
  intros k. unfold App.init_state. destruct (init_lookup accounts (mkState ∅ ∅) k) as [H1 H2].
  rewrite H1, H2. simpl. rewrite !lookup_empty. pose proof (is_Some_None (A:=Z)). naive_solver.
Qed.

Lemma find_account_Some accounts x a :
  find_account accounts x = Some a → In a accounts ∧ x = Some (Account.id a).
Proof.
  destruct x as [k|]; simpl; [|done].
  intros H. pose proof (find_some _ _ H) as [Hin Heq].
  apply String.eqb_eq in Heq. subst. done.
Qed.

Lemma add_to_sub m k d :
  <[k := default 0 (m !! k) - d]> m = add_to m k (- d).
Proof. reflexivity. Qed.

Lemma step_effects accounts s t :
  WF accounts s →
  App.step accounts s t = foldl apply_effect s (Effects.effects accounts t).
Proof.
  intros Hwf. unfold App.step, Effects.effects.
  destruct (bool_decide _); [done|].
  destruct (String.eqb (Tx.type t) "INGRESO").
  { destruct (truthy (Tx.accountToId t)) as [k|]; [|done].
    destruct (Hwf k) as [Hk _].
    destruct (ef s !! k) as [v|] eqn:Hv.
    - assert (has_id_of_type CASH accounts k = true) as -> by (apply Hk; eauto).
      simpl. unfold add_to. rewrite Hv. by destruct s.
    - destruct (has_id_of_type CASH accounts k) eqn:Hc; [|done].
      by destruct (proj2 Hk eq_refl). }
  destruct (String.eqb (Tx.type t) "GASTO").
  { destruct (find_account accounts (Tx.accountFromId t)) as [from|]; [|done].
    destruct (Account.type from); simpl; rewrite ?add_to_sub; done. }
  destruct (String.eqb (Tx.type t) "TRANSFERENCIA"); [|done].
  destruct (find_account accounts (Tx.accountFromId t)) as [from|]; [|done].
  destruct (find_account accounts (Tx.accountToId t)) as [to|]; [|done].
  destruct (String.eqb (Account.id from) (Account.id to)); [done|].
  destruct (Account.type to), (Account.type from); simpl; rewrite ?add_to_sub; done.
Qed.


Lemma good_of_find accounts x a ty :
  find_account accounts x = Some a → Account.type a = ty →
  has_id_of_type ty accounts (Account.id a) = true.
Proof.
  intros Hf Ht. apply find_account_Some in Hf as [Hin _].
  apply has_id_of_type_spec. eauto.
Qed.

Lemma effects_good accounts t : Forall (good accounts) (Effects.effects accounts t).
Proof.
  unfold Effects.effects.
  destruct (bool_decide _); [constructor|].
  destruct (String.eqb (Tx.type t) "INGRESO").
  { destruct (truthy (Tx.accountToId t)) as [k|]; [|constructor].
    destruct (has_id_of_type CASH accounts k) eqn:Hc; repeat constructor; done. }
  destruct (String.eqb (Tx.type t) "GASTO").
  { destruct (find_account accounts (Tx.accountFromId t)) as [from|] eqn:Hf; [|constructor].
    destruct (Account.type from) eqn:Ht; repeat constructor; simpl; eapply good_of_find; eauto. }
  destruct (String.eqb (Tx.type t) "TRANSFERENCIA"); [|constructor].
  destruct (find_account accounts (Tx.accountFromId t)) as [from|] eqn:Hf; [|constructor].
  destruct (find_account accounts (Tx.accountToId t)) as [to|] eqn:Hto; [|constructor].
  destruct (String.eqb (Account.id from) (Account.id to)); [constructor|].
  destruct (Account.type to) eqn:Ht1, (Account.type from) eqn:Ht2;
    repeat constructor; simpl; eapply good_of_find; eauto.
Qed.

Lemma WF_apply accounts s e : WF accounts s → good accounts e → WF accounts (apply_effect s e).
Proof.
  intros Hwf Hg k. destruct (Hwf k) as [H1 H2].
  destruct e as [k' d|k' d]; simpl in *; unfold add_to;
    rewrite ?lookup_insert_is_Some'; split; try done.
  - rewrite <- H1. split; [intros [<-|?]; [apply H1|]; done|auto].
  - rewrite <- H2. split; [intros [<-|?]; [apply H2|]; done|auto].
Qed.

Lemma WF_apply_all accounts s es :
  WF accounts s → Forall (good accounts) es → WF accounts (foldl apply_effect s es).
Proof.
  revert s. induction es as [|e es IH]; intros s Hwf Hg; simpl; [done|].
  inversion Hg; subst. apply IH; [apply WF_apply|]; done.
Qed.

Lemma add_to_comm m k1 d1 k2 d2 :
  add_to (add_to m k1 d1) k2 d2 = add_to (add_to m k2 d2) k1 d1.
Proof.
  unfold add_to. destruct (decide (k1 = k2)) as [<-|Hne].
  - rewrite !lookup_insert_eq, !insert_insert_eq. simpl. f_equal. lia.
  - rewrite !lookup_insert_ne by done. rewrite insert_insert_ne by done. done.
Qed.

Lemma apply_effect_comm s e1 e2 :
  apply_effect (apply_effect s e1) e2 = apply_effect (apply_effect s e2) e1.
Proof.
  destruct s as [E D], e1 as [k1 d1|k1 d1], e2 as [k2 d2|k2 d2]; simpl;
    try done; f_equal; apply add_to_comm.
Qed.

Lemma apply_effects_perm s es es' :
  Permutation es es' → foldl apply_effect s es = foldl apply_effect s es'.
Proof.
  intros Hp. revert s. induction Hp as [|e es es' _ IH|e1 e2 es|es es' es'' _ IH1 _ IH2];
    intros s; simpl.
  - done.
  - apply IH.
  - rewrite apply_effect_comm. done.
  - rewrite IH1. apply IH2.
Qed.

Lemma fold_step_effects accounts s txs :
  WF accounts s →
  foldl (App.step accounts) s txs =
  foldl apply_effect s (concat (map (Effects.effects accounts) txs)).
Proof.
  revert s. induction txs as [|t txs IH]; intros s Hwf; simpl; [done|].
  rewrite step_effects by done. rewrite foldl_app.
  apply IH. apply WF_apply_all; [done|apply effects_good].
Qed.

Lemma final_state_effects accounts txs :
  final_state accounts txs =
  foldl apply_effect (App.init_state accounts) (concat (map (Effects.effects accounts) txs)).
Proof. apply fold_step_effects, WF_init. Qed.

(** Adding one transaction to the log adds its effects to the final state. *)
Lemma final_state_cons accounts t txs :
  final_state accounts (t :: txs) =
  foldl apply_effect (final_state accounts txs) (Effects.effects accounts t).
Proof.
  rewrite !final_state_effects. simpl. rewrite <- foldl_app.
  apply apply_effects_perm. apply Permutation_app_comm.
Qed.

Lemma computeBalances_final accounts txs :
  App.computeBalances accounts txs =
  let s := final_state accounts txs in
  let perAccount := map (App.entry s) accounts in
  mkSummary perAccount (map_fold (fun _ n acc => acc + n) 0 (ef s))
    (foldl (fun acc e => acc + default 0 (creditAvailableCents e)) 0 perAccount).
Proof. reflexivity. Qed.

(** ** Helpers on the registry and the result rows *)

Lemma final_state_perm accounts txs txs' :
  Permutation txs txs' → final_state accounts txs = final_state accounts txs'.
Proof.
  intros Hp. rewrite !final_state_effects. apply apply_effects_perm.
  rewrite <- !flat_map_concat_map. by apply Permutation_flat_map.
Qed.

Lemma final_state_middle accounts t txs1 txs2 :
  final_state accounts (txs1 ++ t :: txs2) =
  foldl apply_effect (final_state accounts (txs1 ++ txs2)) (Effects.effects accounts t).
Proof.
  rewrite <- final_state_cons. apply final_state_perm.
  symmetry. apply Permutation_middle.
Qed.

Lemma find_account_unique accs a :
  NoDup (map Account.id accs) → In a accs →
  find_account accs (Some (Account.id a)) = Some a.
Proof.
  induction accs as [|b accs IH]; simpl; [done|].
  intros Hnd Hin. inversion Hnd as [|? ? Hnotin Hnd']; subst.
  destruct (String.eqb (Account.id b) (Account.id a)) eqn:He.
  - apply String.eqb_eq in He. destruct Hin as [->|Hin]; [done|].
    exfalso. apply Hnotin. rewrite He. apply list_elem_of_In, in_map. done.
  - destruct Hin as [->|Hin]; [by rewrite String.eqb_refl in He|]. by apply IH.
Qed.

Lemma same_id_same_account accs a b :
  NoDup (map Account.id accs) → In a accs → In b accs →
  Account.id a = Account.id b → a = b.
Proof.
  intros Hnd Ha Hb He.
  pose proof (find_account_unique accs a Hnd Ha) as H1.
  pose proof (find_account_unique accs b Hnd Hb) as H2.
  rewrite He in H1. congruence.
Qed.

Lemma find_account_None accs k :
  (∀ a, In a accs → Account.id a ≠ k) → find_account accs (Some k) = None.
Proof.
  intros H. simpl. induction accs as [|a accs IH]; simpl; [done|].
  destruct (String.eqb (Account.id a) k) eqn:He.
  - apply String.eqb_eq in He. exfalso. by apply (H a); [left|].
  - apply IH. intros b Hb. apply H. by right.
Qed.

Lemma has_id_None ty accs k :
  (∀ a, In a accs → Account.id a ≠ k) → has_id_of_type ty accs k = false.
Proof.
  intros H. apply not_true_iff_false. rewrite has_id_of_type_spec.
  intros (a & Hin & He & _). by apply (H a).
Qed.

Lemma Forall2_map_same {A B} (f g : A → B) (P : B → B → Prop) (l : list A) :
  (∀ x, In x l → P (f x) (g x)) → Forall2 P (map f l) (map g l).
Proof.
  induction l as [|x l IH]; intros H; simpl; constructor.
  - apply H. left. done.
  - apply IH. intros y Hy. apply H. right. done.
Qed.

Lemma balance_of_final accs txs k :
  balance_of (App.computeBalances accs txs) k =
  default 0 ((fun a => balanceCents (App.entry (final_state accs txs) a)) <$>
             find_account accs (Some k)).
Proof.
  unfold balance_of, App.computeBalances. simpl. fold (final_state accs txs).
  generalize (final_state accs txs) as s. intros s.
  induction accs as [|a accs IH]; simpl; [done|].
  assert (Account.id (account (App.entry s a)) = Account.id a) as ->.
  { unfold App.entry. by destruct (Account.type a). }
  destruct (String.eqb (Account.id a) k); [done|]. apply IH.
Qed.

Lemma lookup_add_to_eq m k d : add_to m k d !! k = Some (default 0 (m !! k) + d).
Proof. unfold add_to. by rewrite lookup_insert_eq. Qed.

Lemma lookup_add_to_ne m k k' d : k ≠ k' → add_to m k d !! k' = m !! k'.
Proof. intros Hne. unfold add_to. by rewrite lookup_insert_ne. Qed.

(* ------------------------------------------------------------------ *)
(** ** Claims about the balance engine *)

Lemma effects_unknown accs t :
  (Tx.type t = "INGRESO" ∧ unknown_ref accs (Tx.accountToId t)) ∨
  (Tx.type t = "GASTO" ∧ unknown_ref accs (Tx.accountFromId t)) ∨
  (Tx.type t = "TRANSFERENCIA" ∧
     (unknown_ref accs (Tx.accountFromId t) ∨ unknown_ref accs (Tx.accountToId t))) →
  Effects.effects accs t = [].
Proof.
  unfold Effects.effects. destruct (bool_decide _); [done|].
  intros [[-> (k & Hk & Hu)]|[[-> (k & Hk & Hu)]|[-> [(k & Hk & Hu)|(k & Hk & Hu)]]]];
    cbn -[find_account has_id_of_type]; rewrite Hk.
  - unfold truthy. destruct (String.eqb k ""); [done|].
    by rewrite has_id_None.
  - by rewrite find_account_None.
  - rewrite find_account_None by done. done.
  - rewrite find_account_None by done. by destruct (find_account _ _).
Qed.

(** C10. Adding an expense paid from a CASH account of the registry (whose
    ids are unique) changes only that account's row: its balance goes down
    by the amount; every other row, balance and credit availability, is the
    one computed without the expense. *)
Theorem expense_cash_frame (accs : list Account.t) (txs : list (Tx.t Z)) (t : Tx.t Z) (a : Account.t) :
  NoDup (map Account.id accs) → In a accs → Account.type a = CASH →
  Tx.type t = "GASTO" → Tx.accountFromId t = Some (Account.id a) →
  Forall2 (fun e1 e0 =>
      account e1 = account e0 ∧
      if String.eqb (Account.id (account e0)) (Account.id a)
      then balanceCents e1 = balanceCents e0 - Tx.amountCents t ∧
           creditAvailableCents e1 = creditAvailableCents e0
      else e1 = e0)
    (accounts (App.computeBalances accs (t :: txs)))
    (accounts (App.computeBalances accs txs)).
Proof.
  intros Hnd Hin Hcash Hty Hfrom. rewrite !computeBalances_final. cbn zeta.
  rewrite final_state_cons. generalize (final_state accs txs) as s. intros s.
  assert (Effects.effects accs t =
          if bool_decide (Tx.amountCents t = 0) then [] else [OnEf (Account.id a) (- Tx.amountCents t)])
    as ->.
  { unfold Effects.effects. destruct (bool_decide _); [done|].
    rewrite Hty. cbn -[find_account]. rewrite Hfrom, find_account_unique, Hcash by done. done. }
  cbn [accounts]. apply Forall2_map_same. intros b Hb.
  destruct (String.eqb (Account.id b) (Account.id a)) eqn:He.
  - apply String.eqb_eq in He.
    pose proof (same_id_same_account accs b a Hnd Hb Hin He) as ->.
    unfold App.entry. rewrite Hcash. simpl. rewrite String.eqb_refl. split; [done|]. split; [|done].
    case_bool_decide as Hz; simpl.
    + lia.
    + rewrite lookup_add_to_eq. simpl. lia.
  - assert (String.eqb (Account.id (account (App.entry s b))) (Account.id a) = false) as ->.
    { unfold App.entry. by destruct (Account.type b). }
    apply String.eqb_neq in He.
    case_bool_decide; simpl; [split; done|].
    split; [unfold App.entry; by destruct (Account.type b)|].
    unfold App.entry. destruct (Account.type b); simpl; [|done].
    rewrite lookup_add_to_ne by congruence. done.
Qed.

(** C4. A transfer between two distinct CASH accounts of the registry
    (unique ids) takes the amount from the source balance and adds it to
    the destination balance; the sum of the two balances is unchanged. *)
Theorem transfer_cash_cash_conservation (accs : list Account.t) (txs : list (Tx.t Z))
    (t : Tx.t Z) (a b : Account.t) :
  NoDup (map Account.id accs) → In a accs → In b accs →
  Account.type a = CASH → Account.type b = CASH → Account.id a ≠ Account.id b →
  Tx.type t = "TRANSFERENCIA" →
  Tx.accountFromId t = Some (Account.id a) → Tx.accountToId t = Some (Account.id b) →
  let r0 := App.computeBalances accs txs in
  let r1 := App.computeBalances accs (t :: txs) in
  balance_of r1 (Account.id a) = balance_of r0 (Account.id a) - Tx.amountCents t ∧
  balance_of r1 (Account.id b) = balance_of r0 (Account.id b) + Tx.amountCents t ∧
  balance_of r1 (Account.id a) + balance_of r1 (Account.id b) =
  balance_of r0 (Account.id a) + balance_of r0 (Account.id b).
Proof.
  intros Hnd Ha Hb Hta Htb Hne Hty Hfrom Hto r0 r1. subst r0 r1.
  rewrite !balance_of_final, !find_account_unique by done. simpl.
  rewrite final_state_cons. generalize (final_state accs txs) as s. intros s.
  assert (Effects.effects accs t =
          if bool_decide (Tx.amountCents t = 0) then []
          else [OnEf (Account.id a) (- Tx.amountCents t); OnEf (Account.id b) (Tx.amountCents t)])
    as ->.
  { unfold Effects.effects. destruct (bool_decide _); [done|].
    rewrite Hty. cbn -[find_account]. rewrite Hfrom, Hto, !find_account_unique by done.
    rewrite (proj2 (String.eqb_neq _ _) Hne), Hta, Htb. done. }
  unfold App.entry. rewrite Hta, Htb. simpl.
  case_bool_decide as Hz; simpl; [lia|].
  rewrite (lookup_add_to_ne _ (Account.id b) (Account.id a)) by congruence.
  rewrite !lookup_add_to_eq.
  rewrite (lookup_add_to_ne _ (Account.id a) (Account.id b)) by congruence.
  simpl. lia.
Qed.

Lemma transfer_cash_cash_conservation_witness :
  NoDup (map Account.id [Ex.cashA; Ex.cashB]) ∧
  (let r0 := App.computeBalances [Ex.cashA; Ex.cashB] [] in
   let r1 := App.computeBalances [Ex.cashA; Ex.cashB] [Ex.transfer_AB] in
   balance_of r1 "A" = balance_of r0 "A" - 4000 ∧
   balance_of r1 "B" = balance_of r0 "B" + 4000 ∧
   balance_of r1 "A" + balance_of r1 "B" = balance_of r0 "A" + balance_of r0 "B").
Proof.
  split.
  - apply (bool_decide_unpack _). vm_compute. reflexivity.
  - apply (transfer_cash_cash_conservation [Ex.cashA; Ex.cashB] [] Ex.transfer_AB Ex.cashA Ex.cashB);
      try (simpl; tauto); try reflexivity.
    + apply (bool_decide_unpack _). vm_compute. reflexivity.
    + vm_compute. discriminate.
Defined.

Lemma expense_cash_frame_witness :
  NoDup (map Account.id [Ex.cashA; Ex.cashB; Ex.card]) ∧
  Forall2 (fun e1 e0 =>
      account e1 = account e0 ∧
      if String.eqb (Account.id (account e0)) "A"
      then balanceCents e1 = balanceCents e0 - 1500 ∧
           creditAvailableCents e1 = creditAvailableCents e0
      else e1 = e0)
    (accounts (App.computeBalances [Ex.cashA; Ex.cashB; Ex.card] [Ex.wallet_expense; Ex.transfer_AB]))
    (accounts (App.computeBalances [Ex.cashA; Ex.cashB; Ex.card] [Ex.transfer_AB])).
Proof.
  split; [apply (bool_decide_unpack _); vm_compute; reflexivity|].
  apply (expense_cash_frame [Ex.cashA; Ex.cashB; Ex.card] [Ex.transfer_AB] Ex.wallet_expense Ex.cashA);
    try reflexivity.
  - apply (bool_decide_unpack _). vm_compute. reflexivity.
  - simpl. tauto.
Defined.

(** C3, as the code has it.  A transfer out of a CREDIT account into a CASH
    account has no effect at all.  A transfer out of a CREDIT account into
    another CREDIT account is not a no-op: it pays the destination's debt
    down by the amount (its balance and its available credit rise by the
    amount), and every other row is the one computed without it. *)
Theorem transfer_from_credit (accs : list Account.t) (txs : list (Tx.t Z)) (t : Tx.t Z) (a b : Account.t) :
  NoDup (map Account.id accs) → In a accs → In b accs →
  Account.type a = CREDIT → Account.id a ≠ Account.id b →
  Tx.type t = "TRANSFERENCIA" →
  Tx.accountFromId t = Some (Account.id a) → Tx.accountToId t = Some (Account.id b) →
  (Account.type b = CASH →
     App.computeBalances accs (t :: txs) = App.computeBalances accs txs) ∧
  (Account.type b = CREDIT →
     Forall2 (fun e1 e0 =>
         account e1 = account e0 ∧
         if String.eqb (Account.id (account e0)) (Account.id b)
         then balanceCents e1 = balanceCents e0 + Tx.amountCents t ∧
              creditAvailableCents e1 = Z.add (Tx.amountCents t) <$> creditAvailableCents e0
         else e1 = e0)
       (accounts (App.computeBalances accs (t :: txs)))
       (accounts (App.computeBalances accs txs))).
Proof.
  intros Hnd Ha Hb Hta Hne Hty Hfrom Hto.
  assert (Effects.effects accs t =
          if bool_decide (Tx.amountCents t = 0) then []
          else match Account.type b with
               | CASH => []
               | CREDIT => [OnDebt (Account.id b) (- Tx.amountCents t)]
               end) as Heff.
  { unfold Effects.effects. destruct (bool_decide _); [done|].
    rewrite Hty. cbn -[find_account]. rewrite Hfrom, Hto, !find_account_unique by done.
    rewrite (proj2 (String.eqb_neq _ _) Hne), Hta. by destruct (Account.type b). }
  split.
  - intros Htb. rewrite !computeBalances_final, final_state_cons, Heff, Htb.
    by destruct (bool_decide _).
  - intros Htb. rewrite !computeBalances_final. cbn zeta.
    rewrite final_state_cons, Heff, Htb. generalize (final_state accs txs) as s. intros s.
    cbn [accounts]. apply Forall2_map_same. intros c Hc.
    destruct (String.eqb (Account.id c) (Account.id b)) eqn:He.
    + apply String.eqb_eq in He.
      pose proof (same_id_same_account accs c b Hnd Hc Hb He) as ->.
      unfold App.entry. rewrite Htb. simpl. rewrite String.eqb_refl. split; [done|].
      case_bool_decide as Hz; simpl.
      * split; f_equal; lia.
      * rewrite lookup_add_to_eq. simpl. split; f_equal; lia.
    + assert (String.eqb (Account.id (account (App.entry s c))) (Account.id b) = false) as ->.
      { unfold App.entry. by destruct (Account.type c). }
      apply String.eqb_neq in He.
      split; [unfold App.entry; by destruct (Account.type c)|].
      case_bool_decide; simpl; [done|].
      unfold App.entry. destruct (Account.type c); simpl; [done|].
      rewrite lookup_add_to_ne by congruence. done.
Qed.

Lemma transfer_from_credit_witness :
  NoDup (map Account.id [Ex.cashA; Ex.card1; Ex.card2]) ∧
  App.computeBalances [Ex.cashA; Ex.card1; Ex.card2] [Ex.transfer_card_cash] =
  App.computeBalances [Ex.cashA; Ex.card1; Ex.card2] [] ∧
  Forall2 (fun e1 e0 =>
      account e1 = account e0 ∧
      if String.eqb (Account.id (account e0)) "card2"
      then balanceCents e1 = balanceCents e0 + 2000 ∧
           creditAvailableCents e1 = Z.add 2000 <$> creditAvailableCents e0
      else e1 = e0)
    (accounts (App.computeBalances [Ex.cashA; Ex.card1; Ex.card2] [Ex.transfer_cards]))
    (accounts (App.computeBalances [Ex.cashA; Ex.card1; Ex.card2] [])).
Proof.
  assert (NoDup (map Account.id [Ex.cashA; Ex.card1; Ex.card2])) as Hnd.
  { apply (bool_decide_unpack _). vm_compute. reflexivity. }
  split; [exact Hnd|]. split.
  - apply (transfer_from_credit [Ex.cashA; Ex.card1; Ex.card2] [] Ex.transfer_card_cash Ex.card1 Ex.cashA);
      try exact Hnd; try (simpl; tauto); try reflexivity.
    vm_compute. discriminate.
  - apply (transfer_from_credit [Ex.cashA; Ex.card1; Ex.card2] [] Ex.transfer_cards Ex.card1 Ex.card2);
      try exact Hnd; try (simpl; tauto); try reflexivity.
    vm_compute. discriminate.
Defined.

(** C3 as stated fails: a transfer from the credit account "card1" to the
    credit account "card2" changes the balance and the available credit of
    "card2" (from -5000 / 95000 to -3000 / 97000). *)
Lemma transfer_from_credit_not_noop :
  Account.type Ex.card1 = CREDIT ∧ Account.type Ex.card2 = CREDIT ∧
  map (fun e => (balanceCents e, creditAvailableCents e))
      (accounts (App.computeBalances [Ex.card1; Ex.card2] [Ex.transfer_cards]))
    = [(0, Some 100000); (-3000, Some 97000)] ∧
  map (fun e => (balanceCents e, creditAvailableCents e))
      (accounts (App.computeBalances [Ex.card1; Ex.card2] []))
    = [(0, Some 100000); (-5000, Some 95000)].
Proof. vm_compute. repeat split. Qed.

(** C2 (as the code has it in [App.tsx]).  An income whose destination is a
    CREDIT account of the registry (unique ids) is ignored: the test
    [t.accountToId in ef] only looks at the cash dictionary, so the debt of
    the account is not paid down and the result is the one computed
    without the income. *)
Theorem income_into_credit_ignored (accs : list Account.t) (txs : list (Tx.t Z)) (t : Tx.t Z) (a : Account.t) :
  NoDup (map Account.id accs) → In a accs → Account.type a = CREDIT →
  Tx.type t = "INGRESO" → Tx.accountToId t = Some (Account.id a) →
  App.computeBalances accs (t :: txs) = App.computeBalances accs txs.
Proof.
  intros Hnd Ha Hta Hty Hto.
  assert (Effects.effects accs t = []) as Heff.
  { unfold Effects.effects. destruct (bool_decide _); [done|].
    rewrite Hty. cbn -[has_id_of_type truthy]. rewrite Hto. unfold truthy.
    destruct (String.eqb (Account.id a) ""); [done|].
    destruct (has_id_of_type CASH accs (Account.id a)) eqn:Hc; [|done].
    apply has_id_of_type_spec in Hc as (c & Hc & He & Htc).
    pose proof (same_id_same_account accs c a Hnd Hc Ha He) as ->. congruence. }
  rewrite !computeBalances_final, final_state_cons, Heff. done.
Qed.

Lemma income_into_credit_ignored_witness :
  App.computeBalances [Ex.card] [Ex.income_card] = App.computeBalances [Ex.card] [].
Proof.
  apply (income_into_credit_ignored [Ex.card] [] Ex.income_card Ex.card); try reflexivity.
  - apply (bool_decide_unpack _). vm_compute. reflexivity.
  - simpl. tauto.
Defined.

(** Scenario D of the spec on both versions of the engine: the earlier
    [part_000] version reports a balance of 15000 for "card" (debt -15000),
    the [App.tsx] version keeps the opening debt 5000 (balance -5000). *)
Lemma scenario_D_both_versions :
  map balanceCents (accounts0 (Part000.computeBalances [Ex.card] [Ex.income_card])) = [15000] ∧
  map balanceCents (accounts (App.computeBalances [Ex.card] [Ex.income_card])) = [-5000].
Proof. vm_compute. split; reflexivity. Qed.

(* ------------------------------------------------------------------ *)
(** ** Registry migration *)


Lemma has_false {V} (m : JsMap.t V) k : JsMap.has m k = false ↔ k ∉ map fst m.
Proof.
  induction m as [|[k' v'] m IH]; simpl.
  - split; [intros _; apply not_elem_of_nil|done].
  - rewrite orb_false_iff, IH, not_elem_of_cons.
    destruct (String.eqb k' k) eqn:He.
    + apply String.eqb_eq in He. subst. split; [intros [? _]; done|intros [? _]; done].
    + apply String.eqb_neq in He. split; intros [_ H2]; split; congruence.
Qed.

Lemma has_true {V} (m : JsMap.t V) k : JsMap.has m k = true ↔ k ∈ map fst m.
Proof.
  destruct (JsMap.has m k) eqn:H; split; try done.
  - intros _. destruct (decide (k ∈ map fst m)) as [?|Hn]; [done|].
    apply has_false in Hn. congruence.
  - intros Hin. apply has_false in H. done.
Qed.

Lemma set_fresh {V} (m : JsMap.t V) k v : k ∉ map fst m → JsMap.set m k v = m ++ [(k, v)].
Proof.
  induction m as [|[k' v'] m IH]; simpl; [done|].
  intros Hn. apply not_elem_of_cons in Hn as [Hne Hn].
  rewrite (proj2 (String.eqb_neq _ _)) by congruence. by rewrite IH.
Qed.

Lemma set_keys {V} (m : JsMap.t V) k v : k ∈ map fst m → map fst (JsMap.set m k v) = map fst m.
Proof.
  induction m as [|[k' v'] m IH]; simpl; [by intros ?%not_elem_of_nil|].
  intros Hin. destruct (String.eqb k' k) eqn:He; simpl; [done|].
  apply String.eqb_neq in He. apply elem_of_cons in Hin as [->|Hin]; [done|].
  by rewrite IH.
Qed.

Lemma set_nodup {V} (m : JsMap.t V) k v : NoDup (map fst m) → NoDup (map fst (JsMap.set m k v)).
Proof.
  intros Hnd. destruct (decide (k ∈ map fst m)) as [Hin|Hn].
  - by rewrite set_keys.
  - rewrite set_fresh, map_app by done. simpl. apply NoDup_app. split; [done|].
    split; [|apply NoDup_singleton]. intros x Hx ->%list_elem_of_singleton. done.
Qed.


Lemma set_keyed (m : JsMap.t Account.t) a : keyed m → keyed (JsMap.set m (Account.id a) a).
Proof.
  induction m as [|[k' v'] m IH]; simpl; intros Hk.
  - by repeat constructor.
  - inversion Hk as [|? ? Hh Ht]; subst. destruct (String.eqb k' (Account.id a)) eqn:He.
    + apply String.eqb_eq in He. constructor; [done|done].
    + constructor; [done|]. by apply IH.
Qed.

Lemma of_entries_app_props (m : JsMap.t Account.t) (l : list Account.t) :
  keyed m → NoDup (map fst m) →
  keyed (foldl (fun m p => JsMap.set m p.1 p.2) m (pairs l)) ∧
  NoDup (map fst (foldl (fun m p => JsMap.set m p.1 p.2) m (pairs l))).
Proof.
  revert m. induction l as [|a l IH]; intros m Hk Hnd; simpl; [done|].
  apply IH; [by apply set_keyed|by apply set_nodup].
Qed.

Lemma of_entries_nodup_app (m : JsMap.t Account.t) (l : list Account.t) :
  NoDup (map fst m ++ map Account.id l) →
  foldl (fun m p => JsMap.set m p.1 p.2) m (pairs l) = m ++ pairs l.
Proof.
  revert m. induction l as [|a l IH]; intros m Hnd; simpl; [by rewrite app_nil_r|].
  apply NoDup_app in Hnd as (Hm & Hdis & Hl).
  rewrite set_fresh.
  2:{ intros Hin. apply (Hdis _ Hin). by left. }
  rewrite IH.
  - by rewrite <- app_assoc.
  - rewrite map_app. simpl. rewrite <- app_assoc. simpl. apply NoDup_app. split; [done|].
    split; [|exact Hl]. intros x Hx Hx'. by apply (Hdis x Hx).
Qed.

Lemma values_pairs_keyed (m : JsMap.t Account.t) : keyed m → pairs (JsMap.values m) = m.
Proof.
  induction m as [|[k v] m IH]; simpl; intros Hk; [done|].
  inversion Hk as [|? ? Hh Ht]; subst. simpl in Hh. rewrite Hh, IH; done.
Qed.

Lemma ensure_loop (ds : list Account.t) (m : JsMap.t Account.t) (ch : bool) :
  ∃ added,
    foldl ensureAccounts_step (m, ch) ds = (m ++ pairs added, ch || negb (bool_decide (added = []))) ∧
    Forall (fun a => In a ds ∧ Account.id a ∉ map fst m) added ∧
    (∀ a, In a ds → JsMap.has (m ++ pairs added) (Account.id a) = true) ∧
    (NoDup (map fst m) → NoDup (map fst (m ++ pairs added))) ∧
    (keyed m → keyed (m ++ pairs added)).
Proof.
  revert m ch. induction ds as [|a ds IH]; intros m ch; simpl.
  - exists []. rewrite app_nil_r, orb_false_r. repeat split; try done.
  - destruct (JsMap.has m (Account.id a)) eqn:Hh.
    + destruct (IH m ch) as (added & Heq & Hf & Hhas & Hnd & Hk).
      exists added. rewrite Heq. repeat split; try done.
      * eapply Forall_impl; [exact Hf|]. simpl. intros x [? ?]. split; [by right|done].
      * intros x [<-|Hx]; [|by apply Hhas].
        apply has_true. apply has_true in Hh. rewrite map_app. apply elem_of_app. by left.
    + pose proof Hh as Hfresh. apply has_false in Hfresh. rewrite set_fresh by done.
      destruct (IH (m ++ [(Account.id a, a)]) true) as (added & Heq & Hf & Hhas & Hnd & Hk).
      exists (a :: added). rewrite Heq, <- app_assoc. simpl.
      rewrite orb_true_r.
      repeat split; try done.
      * constructor; [split; [by left|done]|].
        eapply Forall_impl; [exact Hf|]. simpl. intros x [? Hn]. split; [by right|].
        intros Hx. apply Hn. rewrite map_app. apply elem_of_app. by left.
      * intros x [<-|Hx].
        -- apply has_true. rewrite map_app. apply elem_of_app. right. simpl. by left.
        -- specialize (Hhas x Hx). by rewrite <- app_assoc in Hhas.
      * intros Hnd0. change (m ++ (Account.id a, a) :: pairs added) with (m ++ [(Account.id a, a)] ++ pairs added).
        rewrite app_assoc. apply Hnd. rewrite map_app. simpl.
        apply NoDup_app. split; [done|]. split; [|apply NoDup_singleton].
        intros y Hy ->%list_elem_of_singleton. done.
      * intros Hk0. change (m ++ (Account.id a, a) :: pairs added) with (m ++ [(Account.id a, a)] ++ pairs added).
        rewrite app_assoc. apply Hk. apply Forall_app. split; [done|].
        by repeat constructor.
Qed.

Lemma ensure_loop_noop (ds : list Account.t) (m : JsMap.t Account.t) (ch : bool) :
  (∀ a, In a ds → JsMap.has m (Account.id a) = true) →
  foldl ensureAccounts_step (m, ch) ds = (m, ch).
Proof.
  revert m ch. induction ds as [|a ds IH]; intros m ch H; simpl; [done|].
  rewrite H by (by left). apply IH. intros x Hx. apply H. by right.
Qed.

Lemma foldl_push (P : Category.t → bool) (ds cur : list Category.t) :
  foldl (fun cur c => if P c then cur else cur ++ [c]) cur ds =
  cur ++ List.filter (fun c => negb (P c)) ds.
Proof.
  revert cur. induction ds as [|c ds IH]; intros cur; simpl; [by rewrite app_nil_r|].
  destruct (P c); simpl.
  - apply IH.
  - rewrite IH, <- app_assoc. done.
Qed.

Lemma ensureCategories_eq (current : list Category.t) :
  ensureCategories current =
  current ++ List.filter (fun c => negb (existsb (String.eqb (Category.id c)) (map Category.id current)))
                         defaultCategories.
Proof. unfold ensureCategories. apply foldl_push. Qed.

Lemma values_pairs (l : list Account.t) : JsMap.values (pairs l) = l.
Proof. unfold JsMap.values, pairs. rewrite map_map. simpl. apply map_id. Qed.

Lemma keys_pairs (l : list Account.t) : map fst (pairs l) = map Account.id l.
Proof. unfold pairs. rewrite map_map. done. Qed.

Lemma keyed_keys (m : JsMap.t Account.t) : keyed m → map Account.id (JsMap.values m) = map fst m.
Proof.
  induction m as [|[k v] m IH]; simpl; intros Hk; [done|].
  inversion Hk as [|? ? Hh Ht]; subst. simpl in Hh. rewrite Hh, IH; done.
Qed.

Lemma of_entries_values (m : JsMap.t Account.t) :
  keyed m → NoDup (map fst m) → JsMap.of_entries (pairs (JsMap.values m)) = m.
Proof.
  intros Hk Hnd. unfold JsMap.of_entries.
  rewrite of_entries_nodup_app.
  - simpl. by apply values_pairs_keyed.
  - simpl. by rewrite keyed_keys.
Qed.

Lemma ensureAccounts_cases (accs : list Account.t) :
  ensureAccounts accs = accs ∨
  ∃ m, ensureAccounts accs = JsMap.values m ∧ keyed m ∧ NoDup (map fst m) ∧
       ∀ a, In a defaultAccounts → JsMap.has m (Account.id a) = true.
Proof.
  unfold ensureAccounts. fold (pairs accs).
  destruct (of_entries_app_props [] accs) as [Hk0 Hnd0]; [constructor|constructor|].
  fold (JsMap.of_entries (pairs accs)) in Hk0, Hnd0.
  destruct (ensure_loop defaultAccounts (JsMap.of_entries (pairs accs)) false)
    as (added & Heq & _ & Hhas & Hnd & Hk).
  rewrite Heq. simpl.
  destruct (bool_decide (added = [])); simpl; [by left|].
  right. eexists. split; [reflexivity|]. split; [by apply Hk|]. split; [by apply Hnd|]. done.
Qed.

Lemma ensureAccounts_values (m : JsMap.t Account.t) :
  keyed m → NoDup (map fst m) → (∀ a, In a defaultAccounts → JsMap.has m (Account.id a) = true) →
  ensureAccounts (JsMap.values m) = JsMap.values m.
Proof.
  intros Hk Hnd Hhas. unfold ensureAccounts. fold (pairs (JsMap.values m)).
  rewrite of_entries_values, ensure_loop_noop by done. done.
Qed.

Lemma ensureAccounts_idempotent (accs : list Account.t) :
  ensureAccounts (ensureAccounts accs) = ensureAccounts accs.
Proof.
  destruct (ensureAccounts_cases accs) as [H|(m & H & Hk & Hnd & Hhas)]; rewrite H.
  - exact H.
  - by apply ensureAccounts_values.
Qed.

Lemma filter_all_false {A} (f : A → bool) (l : list A) :
  (∀ x, In x l → f x = false) → List.filter f l = [].
Proof.
  induction l as [|x l IH]; intros H; simpl; [done|].
  rewrite H by (by left). apply IH. intros y Hy. apply H. by right.
Qed.

Lemma ensureCategories_idempotent (cats : list Category.t) :
  ensureCategories (ensureCategories cats) = ensureCategories cats.
Proof.
  rewrite (ensureCategories_eq (ensureCategories cats)).
  rewrite <- (app_nil_r (ensureCategories cats)) at 2. f_equal.
  apply filter_all_false. intros d Hd.
  apply negb_false_iff, existsb_exists.
  exists (Category.id d). split; [|apply String.eqb_refl].
  rewrite ensureCategories_eq, map_app. apply in_or_app.
  destruct (existsb (String.eqb (Category.id d)) (map Category.id cats)) eqn:He.
  - left. apply existsb_exists in He as (k & Hk & Heq).
    apply String.eqb_eq in Heq. by subst k.
  - right. apply in_map. apply filter_In. rewrite He. done.
Qed.

Lemma ensureCategories_additive (cats : list Category.t) :
  ∃ added, ensureCategories cats = cats ++ added ∧
    Forall (fun c => In c defaultCategories ∧ Category.id c ∉ map Category.id cats) added.
Proof.
  eexists. split; [apply ensureCategories_eq|].
  apply Forall_forall. intros c Hc%list_elem_of_In. apply filter_In in Hc as [Hin Hn].
  split; [done|]. intros Hid%list_elem_of_In.
  apply negb_true_iff in Hn. apply not_true_iff_false in Hn. apply Hn.
  apply existsb_exists. exists (Category.id c). split; [done|apply String.eqb_refl].
Qed.

Lemma ensureAccounts_additive (accs : list Account.t) :
  NoDup (map Account.id accs) →
  ∃ added, ensureAccounts accs = accs ++ added ∧
    Forall (fun a => In a defaultAccounts ∧ Account.id a ∉ map Account.id accs) added.
Proof.
  intros Hnd. unfold ensureAccounts. fold (pairs accs).
  assert (JsMap.of_entries (pairs accs) = pairs accs) as ->.
  { unfold JsMap.of_entries. rewrite of_entries_nodup_app; [done|]. done. }
  destruct (ensure_loop defaultAccounts (pairs accs) false) as (added & Heq & Hf & _).
  rewrite Heq. simpl. exists added.
  rewrite keys_pairs in Hf. split; [|done].
  destruct (bool_decide (added = [])) eqn:He; simpl.
  - apply bool_decide_eq_true in He. subst. by rewrite app_nil_r.
  - unfold JsMap.values, pairs. rewrite <- map_app. fold (pairs (accs ++ added)).
    apply values_pairs.
Qed.

(** C9.  Registry reconciliation is idempotent and purely additive: both
    migrations are idempotent on every registry state, and each only appends
    seeds whose id is missing, keeping every existing entry unchanged and in
    place (the persisted entry wins over a differing seed of the same id):
    [ensureCategories] on every registry, [ensureAccounts] on every registry
    whose ids are distinct, as the ids of a registry are. *)
Theorem registry_reconciliation (accs : list Account.t) (cats : list Category.t) :
  ensureAccounts (ensureAccounts accs) = ensureAccounts accs ∧
  ensureCategories (ensureCategories cats) = ensureCategories cats ∧
  (∃ added, ensureCategories cats = cats ++ added ∧
     Forall (fun c => In c defaultCategories ∧ Category.id c ∉ map Category.id cats) added) ∧
  (NoDup (map Account.id accs) →
   ∃ added, ensureAccounts accs = accs ++ added ∧
     Forall (fun a => In a defaultAccounts ∧ Account.id a ∉ map Account.id accs) added).
Proof.
  split; [apply ensureAccounts_idempotent|].
  split; [apply ensureCategories_idempotent|].
  split; [apply ensureCategories_additive|apply ensureAccounts_additive].
Qed.

Lemma registry_reconciliation_witness :
  NoDup (map Account.id [Ex.cashA; Ex.card]) ∧
  ensureAccounts (ensureAccounts [Ex.cashA; Ex.card]) = ensureAccounts [Ex.cashA; Ex.card] ∧
  ∃ added, ensureAccounts [Ex.cashA; Ex.card] = [Ex.cashA; Ex.card] ++ added ∧
     Forall (fun a => In a defaultAccounts ∧ Account.id a ∉ map Account.id [Ex.cashA; Ex.card])
       added.
Proof.
  assert (NoDup (map Account.id [Ex.cashA; Ex.card])) as Hnd.
  { apply (bool_decide_unpack _). vm_compute. reflexivity. }
  destruct (registry_reconciliation [Ex.cashA; Ex.card] []) as (Hi & _ & _ & Ha).
  split; [exact Hnd|]. split; [exact Hi|exact (Ha Hnd)].
Defined.

(* ------------------------------------------------------------------ *)
(** ** [Number(String(n)) = n] for integers *)


Lemma take_digits_pos (u : uint) : ∀ (p : positive) (n : nat),
  take_digits 10 (String.list_ascii_of_string (NilEmpty.string_of_uint u)) (Z.pos p) n
  = (Z.pos (Pos.of_uint_acc u p), (Decimal.nb_digits u + n)%nat, []).
Proof.
  induction u; intros p n; simpl; digit_values; [reflexivity|..];
  lazymatch goal with
  | |- take_digits _ _ ?a _ = (Z.pos (Pos.of_uint_acc _ ?q), _, _) =>
      replace a with (Z.pos q) by lia; rewrite IHu; f_equal; f_equal; lia
  end.
Qed.

Lemma take_digits_uint (u : uint) (n : nat) :
  take_digits 10 (String.list_ascii_of_string (NilEmpty.string_of_uint u)) 0 n
  = (Z.of_N (Pos.of_uint u), (Decimal.nb_digits u + n)%nat, []).
Proof.
  revert n. induction u; intros n; simpl; digit_values.
  1: reflexivity.
  1: rewrite IHu; f_equal; f_equal; lia.
  all: lazymatch goal with
    | |- take_digits _ _ ?a _ = (?w, _, _) =>
        lazymatch w with
        | context [Pos.of_uint_acc _ ?q] =>
            replace a with (Z.pos q) by lia; rewrite take_digits_pos; f_equal; f_equal; lia
        end
    end.
Qed.


Lemma plain_digits (u : uint) :
  Forall plain_digit (String.list_ascii_of_string (NilEmpty.string_of_uint u)).
Proof.
  induction u; simpl; constructor; try assumption; repeat split.
Qed.

Lemma skip_ws_id (l : list ascii) :
  Forall (fun c => is_ws c = false) l → skip_ws l = l.
Proof. intros H. destruct H as [|c l Hc _]; simpl; [done|]. by rewrite Hc. Qed.

Lemma trim_ws_id (l : list ascii) :
  Forall (fun c => is_ws c = false) l → trim_ws l = l.
Proof.
  intros H. unfold trim_ws. rewrite (skip_ws_id l) by done.
  rewrite skip_ws_id; [apply rev_involutive|]. apply List.Forall_rev. exact H.
Qed.

Lemma plain_not_ws (l : list ascii) :
  Forall plain_digit l → Forall (fun c => is_ws c = false) l.
Proof. intros H. eapply Forall_impl; [exact H|]. by intros c [? _]. Qed.

Lemma plain_not_infinity (l : list ascii) :
  Forall plain_digit l → l ≠ infinity_chars.
Proof.
  intros H ->. inversion H as [|c l Hc _]. destruct Hc as (_ & _ & _ & _ & Hc).
  discriminate Hc.
Qed.

Lemma unsigned_decimal_uint (u : uint) :
  u ≠ Nil →
  unsigned_decimal (String.list_ascii_of_string (NilEmpty.string_of_uint u))
  = Some (Z.of_N (Pos.of_uint u), 0).
Proof.
  intros Hu. unfold unsigned_decimal. rewrite take_digits_uint.
  destruct u; [done|..]; reflexivity.
Qed.

Lemma signed_decimal_plain (l : list ascii) (v : Z) :
  Forall plain_digit l → unsigned_decimal l = Some (v, 0) →
  signed_decimal l = JsFinite v 0 ∧ signed_decimal ("-"%char :: l) = JsFinite (- v) 0.
Proof.
  intros Hp Hu. split.
  - destruct l as [|a l']; [discriminate Hu|].
    inversion Hp as [|? ? (_ & _ & Hm & Hpl & _) _]; subst.
    unfold signed_decimal. cbv beta iota. rewrite Hm, Hpl. cbv beta iota.
    rewrite bool_decide_false by (by apply plain_not_infinity).
    by rewrite Hu.
  - unfold signed_decimal. simpl.
    rewrite bool_decide_false by (by apply plain_not_infinity).
    by rewrite Hu.
Qed.

Lemma Number_of_plain (l : list ascii) (v : Z) :
  Forall plain_digit l → unsigned_decimal l = Some (v, 0) →
  Number_of_chars l = JsFinite v 0 ∧ Number_of_chars ("-"%char :: l) = JsFinite (- v) 0.
Proof.
  intros Hp Hu. destruct (signed_decimal_plain l v Hp Hu) as [Hs Hn]. split.
  - unfold Number_of_chars. rewrite trim_ws_id by (by apply plain_not_ws).
    destruct l as [|a [|b r]]; [discriminate Hu|exact Hs|].
    inversion Hp as [|? ? _ Hr]; subst. inversion Hr as [|? ? (_ & Hb & _) _]; subst.
    rewrite Hb. by destruct (Ascii.eqb a "0").
  - unfold Number_of_chars. rewrite trim_ws_id.
    2:{ constructor; [reflexivity|]. by apply plain_not_ws. }
    destruct l as [|b r]; exact Hn.
Qed.

Lemma Number_of_number_to_string (z : Z) :
  Number_of_string (number_to_string z) = JsFinite z 0.
Proof.
  unfold Number_of_string, number_to_string. destruct z as [|p|p]; [reflexivity|..].
  - pose proof (Unsigned.to_uint_nonnil p) as Hn.
    destruct (Number_of_plain _ _ (plain_digits (Pos.to_uint p))
                (unsigned_decimal_uint _ Hn)) as [H _].
    rewrite Unsigned.of_to in H. simpl. destruct (Pos.to_uint p); [done|..]; exact H.
  - pose proof (Unsigned.to_uint_nonnil p) as Hn.
    destruct (Number_of_plain _ _ (plain_digits (Pos.to_uint p))
                (unsigned_decimal_uint _ Hn)) as [_ H].
    rewrite Unsigned.of_to in H. simpl. destruct (Pos.to_uint p); [done|..]; exact H.
Qed.

(* ------------------------------------------------------------------ *)
(** ** Splitting, joining and cleaning *)

Lemma split_on_no (c : ascii) (s : string) :
  no_char c s = true → split_on c s = [s].
Proof.
  induction s as [|x s IH]; simpl; [done|].
  intros [Hx Hs]%andb_prop. rewrite IH by done.
  apply negb_true_iff in Hx. by rewrite Hx.
Qed.

Lemma split_on_app (c : ascii) (x r : string) :
  no_char c x = true →
  split_on c (String.append x (String c r)) = x :: split_on c r.
Proof.
  induction x as [|y x IH]; simpl; intros H.
  - by rewrite Ascii.eqb_refl.
  - apply andb_prop in H as [Hy Hx]. rewrite IH by done.
    apply negb_true_iff in Hy. by rewrite Hy.
Qed.

Lemma append_single (c : ascii) (s : string) :
  String.append (String c EmptyString) s = String c s.
Proof. reflexivity. Qed.

Lemma split_join (c : ascii) (l : list string) :
  l ≠ [] → Forall (fun s => no_char c s = true) l →
  split_on c (join (String c EmptyString) l) = l.
Proof.
  induction l as [|x l IH]; intros Hne Hf; [done|].
  inversion Hf as [|? ? Hx Hl]; subst.
  destruct l as [|y l].
  - simpl. by apply split_on_no.
  - change (join (String c EmptyString) (x :: y :: l))
      with (String.append x (String.append (String c EmptyString)
              (join (String c EmptyString) (y :: l)))).
    rewrite append_single, split_on_app by done.
    f_equal. by apply IH.
Qed.

Lemma no_char_app (c : ascii) (a b : string) :
  no_char c (String.append a b) = no_char c a && no_char c b.
Proof. induction a as [|x a IH]; simpl; [done|]. by rewrite IH, andb_assoc. Qed.

Lemma no_char_join (c : ascii) (sep : string) (l : list string) :
  no_char c sep = true → Forall (fun s => no_char c s = true) l →
  no_char c (join sep l) = true.
Proof.
  intros Hs Hf. induction Hf as [|x l Hx Hl IH]; [done|].
  destruct l as [|y l]; [done|].
  change (join sep (x :: y :: l))
    with (String.append x (String.append sep (join sep (y :: l)))).
  rewrite !no_char_app. by rewrite Hx, Hs, IH.
Qed.

Lemma remove_char_no (c : ascii) (s : string) :
  no_char c s = true → remove_char c s = s.
Proof.
  induction s as [|x s IH]; simpl; [done|].
  intros [Hx Hs]%andb_prop. apply negb_true_iff in Hx. rewrite Hx. by rewrite IH.
Qed.

Lemma no_char_replace (c d e : ascii) (s : string) :
  Ascii.eqb d e = false → no_char e s = true →
  no_char e (replace_char c d s) = true.
Proof.
  intros Hd. induction s as [|x s IH]; simpl; [done|].
  intros [Hx Hs]%andb_prop. rewrite IH by done.
  by destruct (Ascii.eqb x c); rewrite ?Hd, ?Hx.
Qed.

Lemma no_char_replace_self (c d : ascii) (s : string) :
  Ascii.eqb d c = false → no_char c (replace_char c d s) = true.
Proof.
  intros Hd. induction s as [|x s IH]; simpl; [done|].
  rewrite IH. destruct (Ascii.eqb x c) eqn:Hx; by rewrite ?Hd, ?Hx.
Qed.

Lemma no_char_uint (c : ascii) (u : uint) :
  c = ","%char ∨ c = LF ∨ c = CR →
  no_char c (NilEmpty.string_of_uint u) = true.
Proof. intros [-> | [-> | ->]]; induction u; cbn; auto. Qed.

Lemma no_char_number (c : ascii) (z : Z) :
  c = ","%char ∨ c = LF ∨ c = CR → no_char c (number_to_string z) = true.
Proof.
  intros Hc. pose proof (no_char_uint c) as Hu.
  destruct Hc as [-> | [-> | ->]]; destruct z as [|p|p]; try reflexivity;
    unfold number_to_string; cbn [Z.to_int NilZero.string_of_int];
    [destruct (Pos.to_uint p) | | destruct (Pos.to_uint p) | | destruct (Pos.to_uint p) | ];
    try reflexivity; try (apply Hu; auto);
    cbn [no_char]; (apply andb_true_intro; split; [reflexivity|]);
    unfold NilZero.string_of_uint; destruct (Pos.to_uint p); try reflexivity; apply Hu; auto.
Qed.

(* ------------------------------------------------------------------ *)
(** ** Rows of the export *)

Lemma truthy_some (s : string) :
  String.eqb s EmptyString = false → truthy (Some s) = Some s.
Proof. intros H. unfold truthy. by rewrite H. Qed.

Lemma number_to_string_nonempty (z : Z) :
  String.eqb (number_to_string z) EmptyString = false.
Proof.
  unfold number_to_string. destruct z as [|p|p]; [reflexivity| |reflexivity].
  cbn [Z.to_int NilZero.string_of_int]. unfold NilZero.string_of_uint.
  by destruct (Pos.to_uint p).
Qed.

Lemma opt_field_props (o : option string) :
  opt_field_ok o = true →
  csv_field_ok (default "" o) = true ∧ truthy (Some (default "" o)) = o.
Proof.
  destruct o as [s|]; simpl; [|done].
  intros [Hs He]%andb_prop. apply negb_true_iff in He.
  split; [done|]. by rewrite He.
Qed.

Lemma csv_field_chars (s : string) :
  csv_field_ok s = true →
  no_char ","%char s = true ∧ no_char LF s = true ∧ no_char CR s = true.
Proof. unfold csv_field_ok. intros H. repeat (apply andb_prop in H as [H ?]). done. Qed.


(** The nine fields of an exported row, and what the row does not hold. *)
Lemma csv_row_fields (t : Tx.t Z) :
  csv_safe_tx t = true →
  split_on ","%char (csv_row t) =
    [Tx.id t; Tx.type t; Tx.date t; number_to_string (Tx.amountCents t);
     default "" (Tx.accountFromId t); default "" (Tx.accountToId t);
     default "" (Tx.categoryId t); default "" (Tx.paymentMethod t);
     replace_char "," ";" (default "" (Tx.note t))]
  ∧ no_char LF (csv_row t) = true ∧ no_char CR (csv_row t) = true
  ∧ String.eqb (csv_row t) EmptyString = false.
Proof.
  intros H. unfold csv_safe_tx in H. split_ands H.
  repeat match goal with
  | Hf : opt_field_ok _ = true |- _ =>
      apply opt_field_props in Hf as [Hf _]
  | Hf : csv_field_ok _ = true |- _ =>
      apply csv_field_chars in Hf as (? & ? & ?)
  end.
  unfold csv_row. split; [|split; [|split]].
  - apply split_join; [done|].
    repeat constructor; try done.
    + apply no_char_number. by left.
    + by apply no_char_replace_self.
  - apply no_char_join; [done|]. repeat constructor; try done.
    + apply no_char_number. by right; left.
    + by apply no_char_replace.
  - apply no_char_join; [done|]. repeat constructor; try done.
    + apply no_char_number. by right; right.
    + by apply no_char_replace.
  - cbn [join]. by destruct (Tx.id t).
Qed.

Section Parse.
Variable fresh : nat → string.
Variable today : string.
Variable now : nat → Z.

Lemma parse_row_tuple (i : nat) (t : Tx.t Z) :
  csv_safe_tx t = true →
  tuple (parse_row fresh today now i (csv_row t)) = tuple_Z t.
Proof.
  intros H. destruct (csv_row_fields t H) as (Hs & _).
  unfold parse_row, tuple_Z. rewrite Hs. cbn [nth_error tuple Tx.type Tx.date Tx.amountCents
    Tx.accountFromId Tx.accountToId Tx.categoryId Tx.paymentMethod].
  unfold csv_safe_tx in H. split_ands H.
  repeat match goal with
  | Hf : opt_field_ok _ = true |- _ =>
      apply opt_field_props in Hf as [_ Hf]; rewrite Hf
  | Hf : negb (String.eqb _ EmptyString) = true |- _ =>
      apply negb_true_iff in Hf; rewrite (truthy_some _ Hf)
  end.
  rewrite (truthy_some (number_to_string _)) by apply number_to_string_nonempty.
  by rewrite Number_of_number_to_string.
Qed.

Lemma map_tuple_imap (f : nat → string → Tx.t JsNumber) (g : Tx.t Z → _)
    (txs : list (Tx.t Z)) :
  (∀ i t, In t txs → tuple (f i (csv_row t)) = g t) →
  map tuple (imap f (map csv_row txs)) = map g txs.
Proof.
  revert f. induction txs as [|t txs IH]; intros f Hf; [done|].
  cbn [map]. rewrite imap_cons. cbn [map]. f_equal.
  - apply Hf. by left.
  - apply IH. intros i t' Ht'. apply Hf. by right.
Qed.
End Parse.

Lemma filter_all_true {A} (f : A → bool) (l : list A) :
  (∀ x, In x l → f x = true) → List.filter f l = l.
Proof.
  induction l as [|x l IH]; intros H; simpl; [done|].
  rewrite H by (by left). f_equal. apply IH. intros y Hy. apply H. by right.
Qed.

Lemma buildCSV_lines (txs : list (Tx.t Z)) :
  forallb csv_safe_tx txs = true →
  List.filter (fun l => negb (String.eqb l EmptyString))
    (split_on LF (remove_char CR (buildCSV txs))) = csv_header :: map csv_row txs.
Proof.
  intros H. rewrite forallb_forall in H.
  assert (∀ t, In t txs → csv_safe_tx t = true) as H' by (intros; by apply H).
  unfold buildCSV. rewrite remove_char_no.
  2:{ apply no_char_join; [done|]. constructor; [done|].
      apply Forall_forall. intros r (t & <- & Ht)%list_elem_of_In%in_map_iff.
      apply (csv_row_fields t (H' t Ht)). }
  rewrite split_join; [|done|].
  2:{ constructor; [done|].
      apply Forall_forall. intros r (t & <- & Ht)%list_elem_of_In%in_map_iff.
      apply (csv_row_fields t (H' t Ht)). }
  apply filter_all_true. intros r [<- | (t & <- & Ht)%in_map_iff]; [done|].
  destruct (csv_row_fields t (H' t Ht)) as (_ & _ & _ & ->). done.
Qed.

(** C6, as the code has it.  Exporting a log with [buildCSV] and importing
    the text with [parseCSV] gives back, in order, the tuple (type, date,
    amount, source, destination, category, payment method) of every
    transaction, the amount read as a number, when every transaction is
    plain: no comma and no line break in the id, type, date, account,
    category and payment-method fields, a non-empty type and date, optional
    fields absent or non-empty, a note without line breaks, a safe-integer
    amount. *)
Theorem csv_round_trip (fresh : nat → string) (today : string) (now : nat → Z)
    (txs : list (Tx.t Z)) :
  forallb csv_safe_tx txs = true →
  map tuple (parseCSV fresh today now (buildCSV txs)) = map tuple_Z txs.
Proof.
  intros H. unfold parseCSV. rewrite buildCSV_lines by done.
  transitivity (map tuple (imap (parse_row fresh today now) (map csv_row txs))).
  { destruct txs; reflexivity. }
  apply map_tuple_imap. intros i t Ht. apply parse_row_tuple.
  rewrite forallb_forall in H. by apply H.
Qed.

Lemma csv_round_trip_witness :
  forallb csv_safe_tx [ExCSV.plain_expense] = true ∧
  map tuple (parseCSV (fun _ => "u") "2024-06-01" (fun _ => 0)
               (buildCSV [ExCSV.plain_expense]))
  = [("GASTO", "2024-05-02", JsFinite 1500 0, Some "A", None, Some "food", Some "VISA")].
Proof.
  split; [vm_compute; reflexivity|].
  rewrite (csv_round_trip (fun _ => "u") "2024-06-01" (fun _ => 0) [ExCSV.plain_expense])
    by (vm_compute; reflexivity).
  reflexivity.
Defined.

(** C6 as stated fails for a transaction whose date is empty (the date
    input cleared before [addTx]): the exported row has an empty date field,
    which the import replaces with [todayStr()], here ["2024-06-01"], so the
    tuple read back is not the one exported. *)
Lemma csv_round_trip_undated :
  ¬ Permutation (map tuple (parseCSV (fun _ => "u") "2024-06-01" (fun _ => 0)
                              (buildCSV [ExCSV.undated_expense])))
                (map tuple_Z [ExCSV.undated_expense]).
Proof.
  vm_compute. intros Hp. apply Permutation_length_1 in Hp. discriminate Hp.
Qed.

(* ------------------------------------------------------------------ *)
(** ** The characters of a numeric literal *)

Lemma skip_ws_in (l : list ascii) (c : ascii) :
  In c l → is_ws c = true ∨ In c (skip_ws l).
Proof.
  induction l as [|c0 l IH]; intros Hc; [destruct Hc|]. simpl.
  destruct (is_ws c0) eqn:Hw.
  - destruct Hc as [<-|Hc]; [by left|by apply IH].
  - by right.
Qed.

Lemma trim_ws_in (l : list ascii) (c : ascii) :
  In c l → is_ws c = true ∨ In c (trim_ws l).
Proof.
  intros Hc. unfold trim_ws.
  destruct (skip_ws_in l c Hc) as [W|H1]; [by left|].
  apply (proj1 (in_rev _ _)) in H1.
  destruct (skip_ws_in _ c H1) as [W|H2]; [by left|].
  right. exact (proj1 (in_rev _ _) H2).
Qed.

Lemma take_digits_chars (base : Z) (l : list ascii) (acc : Z) (n : nat) v k rest :
  take_digits base l acc n = (v, k, rest) →
  ∀ c, In c l → In c rest ∨ digit_value c ≠ None.
Proof.
  revert acc n. induction l as [|c0 l IH]; intros acc n H c Hc; [destruct Hc|].
  simpl in H. destruct (digit_in base c0) as [d|] eqn:Hd.
  - destruct Hc as [<-|Hc].
    + right. unfold digit_in in Hd. destruct (digit_value c0); congruence.
    + eapply IH; eauto.
  - injection H as <- <- <-. by left.
Qed.

Lemma radix_of_digit (x : ascii) (b : Z) : radix_of x = Some b → digit_value x ≠ None.
Proof. destruct x as [[] [] [] [] [] [] [] []]; vm_compute; congruence. Qed.

Lemma exponent_mark_digit (x : ascii) :
  (Ascii.eqb x "e" || Ascii.eqb x "E") = true → digit_value x ≠ None.
Proof. destruct x as [[] [] [] [] [] [] [] []]; vm_compute; congruence. Qed.

Lemma exponent_part_chars (l : list ascii) (e : Z) :
  exponent_part l = Some e → ∀ c, In c l → (digit_value c ≠ None ∨ c = "+"%char ∨ c = "-"%char ∨ c = "."%char).
Proof.
  unfold exponent_part. destruct l as [|c0 r]; [by intros _ c []|].
  destruct (Ascii.eqb c0 "e" || Ascii.eqb c0 "E") eqn:He; [|discriminate].
  apply exponent_mark_digit in He.
  assert (Hfin : ∀ r' sgn,
    (∀ c, In c r → In c r' ∨ c = "+"%char ∨ c = "-"%char) →
    (let '(v, k, rest) := take_digits 10 r' 0 0 in
     if (k =? 0)%nat then None else match rest with [] => Some (sgn * v) | _ => None end)
      = Some e →
    ∀ c, In c (c0 :: r) → (digit_value c ≠ None ∨ c = "+"%char ∨ c = "-"%char ∨ c = "."%char)).
  { intros r' sgn Hr' H c Hc.
    destruct (take_digits 10 r' 0 0) as [[v k] rest] eqn:Ht.
    destruct (k =? 0)%nat; [discriminate|]. destruct rest; [|discriminate].
    destruct Hc as [<-|Hc]; [by left|].
    destruct (Hr' c Hc) as [Hc' | [ -> | -> ]]; [|tauto|tauto].
    destruct (take_digits_chars _ _ _ _ _ _ _ Ht c Hc') as [[]|D]. by left. }
  destruct r as [|s r''].
  - apply (Hfin []). by intros c [].
  - destruct (Ascii.eqb s "+") eqn:Hp; [|destruct (Ascii.eqb s "-") eqn:Hm].
    + apply (Hfin r''). apply Ascii.eqb_eq in Hp as ->. intros c [<-|Hc]; auto.
    + apply (Hfin r''). apply Ascii.eqb_eq in Hm as ->. intros c [<-|Hc]; auto.
    + apply (Hfin (s :: r'')). intros c Hc; auto.
Qed.

Lemma unsigned_decimal_chars (u : list ascii) (m e : Z) :
  unsigned_decimal u = Some (m, e) → ∀ c, In c u → (digit_value c ≠ None ∨ c = "+"%char ∨ c = "-"%char ∨ c = "."%char).
Proof.
  unfold unsigned_decimal.
  destruct (take_digits 10 u 0 0) as [[ip ni] r1] eqn:H1.
  pose proof (take_digits_chars _ _ _ _ _ _ _ H1) as C1.
  destruct r1 as [|c1 r].
  - destruct (ni + 0 =? 0)%nat; [discriminate|].
    intros _ c Hc. destruct (C1 c Hc) as [[]|D]. by left.
  - destruct (Ascii.eqb c1 ".") eqn:Hd.
    + destruct (take_digits 10 r ip 0) as [[m' nf] r2] eqn:H2.
      pose proof (take_digits_chars _ _ _ _ _ _ _ H2) as C2.
      destruct (ni + nf =? 0)%nat; [discriminate|].
      destruct (exponent_part r2) as [e'|] eqn:He; [|discriminate].
      intros _ c Hc. destruct (C1 c Hc) as [[<-|Hr]|D]; [|clear Hc..|by left].
      * apply Ascii.eqb_eq in Hd as ->. tauto.
      * destruct (C2 c Hr) as [Hr2|D]; [|by left].
        exact (exponent_part_chars _ _ He c Hr2).
    + destruct (ni + 0 =? 0)%nat; [discriminate|].
      destruct (exponent_part (c1 :: r)) as [e'|] eqn:He; [|discriminate].
      intros _ c Hc. destruct (C1 c Hc) as [Hr|D]; [|by left].
      exact (exponent_part_chars _ _ He c Hr).
Qed.

Lemma infinity_chars_digit (c : ascii) : In c infinity_chars → digit_value c ≠ None.
Proof.
  intros Hc. vm_compute in Hc.
  repeat (destruct Hc as [<-|Hc]; [vm_compute; discriminate|]). destruct Hc.
Qed.

Lemma signed_decimal_chars (l : list ascii) :
  signed_decimal l ≠ JsNaN → ∀ c, In c l → (digit_value c ≠ None ∨ c = "+"%char ∨ c = "-"%char ∨ c = "."%char).
Proof.
  assert (Hu : ∀ neg u, (if bool_decide (u = infinity_chars) then JsInfinity neg
     else match unsigned_decimal u with
          | Some (m, e) => JsFinite (if neg then - m else m) e
          | None => JsNaN end) ≠ JsNaN → ∀ c, In c u → (digit_value c ≠ None ∨ c = "+"%char ∨ c = "-"%char ∨ c = "."%char)).
  { intros neg u H c Hc. case_bool_decide as Hi.
    - subst u. left. by apply infinity_chars_digit.
    - destruct (unsigned_decimal u) as [[m e]|] eqn:Hd; [|done].
      exact (unsigned_decimal_chars _ _ _ Hd c Hc). }
  unfold signed_decimal. destruct l as [|c0 r]; [by intros _ c []|].
  destruct (Ascii.eqb c0 "-") eqn:Hm; [|destruct (Ascii.eqb c0 "+") eqn:Hp].
  - intros H c [<-|Hc]; [apply Ascii.eqb_eq in Hm as ->; tauto|exact (Hu true r H c Hc)].
  - intros H c [<-|Hc]; [apply Ascii.eqb_eq in Hp as ->; tauto|exact (Hu false r H c Hc)].
  - exact (Hu false (c0 :: r)).
Qed.

Lemma integer_in_chars (b : Z) (r : list ascii) :
  integer_in b r ≠ JsNaN → ∀ c, In c r → digit_value c ≠ None.
Proof.
  unfold integer_in. destruct (take_digits b r 0 0) as [[v k] rest] eqn:H.
  destruct (k =? 0)%nat; [done|]. destruct rest; [|done].
  intros _ c Hc. by destruct (take_digits_chars _ _ _ _ _ _ _ H c Hc) as [[]|D].
Qed.

Lemma Number_of_chars_chars (l : list ascii) :
  Number_of_chars l ≠ JsNaN → ∀ c, In c (trim_ws l) → (digit_value c ≠ None ∨ c = "+"%char ∨ c = "-"%char ∨ c = "."%char).
Proof.
  unfold Number_of_chars. destruct (trim_ws l) as [|z [|x r]].
  - by intros _ c [].
  - apply signed_decimal_chars.
  - destruct (Ascii.eqb z "0") eqn:Hz; [destruct (radix_of x) as [b|] eqn:Hx|].
    + intros H c [<-|[<-|Hc]].
      * apply Ascii.eqb_eq in Hz as ->. left. vm_compute. discriminate.
      * left. exact (radix_of_digit _ _ Hx).
      * left. exact (integer_in_chars _ _ H c Hc).
    + apply signed_decimal_chars.
    + apply signed_decimal_chars.
Qed.

(** [Number(s)] is [NaN] when [s] holds a character that no numeric literal
    has: not a letter, a digit, a sign, a point or white space. *)
Lemma Number_of_string_NaN (s : string) (c : ascii) :
  In c (String.list_ascii_of_string s) →
  digit_value c = None → c ≠ "+"%char → c ≠ "-"%char → c ≠ "."%char → is_ws c = false →
  Number_of_string s = JsNaN.
Proof.
  intros Hc Hd Hp Hm Hdot Hw. unfold Number_of_string.
  destruct (Number_of_chars (String.list_ascii_of_string s)) eqn:E; try reflexivity;
  exfalso; (assert (Hn : Number_of_chars (String.list_ascii_of_string s) ≠ JsNaN)
              by (rewrite E; discriminate));
  (destruct (trim_ws_in _ _ Hc) as [W|T]; [congruence|]);
  destruct (Number_of_chars_chars _ Hn c T) as [?|[?|[?|?]]]; contradiction.
Qed.

(** C7, as the code has it.  [parseCSV] turns every non-empty line after
    the header into one transaction, in order: no row is rejected.  A row
    whose id field is empty or missing gets the generated id; a row whose
    amount field is empty or missing gets the amount [0]; any other amount
    field [s] gives [Number(s)], and an unparseable one is not coerced to
    [0]: when [s] holds an ASCII character that no numeric literal has (not
    a letter, a digit, a sign, a point or white space) the amount is
    [NaN]. *)
Theorem parseCSV_imports_every_row (fresh : nat → string) (today : string)
    (now : nat → Z) (text : string) :
  let lines := List.filter (fun l => negb (String.eqb l EmptyString))
                 (split_on LF (remove_char CR text)) in
  length (parseCSV fresh today now text) = length (tl lines) ∧
  ∀ i line, tl lines !! i = Some line →
    ∃ t, parseCSV fresh today now text !! i = Some t ∧
      (truthy (nth_error (split_on "," line) 0) = None → Tx.id t = fresh i) ∧
      (truthy (nth_error (split_on "," line) 3) = None → Tx.amountCents t = JsFinite 0 0) ∧
      (∀ s, truthy (nth_error (split_on "," line) 3) = Some s →
            Tx.amountCents t = Number_of_string s) ∧
      (∀ s c, truthy (nth_error (split_on "," line) 3) = Some s →
            In c (String.list_ascii_of_string s) → (nat_of_ascii c < 128)%nat →
            digit_value c = None → c ≠ "+"%char → c ≠ "-"%char → c ≠ "."%char →
            is_ws c = false →
            Tx.amountCents t = JsNaN).
Proof.
  intros lines. unfold parseCSV. fold lines.
  destruct (length lines <=? 1)%nat eqn:Hl.
  - apply Nat.leb_le in Hl.
    destruct lines as [|l0 [|l1 ls]]; simpl in Hl; try lia; simpl;
      (split; [done|intros i line Hi; by rewrite lookup_nil in Hi]).
  - split; [by rewrite length_imap|].
    intros i line Hi. exists (parse_row fresh today now i line).
    split; [by rewrite list_lookup_imap, Hi|].
    unfold parse_row. cbn [Tx.id Tx.amountCents].
    split; [|split; [|split]]; [intros H0; by rewrite H0 | intros H3; by rewrite H3 | |].
    + intros s H3. by rewrite H3.
    + intros s c H3 Hc _ Hd Hp Hm Hdot Hw. rewrite H3.
      exact (Number_of_string_NaN s c Hc Hd Hp Hm Hdot Hw).
Qed.

Lemma parseCSV_imports_every_row_witness :
  ∃ t, parseCSV (fun _ => "u") "2024-06-01" (fun _ => 0) ExCSV.csv_dollar !! 0%nat = Some t ∧
       Tx.id t = "u" ∧ Tx.amountCents t = JsNaN.
Proof.
  assert (List.tl (List.filter (fun l => negb (String.eqb l EmptyString))
            (split_on LF (remove_char CR ExCSV.csv_dollar))) !! 0%nat
          = Some ",GASTO,2024-05-01,$1500,A,,,,") as Hi by (vm_compute; reflexivity).
  destruct (proj2 (parseCSV_imports_every_row (fun _ => "u") "2024-06-01" (fun _ => 0)
                     ExCSV.csv_dollar) 0%nat _ Hi) as (t & Ht & Hid & _ & _ & Hnan).
  exists t. split; [exact Ht|]. split.
  - apply Hid. vm_compute. reflexivity.
  - apply (Hnan "$1500" "$"%char); [vm_compute; reflexivity|simpl; tauto|vm_compute; lia
      |vm_compute; reflexivity|vm_compute; discriminate|vm_compute; discriminate
      |vm_compute; discriminate|vm_compute; reflexivity].
Defined.

(** An amount field of letters only is read as [NaN] too: [Number("abc")]. *)
Lemma parseCSV_unparseable_amount :
  map Tx.amountCents (parseCSV (fun _ => "u") "2024-06-01" (fun _ => 0) ExCSV.csv_abc)
  = [JsNaN].
Proof. vm_compute. reflexivity. Qed.

(* ------------------------------------------------------------------ *)
(** ** Month keys west of UTC *)

Lemma local_day_west (d off : Z) :
  - msPerDay < off < 0 → (d * msPerDay + off) / msPerDay = d - 1.
Proof.
  unfold msPerDay. intros Hoff. symmetry.
  apply (Z.div_unique_pos _ _ _ (86400000 + off)); lia.
Qed.

Lemma monthKey_west (off : Z) (s : string) (days : Z) :
  - msPerDay < off < 0 → parse_iso_date s = Some days →
  monthKey (fun _ => off) s =
    let '(y, m) := civil_from_days (days - 1) in
    String.append (number_to_string y) (String "-" (pad2 (number_to_string m))).
Proof.
  intros Hoff Hs. unfold monthKey. rewrite Hs. cbv beta zeta.
  by rewrite local_day_west.
Qed.

(** C8, as the code has it.  [monthKey] reads the month of the local time
    of the UTC midnight the date denotes: on a machine whose clock is behind
    UTC (by less than a day), an Expense dated the first of March 2024 is
    keyed ["2024-02"], so two Expenses of March 2024 are split between
    February and March by [gastosPorMes]. *)
Theorem gastosPorMes_first_of_month_west (off : Z) :
  - msPerDay < off < 0 →
  monthKey (fun _ => off) "2024-03-01" = "2024-02" ∧
  gastosPorMes (fun _ => off) [ExMonth.exp "2024-03-01" 1500; ExMonth.exp "2024-03-15" 500]
  = [("2024-02", 1500); ("2024-03", 500)].
Proof.
  intros Hoff.
  assert (monthKey (fun _ => off) "2024-03-01" = "2024-02") as H1.
  { rewrite (monthKey_west off _ 19783) by (done || (vm_compute; reflexivity)).
    vm_compute. reflexivity. }
  assert (monthKey (fun _ => off) "2024-03-15" = "2024-03") as H2.
  { rewrite (monthKey_west off _ 19797) by (done || (vm_compute; reflexivity)).
    vm_compute. reflexivity. }
  split; [exact H1|].
  unfold gastosPorMes. cbn [foldl ExMonth.exp Tx.type Tx.date Tx.amountCents].
  rewrite H1, H2. vm_compute. reflexivity.
Qed.

Lemma gastosPorMes_first_of_month_west_witness :
  - msPerDay < ExMonth.bogota 0 < 0 ∧
  gastosPorMes (fun _ => ExMonth.bogota 0)
    [ExMonth.exp "2024-03-01" 1500; ExMonth.exp "2024-03-15" 500]
  = [("2024-02", 1500); ("2024-03", 500)].
Proof.
  assert (- msPerDay < ExMonth.bogota 0 < 0) as H
    by (unfold msPerDay, ExMonth.bogota; lia).
  split; [exact H|].
  apply (gastosPorMes_first_of_month_west (ExMonth.bogota 0) H).
Defined.

(** Scenario F on a machine at UTC: eight months of Expenses give the last
    six, in ascending order. *)
Lemma scenario_F_utc :
  gastosPorMes (fun _ => 0) ExMonth.eight_months =
    [("2024-01", 100); ("2024-02", 200); ("2024-03", 330);
     ("2024-04", 400); ("2024-05", 500); ("2024-06", 600)].
Proof. vm_compute. reflexivity. Qed.

(* ------------------------------------------------------------------ *)
(** ** More on the balance engine *)

Lemma fold_effects_ef s es k :
  default 0 (ef (foldl apply_effect s es) !! k) = default 0 (ef s !! k) + ef_delta es k.
Proof.
  revert s. induction es as [|[k' d|k' d] es IH]; intros s; simpl; [lia| |].
  - rewrite IH. simpl. destruct (String.eqb k' k) eqn:He.
    + apply String.eqb_eq in He as ->. rewrite lookup_add_to_eq. simpl. lia.
    + apply String.eqb_neq in He. rewrite lookup_add_to_ne by done. lia.
  - by rewrite IH.
Qed.

Lemma fold_effects_debt s es k :
  default 0 (debt (foldl apply_effect s es) !! k) = default 0 (debt s !! k) + debt_delta es k.
Proof.
  revert s. induction es as [|[k' d|k' d] es IH]; intros s; simpl; [lia| |].
  - by rewrite IH.
  - rewrite IH. simpl. destruct (String.eqb k' k) eqn:He.
    + apply String.eqb_eq in He as ->. rewrite lookup_add_to_eq. simpl. lia.
    + apply String.eqb_neq in He. rewrite lookup_add_to_ne by done. lia.
Qed.

(** How the row of an account moves when effects are applied. *)
Lemma entry_apply_effects s es b :
  App.entry (foldl apply_effect s es) b =
  match Account.type b with
  | CASH => mkEntry b (balanceCents (App.entry s b) + ef_delta es (Account.id b)) None
  | CREDIT =>
      mkEntry b (balanceCents (App.entry s b) - debt_delta es (Account.id b))
        ((fun x => x - debt_delta es (Account.id b)) <$> creditAvailableCents (App.entry s b))
  end.
Proof.
  unfold App.entry. destruct (Account.type b); simpl.
  - by rewrite fold_effects_ef.
  - rewrite fold_effects_debt. f_equal; [lia|f_equal; lia].
Qed.

Lemma BalanceEntry_eq e1 e0 :
  account e1 = account e0 → balanceCents e1 = balanceCents e0 →
  creditAvailableCents e1 = creditAvailableCents e0 → e1 = e0.
Proof. destruct e1, e0; simpl; congruence. Qed.

Lemma account_entry s b : account (App.entry s b) = b.
Proof. unfold App.entry. by destruct (Account.type b). Qed.

Lemma WF_final accs txs : WF accs (final_state accs txs).
Proof.
  rewrite final_state_effects. apply WF_apply_all; [apply WF_init|].
  induction txs as [|t txs IH]; simpl; [constructor|].
  apply Forall_app; split; [apply effects_good|done].
Qed.

Lemma map_fold_sum (m : gmap string Z) (ks : list string) :
  NoDup ks → (∀ k, is_Some (m !! k) ↔ k ∈ ks) →
  map_fold (fun _ n acc => acc + n) 0 m = sum_Z (map (fun k => default 0 (m !! k)) ks).
Proof.
  revert m. induction ks as [|k ks IH]; intros m Hnd Hk.
  - assert (m = ∅) as ->.
    { apply map_empty. intros i. destruct (m !! i) eqn:E; [|done].
      exfalso. assert (is_Some (m !! i)) as Hs by eauto. apply Hk in Hs. set_solver. }
    by rewrite map_fold_empty.
  - apply NoDup_cons in Hnd as [Hnotin Hnd].
    destruct (m !! k) as [v|] eqn:Hv.
    2:{ exfalso. destruct (proj2 (Hk k)) as [? Hs]; [set_solver|congruence]. }
    pose proof (insert_delete_id m k v Hv) as Em.
    rewrite <- Em at 1.
    rewrite map_fold_insert_L; [| intros; lia | by rewrite lookup_delete_eq].
    rewrite (IH (delete k m)); [|done|].
    + assert (map (fun k0 => default 0 (delete k m !! k0)) ks =
              map (fun k0 => default 0 (m !! k0)) ks) as ->.
      { apply map_ext_in. intros k' Hk'.
        rewrite lookup_delete_ne; [done|]. intros ->. apply Hnotin. by apply list_elem_of_In. }
      cbn [map]. unfold sum_Z at 2. cbn [foldr]. rewrite Hv. simpl. fold (sum_Z (map (fun k0 => default 0 (m !! k0)) ks)). lia.
    + intros k'. rewrite lookup_delete_is_Some. rewrite Hk. set_solver.
Qed.

Lemma NoDup_cash_ids accs :
  NoDup (map Account.id accs) → NoDup (map Account.id (cash_accounts accs)).
Proof.
  unfold cash_accounts. induction accs as [|a accs IH]; simpl; [done|].
  intros Hnd. apply NoDup_cons in Hnd as [Hn Hnd].
  case_bool_decide; simpl; [|by apply IH].
  apply NoDup_cons. split; [|by apply IH].
  intros Hin. apply Hn. apply list_elem_of_In in Hin. apply list_elem_of_In.
  apply in_map_iff in Hin as (b & Hb & Hin). apply filter_In in Hin as [Hin _].
  apply in_map_iff. eauto.
Qed.

Lemma efectivoTotal_sum accs txs :
  NoDup (map Account.id accs) →
  efectivoTotal (App.computeBalances accs txs) =
  sum_Z (map (fun a => default 0 (ef (final_state accs txs) !! Account.id a)) (cash_accounts accs)).
Proof.
  intros Hnd. rewrite computeBalances_final. simpl.
  rewrite (map_fold_sum _ (map Account.id (cash_accounts accs))).
  - by rewrite map_map.
  - by apply NoDup_cash_ids.
  - intros k. rewrite (proj1 (WF_final accs txs k)), has_id_of_type_spec, list_elem_of_In, in_map_iff.
    unfold cash_accounts. setoid_rewrite filter_In. setoid_rewrite bool_decide_eq_true.
    naive_solver.
Qed.

Lemma sum_filter {A} (P : A → bool) (f : A → Z) (l : list A) :
  sum_Z (map f (List.filter P l)) = sum_Z (map (fun x => if P x then f x else 0) l).
Proof. induction l as [|x l IH]; simpl; [done|]. destruct (P x); simpl; lia. Qed.

Lemma sum_Z_map_add {A} (f g : A → Z) (l : list A) :
  sum_Z (map (fun x => f x + g x) l) = sum_Z (map f l) + sum_Z (map g l).
Proof. induction l as [|x l IH]; simpl; lia. Qed.

Lemma foldl_add_sum {A} (f : A → Z) (z : Z) (l : list A) :
  foldl (fun acc x => acc + f x) z l = z + sum_Z (map f l).
Proof. revert z. induction l as [|x l IH]; intros z; simpl; [lia|]. rewrite IH. lia. Qed.

Lemma sum_zero {A} (f : A → Z) (l : list A) :
  (∀ x, In x l → f x = 0) → sum_Z (map f l) = 0.
Proof.
  induction l as [|x l IH]; intros H; simpl; [done|].
  rewrite H, IH; [done| |left; done]. intros y Hy. apply H. by right.
Qed.

(** Summing a quantity that is [x] at the account with a given id and 0
    elsewhere gives [x], when that id occurs once. *)
Lemma sum_indicator (P : Account.t → bool) (accs : list Account.t) (a : Account.t) (x : Z) :
  NoDup (map Account.id accs) → In a accs →
  sum_Z (map (fun b => if P b then (if String.eqb (Account.id a) (Account.id b) then x else 0) else 0) accs)
  = if P a then x else 0.
Proof.
  induction accs as [|b accs IH]; simpl; [done|].
  intros Hnd Hin. apply NoDup_cons in Hnd as [Hn Hnd].
  destruct Hin as [->|Hin].
  - rewrite String.eqb_refl, sum_zero; [destruct (P a); lia|].
    intros c Hc. destruct (String.eqb (Account.id a) (Account.id c)) eqn:He;
      [|by destruct (P c)].
    exfalso. apply String.eqb_eq in He. apply Hn. rewrite He.
    apply list_elem_of_In, in_map. done.
  - rewrite IH by done.
    destruct (String.eqb (Account.id a) (Account.id b)) eqn:He; [|destruct (P b); lia].
    exfalso. apply String.eqb_eq in He. apply Hn. rewrite <- He.
    apply list_elem_of_In, in_map. done.
Qed.

Lemma entry_no_delta s es b :
  ef_delta es (Account.id b) = 0 → debt_delta es (Account.id b) = 0 →
  App.entry (foldl apply_effect s es) b = App.entry s b.
Proof.
  intros H1 H2. rewrite entry_apply_effects, H1, H2.
  unfold App.entry. destruct (Account.type b); cbn; rewrite ?Z.sub_0_r, ?Z.add_0_r; reflexivity.
Qed.

Lemma effects_inert accs t :
  Tx.amountCents t = 0 ∨
  (Tx.type t ≠ "INGRESO" ∧ Tx.type t ≠ "GASTO" ∧ Tx.type t ≠ "TRANSFERENCIA") ∨
  (Tx.type t = "TRANSFERENCIA" ∧ Tx.accountFromId t = Tx.accountToId t) →
  Effects.effects accs t = [].
Proof.
  unfold Effects.effects. case_bool_decide as Hz; [done|].
  intros [?|[(H1 & H2 & H3)|[-> Heq]]]; [done| |].
  - apply String.eqb_neq in H1, H2, H3. by rewrite H1, H2, H3.
  - cbn -[find_account]. rewrite Heq.
    destruct (find_account accs (Tx.accountToId t)) as [b|]; [|done].
    by rewrite String.eqb_refl.
Qed.

Lemma deltas_expense_credit accs t a :
  NoDup (map Account.id accs) → In a accs → Account.type a = CREDIT →
  Tx.type t = "GASTO" → Tx.accountFromId t = Some (Account.id a) →
  ∀ k, ef_delta (Effects.effects accs t) k = 0 ∧
       debt_delta (Effects.effects accs t) k =
         if String.eqb (Account.id a) k then Tx.amountCents t else 0.
Proof.
  intros Hnd Hin Hcr Hty Hfrom k. unfold Effects.effects.
  case_bool_decide as Hz; [rewrite Hz; simpl; by destruct (String.eqb _ _)|].
  rewrite Hty. cbn -[find_account]. rewrite Hfrom, find_account_unique, Hcr by done.
  simpl. split; [done|lia].
Qed.

Lemma deltas_card_payment accs t a c :
  NoDup (map Account.id accs) → In a accs → In c accs →
  Account.type a = CASH → Account.type c = CREDIT → Account.id a ≠ Account.id c →
  Tx.type t = "TRANSFERENCIA" →
  Tx.accountFromId t = Some (Account.id a) → Tx.accountToId t = Some (Account.id c) →
  ∀ k, ef_delta (Effects.effects accs t) k =
         (if String.eqb (Account.id a) k then - Tx.amountCents t else 0) ∧
       debt_delta (Effects.effects accs t) k =
         (if String.eqb (Account.id c) k then - Tx.amountCents t else 0).
Proof.
  intros Hnd Ha Hc Hta Htc Hne Hty Hfrom Hto k. unfold Effects.effects.
  case_bool_decide as Hz; [rewrite Hz; simpl; by split; destruct (String.eqb _ _)|].
  rewrite Hty. cbn -[find_account].
  rewrite Hfrom, Hto, !find_account_unique by done.
  apply String.eqb_neq in Hne. rewrite Hne, Htc, Hta. simpl. split; lia.
Qed.

Lemma deltas_income_cash accs t a :
  In a accs → Account.type a = CASH → Account.id a ≠ "" →
  Tx.type t = "INGRESO" → Tx.accountToId t = Some (Account.id a) →
  ∀ k, ef_delta (Effects.effects accs t) k =
         (if String.eqb (Account.id a) k then Tx.amountCents t else 0) ∧
       debt_delta (Effects.effects accs t) k = 0.
Proof.
  intros Hin Hcash Hne Hty Hto k. unfold Effects.effects.
  case_bool_decide as Hz; [rewrite Hz; simpl; split; [by destruct (String.eqb _ _)|done]|].
  rewrite Hty. cbn -[has_id_of_type truthy]. rewrite Hto, truthy_some by (by apply String.eqb_neq).
  assert (has_id_of_type CASH accs (Account.id a) = true) as -> by (apply has_id_of_type_spec; eauto).
  simpl. split; [lia|done].
Qed.

Lemma avail_apply_effects s es b :
  default 0 (creditAvailableCents (App.entry (foldl apply_effect s es) b)) =
  default 0 (creditAvailableCents (App.entry s b)) -
  (if bool_decide (Account.type b = CREDIT) then debt_delta es (Account.id b) else 0).
Proof.
  rewrite entry_apply_effects. unfold App.entry.
  destruct (Account.type b); simpl; lia.
Qed.

Lemma cash_rows_sum s accs :
  sum_Z (map balanceCents
    (List.filter (fun e => bool_decide (Account.type (account e) = CASH)) (map (App.entry s) accs))) =
  sum_Z (map (fun a => default 0 (ef s !! Account.id a)) (cash_accounts accs)).
Proof.
  unfold cash_accounts. induction accs as [|a accs IH]; simpl; [done|].
  rewrite account_entry. unfold App.entry at 1.
  destruct (Account.type a) eqn:Ht; simpl; [|done].
  unfold sum_Z in *. simpl. rewrite IH. done.
Qed.

(** ** Further properties of the balance engine *)

(** A transaction with amount 0, of a type other than INGRESO, GASTO and
    TRANSFERENCIA, or a transfer whose source and destination fields are
    equal, changes nothing: wherever it sits in the log, the result is the
    one computed without it. *)
Theorem computeBalances_ignores_inert (accs : list Account.t) (t : Tx.t Z) (txs1 txs2 : list (Tx.t Z)) :
  Tx.amountCents t = 0 ∨
  (Tx.type t ≠ "INGRESO" ∧ Tx.type t ≠ "GASTO" ∧ Tx.type t ≠ "TRANSFERENCIA") ∨
  (Tx.type t = "TRANSFERENCIA" ∧ Tx.accountFromId t = Tx.accountToId t) →
  App.computeBalances accs (txs1 ++ t :: txs2) = App.computeBalances accs (txs1 ++ txs2).
Proof.
  intros H. rewrite !computeBalances_final, final_state_middle, effects_inert by done.
  done.
Qed.

(** An expense paid with a CREDIT account of the registry (unique ids)
    lowers that account's balance and its available credit by the amount;
    every other row is unchanged. *)
Theorem expense_credit_frame (accs : list Account.t) (txs : list (Tx.t Z)) (t : Tx.t Z) (a : Account.t) :
  NoDup (map Account.id accs) → In a accs → Account.type a = CREDIT →
  Tx.type t = "GASTO" → Tx.accountFromId t = Some (Account.id a) →
  Forall2 (fun e1 e0 =>
      account e1 = account e0 ∧
      if String.eqb (Account.id (account e0)) (Account.id a)
      then balanceCents e1 = balanceCents e0 - Tx.amountCents t ∧
           creditAvailableCents e1 = (fun x => x - Tx.amountCents t) <$> creditAvailableCents e0
      else e1 = e0)
    (accounts (App.computeBalances accs (t :: txs)))
    (accounts (App.computeBalances accs txs)).
Proof.
  intros Hnd Hin Hcr Hty Hfrom. rewrite !computeBalances_final. cbn zeta.
  rewrite final_state_cons. generalize (final_state accs txs) as s. intros s.
  cbn [accounts]. apply Forall2_map_same. intros b Hb.
  destruct (deltas_expense_credit accs t a Hnd Hin Hcr Hty Hfrom (Account.id b)) as [Hef Hdebt].
  rewrite !account_entry. destruct (String.eqb (Account.id b) (Account.id a)) eqn:He.
  - apply String.eqb_eq in He.
    pose proof (same_id_same_account accs b a Hnd Hb Hin He) as ->.
    rewrite String.eqb_refl in Hdebt.
    rewrite entry_apply_effects, Hcr, Hdebt. rewrite ?String.eqb_refl. done.
  - rewrite String.eqb_sym, He in Hdebt.
    rewrite entry_no_delta by done. done.
Qed.

(** Paying a credit card from a CASH account (a transfer from a CASH
    account to a distinct CREDIT account of the registry, unique ids)
    lowers the cash balance by the amount, raises the card's balance and its
    available credit by the amount, and leaves every other row unchanged. *)
Theorem card_payment_frame (accs : list Account.t) (txs : list (Tx.t Z)) (t : Tx.t Z) (a c : Account.t) :
  NoDup (map Account.id accs) → In a accs → In c accs →
  Account.type a = CASH → Account.type c = CREDIT → Account.id a ≠ Account.id c →
  Tx.type t = "TRANSFERENCIA" →
  Tx.accountFromId t = Some (Account.id a) → Tx.accountToId t = Some (Account.id c) →
  Forall2 (fun e1 e0 =>
      account e1 = account e0 ∧
      if String.eqb (Account.id (account e0)) (Account.id a)
      then balanceCents e1 = balanceCents e0 - Tx.amountCents t ∧
           creditAvailableCents e1 = creditAvailableCents e0
      else if String.eqb (Account.id (account e0)) (Account.id c)
      then balanceCents e1 = balanceCents e0 + Tx.amountCents t ∧
           creditAvailableCents e1 = (fun x => x + Tx.amountCents t) <$> creditAvailableCents e0
      else e1 = e0)
    (accounts (App.computeBalances accs (t :: txs)))
    (accounts (App.computeBalances accs txs)).
Proof.
  intros Hnd Ha Hc Hta Htc Hne Hty Hfrom Hto. rewrite !computeBalances_final. cbn zeta.
  rewrite final_state_cons. generalize (final_state accs txs) as s. intros s.
  cbn [accounts]. apply Forall2_map_same. intros b Hb.
  destruct (deltas_card_payment accs t a c Hnd Ha Hc Hta Htc Hne Hty Hfrom Hto (Account.id b))
    as [Hef Hdebt].
  rewrite !account_entry. split; [done|].
  destruct (String.eqb (Account.id b) (Account.id a)) eqn:He.
  - apply String.eqb_eq in He.
    pose proof (same_id_same_account accs b a Hnd Hb Ha He) as ->.
    rewrite String.eqb_refl in Hef.
    rewrite entry_apply_effects, Hta, Hef. rewrite ?String.eqb_refl. simpl.
    unfold App.entry. rewrite Hta. simpl. split; [lia|done].
  - rewrite String.eqb_sym, He in Hef.
    destruct (String.eqb (Account.id b) (Account.id c)) eqn:Hec.
    + apply String.eqb_eq in Hec.
      pose proof (same_id_same_account accs b c Hnd Hb Hc Hec) as ->.
      rewrite String.eqb_refl in Hdebt.
      rewrite entry_apply_effects, Htc, Hdebt. simpl.
      unfold App.entry. rewrite Htc. simpl. split; [lia|f_equal; lia].
    + rewrite String.eqb_sym, Hec in Hdebt. by rewrite entry_no_delta.
Qed.

(** An income into a CASH account of the registry (unique ids, non-empty
    id) raises that account's balance by the amount; every other row is
    unchanged. *)
Theorem income_cash_frame (accs : list Account.t) (txs : list (Tx.t Z)) (t : Tx.t Z) (a : Account.t) :
  NoDup (map Account.id accs) → In a accs → Account.type a = CASH → Account.id a ≠ "" →
  Tx.type t = "INGRESO" → Tx.accountToId t = Some (Account.id a) →
  Forall2 (fun e1 e0 =>
      account e1 = account e0 ∧
      if String.eqb (Account.id (account e0)) (Account.id a)
      then balanceCents e1 = balanceCents e0 + Tx.amountCents t ∧
           creditAvailableCents e1 = creditAvailableCents e0
      else e1 = e0)
    (accounts (App.computeBalances accs (t :: txs)))
    (accounts (App.computeBalances accs txs)).
Proof.
  intros Hnd Hin Hcash Hne Hty Hto. rewrite !computeBalances_final. cbn zeta.
  rewrite final_state_cons. generalize (final_state accs txs) as s. intros s.
  cbn [accounts]. apply Forall2_map_same. intros b Hb.
  destruct (deltas_income_cash accs t a Hin Hcash Hne Hty Hto (Account.id b)) as [Hef Hdebt].
  rewrite !account_entry. split; [done|].
  destruct (String.eqb (Account.id b) (Account.id a)) eqn:He.
  - apply String.eqb_eq in He.
    pose proof (same_id_same_account accs b a Hnd Hb Hin He) as ->.
    rewrite String.eqb_refl in Hef.
    rewrite entry_apply_effects, Hcash, Hef. simpl.
    unfold App.entry. rewrite Hcash. done.
  - rewrite String.eqb_sym, He in Hef. by rewrite entry_no_delta.
Qed.

(* The sum of the number-valued properties of [ef] is the sum of the
   balances of the CASH rows, when the account ids are unique. *)
Lemma efectivoTotal_cash_rows_num (accs : list Account.t) (txs : list (Tx.t Z)) :
  NoDup (map Account.id accs) →
  let r := App.computeBalances accs txs in
  efectivoTotal r =
  sum_Z (map balanceCents
    (List.filter (fun e => bool_decide (Account.type (account e) = CASH)) (accounts r))).
Proof.
  intros Hnd r. subst r. rewrite efectivoTotal_sum by done.
  rewrite computeBalances_final. cbn zeta. cbn [accounts]. by rewrite cash_rows_sum.
Qed.


(* Paying a credit card from a CASH account moves the amount between the
   totals of the number-valued model (unique ids). *)
Lemma card_payment_totals_num (accs : list Account.t) (txs : list (Tx.t Z)) (t : Tx.t Z) (a c : Account.t) :
  NoDup (map Account.id accs) → In a accs → In c accs →
  Account.type a = CASH → Account.type c = CREDIT → Account.id a ≠ Account.id c →
  Tx.type t = "TRANSFERENCIA" →
  Tx.accountFromId t = Some (Account.id a) → Tx.accountToId t = Some (Account.id c) →
  let r0 := App.computeBalances accs txs in
  let r1 := App.computeBalances accs (t :: txs) in
  efectivoTotal r1 = efectivoTotal r0 - Tx.amountCents t ∧
  creditoDisponibleTotal r1 = creditoDisponibleTotal r0 + Tx.amountCents t.
Proof.
  intros Hnd Ha Hc Hta Htc Hne Hty Hfrom Hto r0 r1. subst r0 r1.
  pose proof (deltas_card_payment accs t a c Hnd Ha Hc Hta Htc Hne Hty Hfrom Hto) as Hd.
  split.
  - rewrite !efectivoTotal_sum by done. rewrite final_state_cons.
    generalize (final_state accs txs) as s. intros s.
    rewrite (map_ext _ (fun b => default 0 (ef s !! Account.id b) +
                               ef_delta (Effects.effects accs t) (Account.id b)))
      by (intros b; apply fold_effects_ef).
    rewrite sum_Z_map_add.
    enough (sum_Z (map (fun b => ef_delta (Effects.effects accs t) (Account.id b)) (cash_accounts accs))
            = - Tx.amountCents t) by lia.
    unfold cash_accounts. rewrite sum_filter.
    rewrite (map_ext _ (fun b => if bool_decide (Account.type b = CASH)
                                 then (if String.eqb (Account.id a) (Account.id b)
                                       then - Tx.amountCents t else 0) else 0))
      by (intros b; by rewrite (proj1 (Hd (Account.id b)))).
    rewrite sum_indicator by done. rewrite bool_decide_eq_true_2 by done. done.
  - rewrite !computeBalances_final. cbn zeta. cbn [creditoDisponibleTotal].
    rewrite final_state_cons. generalize (final_state accs txs) as s. intros s.
    rewrite !foldl_add_sum, !map_map.
    rewrite (map_ext (fun b => default 0 (creditAvailableCents (App.entry (foldl apply_effect s _) b)))
               (fun b => default 0 (creditAvailableCents (App.entry s b)) +
                         (if bool_decide (Account.type b = CREDIT)
                          then (if String.eqb (Account.id c) (Account.id b)
                                then Tx.amountCents t else 0) else 0))).
    + rewrite sum_Z_map_add, sum_indicator by done.
      rewrite bool_decide_eq_true_2 by done. lia.
    + intros b. rewrite avail_apply_effects, (proj2 (Hd (Account.id b))).
      destruct (bool_decide _); [|lia]. destruct (String.eqb _ _); lia.
Qed.

Lemma init_other accs s k :
  k ∉ map Account.id accs →
  ef (foldl App.init_one s accs) !! k = ef s !! k ∧
  debt (foldl App.init_one s accs) !! k = debt s !! k.
Proof.
  revert s. induction accs as [|b accs IH]; intros s Hk; simpl; [done|].
  destruct (IH (App.init_one s b)) as [-> ->]; [set_solver|]. unfold App.init_one.
  destruct (Account.type b); simpl; rewrite lookup_insert_ne by set_solver; done.
Qed.

Lemma init_own accs s a :
  NoDup (map Account.id accs) → In a accs →
  match Account.type a with
  | CASH => ef (foldl App.init_one s accs) !! Account.id a = Some (default 0 (Account.initialBalanceCents a))
  | CREDIT => debt (foldl App.init_one s accs) !! Account.id a = Some (default 0 (Account.initialDebtCents a))
  end.
Proof.
  revert s. induction accs as [|b accs IH]; intros s Hnd Hin; simpl; [done|].
  apply NoDup_cons in Hnd as [Hn Hnd].
  destruct Hin as [->|Hin]; [|by apply IH].
  destruct (init_other accs (App.init_one s a) (Account.id a) Hn) as [H1 H2].
  unfold App.init_one in *. destruct (Account.type a); simpl in *.
  - rewrite H1. by rewrite lookup_insert_eq.
  - rewrite H2. by rewrite lookup_insert_eq.
Qed.

(** With an empty log, every row shows the account's opening values: a
    CASH account its opening balance (0 when unset); a CREDIT account minus
    its opening debt as balance, and its limit minus that debt as available
    credit (unset values read as 0); unique ids. *)
Theorem opening_rows (accs : list Account.t) :
  NoDup (map Account.id accs) →
  accounts (App.computeBalances accs []) =
  map (fun a =>
         match Account.type a with
         | CASH => mkEntry a (default 0 (Account.initialBalanceCents a)) None
         | CREDIT =>
             mkEntry a (- default 0 (Account.initialDebtCents a))
               (Some (default 0 (Account.creditLimitCents a) - default 0 (Account.initialDebtCents a)))
         end) accs.
Proof.
  intros Hnd. cbn [App.computeBalances accounts foldl]. apply map_ext_in. intros a Hin.
  pose proof (init_own accs (mkState ∅ ∅) a Hnd Hin) as H.
  unfold App.init_state, App.entry. destruct (Account.type a); rewrite H; done.
Qed.

Lemma computeBalances_ignores_inert_witness :
  App.computeBalances Ex2.accs ([Ex.wallet_expense] ++ Ex2.adjustment :: [Ex2.salary]) =
  App.computeBalances Ex2.accs ([Ex.wallet_expense] ++ [Ex2.salary]).
Proof.
  apply (computeBalances_ignores_inert Ex2.accs Ex2.adjustment [Ex.wallet_expense] [Ex2.salary]).
  right. left. split; [discriminate|split; discriminate].
Defined.

Lemma expense_credit_frame_witness :
  Forall2 (fun e1 e0 =>
      account e1 = account e0 ∧
      if String.eqb (Account.id (account e0)) (Account.id Ex.card)
      then balanceCents e1 = balanceCents e0 - Tx.amountCents Ex2.card_expense ∧
           creditAvailableCents e1 =
             (fun x => x - Tx.amountCents Ex2.card_expense) <$> creditAvailableCents e0
      else e1 = e0)
    (accounts (App.computeBalances Ex2.accs [Ex2.card_expense; Ex2.salary]))
    (accounts (App.computeBalances Ex2.accs [Ex2.salary])).
Proof.
  apply (expense_credit_frame Ex2.accs [Ex2.salary] Ex2.card_expense Ex.card);
    [apply (bool_decide_unpack _); vm_compute; reflexivity|simpl; tauto|reflexivity..].
Defined.

Lemma card_payment_frame_witness :
  Forall2 (fun e1 e0 =>
      account e1 = account e0 ∧
      if String.eqb (Account.id (account e0)) (Account.id Ex.cashA)
      then balanceCents e1 = balanceCents e0 - Tx.amountCents Ex2.card_payment ∧
           creditAvailableCents e1 = creditAvailableCents e0
      else if String.eqb (Account.id (account e0)) (Account.id Ex.card)
      then balanceCents e1 = balanceCents e0 + Tx.amountCents Ex2.card_payment ∧
           creditAvailableCents e1 =
             (fun x => x + Tx.amountCents Ex2.card_payment) <$> creditAvailableCents e0
      else e1 = e0)
    (accounts (App.computeBalances Ex2.accs [Ex2.card_payment; Ex2.card_expense]))
    (accounts (App.computeBalances Ex2.accs [Ex2.card_expense])).
Proof.
  apply (card_payment_frame Ex2.accs [Ex2.card_expense] Ex2.card_payment Ex.cashA Ex.card);
    [apply (bool_decide_unpack _); vm_compute; reflexivity|simpl; tauto|simpl; tauto
    |reflexivity|reflexivity|vm_compute; discriminate|reflexivity..].
Defined.

Lemma income_cash_frame_witness :
  Forall2 (fun e1 e0 =>
      account e1 = account e0 ∧
      if String.eqb (Account.id (account e0)) (Account.id Ex.cashB)
      then balanceCents e1 = balanceCents e0 + Tx.amountCents Ex2.salary ∧
           creditAvailableCents e1 = creditAvailableCents e0
      else e1 = e0)
    (accounts (App.computeBalances Ex2.accs [Ex2.salary; Ex2.card_payment]))
    (accounts (App.computeBalances Ex2.accs [Ex2.card_payment])).
Proof.
  apply (income_cash_frame Ex2.accs [Ex2.card_payment] Ex2.salary Ex.cashB);
    [apply (bool_decide_unpack _); vm_compute; reflexivity|simpl; tauto
    |reflexivity|vm_compute; discriminate|reflexivity..].
Defined.

Lemma opening_rows_witness :
  accounts (App.computeBalances Ex2.accs []) =
  map (fun a =>
         match Account.type a with
         | CASH => mkEntry a (default 0 (Account.initialBalanceCents a)) None
         | CREDIT =>
             mkEntry a (- default 0 (Account.initialDebtCents a))
               (Some (default 0 (Account.creditLimitCents a) - default 0 (Account.initialDebtCents a)))
         end) Ex2.accs.
Proof.
  apply (opening_rows Ex2.accs).
  apply (bool_decide_unpack _); vm_compute; reflexivity.
Defined.

(** ** More on the registry migrations *)

Lemma elem_of_map_iff {A B} (f : A → B) (l : list A) y :
  y ∈ map f l ↔ ∃ x, y = f x ∧ x ∈ l.
Proof.
  rewrite list_elem_of_In, in_map_iff. setoid_rewrite list_elem_of_In. naive_solver.
Qed.

Lemma set_keys_iff {V} (m : JsMap.t V) k' v k :
  k ∈ map fst (JsMap.set m k' v) ↔ k ∈ map fst m ∨ k = k'.
Proof.
  induction m as [|[k0 v0] m IH]; simpl; [set_solver|].
  destruct (String.eqb k0 k') eqn:He; simpl.
  - apply String.eqb_eq in He as ->. set_solver.
  - rewrite !elem_of_cons, IH. tauto.
Qed.

Lemma of_entries_keys {V} (m : JsMap.t V) (l : list (string * V)) k :
  k ∈ map fst (foldl (fun m p => JsMap.set m p.1 p.2) m l) ↔ k ∈ map fst m ∨ k ∈ map fst l.
Proof.
  revert m. induction l as [|[k' v] l IH]; intros m; simpl; [set_solver|].
  rewrite IH, set_keys_iff. simpl. set_solver.
Qed.

Lemma of_entries_pairs_keys (accs : list Account.t) k :
  k ∈ map fst (JsMap.of_entries (pairs accs)) ↔ k ∈ map Account.id accs.
Proof.
  unfold JsMap.of_entries. rewrite of_entries_keys, keys_pairs. set_solver.
Qed.

(** The accounts after the migration carry the ids of the stored accounts
    and the ids of all the default accounts, and no other id. *)
Theorem ensureAccounts_ids (accs : list Account.t) (k : string) :
  k ∈ map Account.id (ensureAccounts accs) ↔
  k ∈ map Account.id accs ∨ k ∈ map Account.id defaultAccounts.
Proof.
  unfold ensureAccounts. fold (pairs accs).
  destruct (of_entries_app_props [] accs) as [Hk0 _]; [constructor|constructor|].
  fold (JsMap.of_entries (pairs accs)) in Hk0.
  destruct (ensure_loop defaultAccounts (JsMap.of_entries (pairs accs)) false)
    as (added & Heq & Hf & Hhas & _ & Hkeyed).
  rewrite Heq. cbn beta iota zeta.
  assert (∀ d, d ∈ map Account.id defaultAccounts →
            d ∈ map fst (JsMap.of_entries (pairs accs) ++ pairs added)) as Hdef.
  { intros d (a & -> & Ha%list_elem_of_In)%elem_of_map_iff.
    apply has_true. by apply Hhas. }
  destruct (decide (added = [])) as [->|Hne].
  - rewrite bool_decide_eq_true_2 by done. cbn [orb negb].
    split; [by left|]. intros [?|Hd]; [done|].
    apply Hdef in Hd. cbn [pairs map] in Hd. rewrite app_nil_r in Hd.
    by apply of_entries_pairs_keys.
  - rewrite bool_decide_eq_false_2 by done. cbn [orb negb].
    rewrite keyed_keys by (by apply Hkeyed). rewrite map_app, keys_pairs.
    split.
    + intros [Hm%of_entries_pairs_keys|Ha]%elem_of_app; [by left|right].
      apply elem_of_map_iff in Ha as (a & -> & Ha).
      rewrite Forall_forall in Hf. destruct (Hf a Ha) as [Hin _].
      apply elem_of_map_iff. exists a. split; [done|]. by apply list_elem_of_In.
    + intros [Hin|Hd].
      * apply elem_of_app. left. by apply of_entries_pairs_keys.
      * apply Hdef in Hd. by rewrite map_app, keys_pairs in Hd.
Qed.

(** When every default account id is already stored, the migration returns
    the stored list itself, unchanged (so the caller writes nothing back). *)
Theorem ensureAccounts_noop (accs : list Account.t) :
  Forall (fun d => Account.id d ∈ map Account.id accs) defaultAccounts →
  ensureAccounts accs = accs.
Proof.
  intros Hall. unfold ensureAccounts.
  rewrite ensure_loop_noop; [done|].
  intros a Ha. apply has_true. fold (pairs accs). apply of_entries_pairs_keys.
  rewrite Forall_forall in Hall. by apply Hall, list_elem_of_In.
Qed.

(** The categories after the migration carry the ids of the stored
    categories and the ids of all the default categories, and no other id. *)
Theorem ensureCategories_ids (cats : list Category.t) (k : string) :
  k ∈ map Category.id (ensureCategories cats) ↔
  k ∈ map Category.id cats ∨ k ∈ map Category.id defaultCategories.
Proof.
  rewrite ensureCategories_eq, map_app, elem_of_app. split.
  - intros [?|(c & -> & Hc)%elem_of_map_iff]; [by left|right].
    apply list_elem_of_In, filter_In in Hc as [Hc _].
    apply elem_of_map_iff. exists c. split; [done|]. by apply list_elem_of_In.
  - intros [?|(c & -> & Hc)%elem_of_map_iff]; [by left|].
    destruct (existsb (String.eqb (Category.id c)) (map Category.id cats)) eqn:He.
    + left. apply existsb_exists in He as (k & Hk & Hek).
      apply String.eqb_eq in Hek as ->. by apply list_elem_of_In.
    + right. apply elem_of_map_iff. exists c. split; [done|].
      apply list_elem_of_In, filter_In. split; [by apply list_elem_of_In|by rewrite He].
Qed.

(** When every default category id is already stored, the migration
    returns the stored list unchanged. *)
Theorem ensureCategories_noop (cats : list Category.t) :
  Forall (fun d => Category.id d ∈ map Category.id cats) defaultCategories →
  ensureCategories cats = cats.
Proof.
  intros Hall. rewrite ensureCategories_eq, filter_all_false; [apply app_nil_r|].
  intros d Hd. rewrite Forall_forall in Hall.
  apply negb_false_iff, existsb_exists. exists (Category.id d).
  split; [apply list_elem_of_In, Hall; by apply list_elem_of_In|apply String.eqb_refl].
Qed.

Lemma ensureAccounts_noop_witness :
  ensureAccounts (rev defaultAccounts) = rev defaultAccounts.
Proof.
  apply (ensureAccounts_noop (rev defaultAccounts)).
  apply (bool_decide_unpack _). vm_compute. reflexivity.
Defined.

Lemma ensureCategories_noop_witness :
  ensureCategories (rev defaultCategories) = rev defaultCategories.
Proof.
  apply (ensureCategories_noop (rev defaultCategories)).
  apply (bool_decide_unpack _). vm_compute. reflexivity.
Defined.

(** ** More on the import *)

Lemma split_on_pieces (c d : ascii) (s : string) :
  Forall (fun p => no_char c p = true ∧ (no_char d s = true → no_char d p = true)) (split_on c s).
Proof.
  induction s as [|x s IH]; simpl; [by repeat constructor|].
  destruct (Ascii.eqb x c) eqn:Hx.
  - constructor; [done|]. eapply Forall_impl; [exact IH|].
    intros p [Hp Hd]. split; [done|]. intros [_ Hs]%andb_prop. by apply Hd.
  - destruct (split_on c s) as [|r rs] eqn:Hsp.
    + constructor; [|constructor]. simpl. rewrite Hx. split; [done|].
      intros [? _]%andb_prop. by rewrite H.
    + inversion IH as [|? ? [Hr Hrd] Hrs]; subst. constructor.
      * simpl. rewrite Hx, Hr. split; [done|].
        intros [Hxd Hs]%andb_prop. rewrite Hxd. by apply Hrd.
      * eapply Forall_impl; [exact Hrs|].
        intros p [Hp Hd]. split; [done|]. intros [_ Hs]%andb_prop. by apply Hd.
Qed.

Lemma remove_char_clean (c : ascii) (s : string) : no_char c (remove_char c s) = true.
Proof.
  induction s as [|x s IH]; simpl; [done|].
  destruct (Ascii.eqb x c) eqn:Hx; simpl; [done|]. by rewrite Hx.
Qed.

Lemma truthy_nth (l : list string) (i : nat) (x : string) :
  truthy (nth_error l i) = Some x → In x l ∧ String.eqb x EmptyString = false.
Proof.
  unfold truthy. destruct (nth_error l i) as [y|] eqn:Hy; [|done].
  destruct (String.eqb y EmptyString) eqn:He; [done|]. intros [= <-].
  split; [by eapply nth_error_In|done].
Qed.

Lemma field_clean (line : string) (i : nat) :
  no_char LF line = true → no_char CR line = true →
  opt_field_ok (truthy (nth_error (split_on "," line) i)) = true.
Proof.
  intros HL HC. destruct (truthy _) as [x|] eqn:Hx; [|done].
  apply truthy_nth in Hx as [Hin He]. simpl. rewrite He, andb_true_r.
  pose proof (split_on_pieces "," LF line) as H1. pose proof (split_on_pieces "," CR line) as H2.
  rewrite Forall_forall in H1, H2.
  destruct (H1 x (proj2 (list_elem_of_In _ _) Hin)) as [Hc HL'].
  destruct (H2 x (proj2 (list_elem_of_In _ _) Hin)) as [_ HC'].
  unfold csv_field_ok. by rewrite Hc, HL', HC'.
Qed.

(** Every imported transaction has a non-empty type without commas or line
    breaks, and each of its optional fields (source, destination, category,
    payment method, note) is [null] or a non-empty string without commas or
    line breaks. *)
Theorem parseCSV_fields_clean (fresh : nat → string) (today : string) (now : nat → Z) (text : string) :
  Forall (fun t =>
      csv_field_ok (Tx.type t) = true ∧ Tx.type t ≠ "" ∧
      opt_field_ok (Tx.accountFromId t) = true ∧ opt_field_ok (Tx.accountToId t) = true ∧
      opt_field_ok (Tx.categoryId t) = true ∧ opt_field_ok (Tx.paymentMethod t) = true ∧
      opt_field_ok (Tx.note t) = true)
    (parseCSV fresh today now text).
Proof.
  unfold parseCSV. destruct (Nat.leb _ _); [constructor|].
  apply Forall_forall. intros t Ht.
  apply list_elem_of_lookup in Ht as [i Hi].
  rewrite list_lookup_imap in Hi.
  destruct (tl _ !! i) as [line|] eqn:Hl; [|done]. simpl in Hi. injection Hi as <-.
  assert (no_char LF line = true ∧ no_char CR line = true) as [HL HC].
  { apply list_elem_of_lookup_2, list_elem_of_In in Hl.
    destruct (List.filter _ _) as [|l0 ls] eqn:Hf; [done|]. simpl in Hl.
    assert (In line (List.filter (fun l => negb (String.eqb l EmptyString))
                      (split_on LF (remove_char CR text)))) as Hin by (rewrite Hf; by right).
    apply filter_In in Hin as [Hin _].
    pose proof (split_on_pieces LF CR (remove_char CR text)) as Hp.
    rewrite Forall_forall in Hp.
    destruct (Hp line (proj2 (list_elem_of_In _ _) Hin)) as [H1 H2].
    split; [done|]. apply H2, remove_char_clean. }
  unfold parse_row. cbn [Tx.type Tx.accountFromId Tx.accountToId Tx.categoryId Tx.paymentMethod Tx.note].
  rewrite !field_clean by done.
  destruct (truthy (nth_error (split_on "," line) 1)) as [ty|] eqn:Hty; simpl.
  - pose proof (field_clean line 1 HL HC) as Hok. rewrite Hty in Hok. simpl in Hok.
    apply andb_prop in Hok as [Hok He]. apply negb_true_iff, String.eqb_neq in He. done.
  - split; [reflexivity|]. split; [discriminate|]. done.
Qed.

Lemma remove_char_crlf (s : string) : remove_char CR (to_crlf s) = remove_char CR s.
Proof.
  induction s as [|x s IH]; simpl; [done|].
  destruct (Ascii.eqb x LF) eqn:Hx; simpl.
  - apply Ascii.eqb_eq in Hx as ->. simpl. by rewrite IH.
  - destruct (Ascii.eqb x CR); by rewrite IH.
Qed.

(** A file saved with Windows line endings imports exactly as the same file
    with Unix line endings. *)
Theorem parseCSV_crlf (fresh : nat → string) (today : string) (now : nat → Z) (text : string) :
  parseCSV fresh today now (to_crlf text) = parseCSV fresh today now text.
Proof. unfold parseCSV. by rewrite remove_char_crlf. Qed.

(** ** The calendar *)

(** The finite facts about one 400-year cycle the calendar proofs use. *)
Lemma yoe_table : forallb yoe_ok (zrange 0 400) = true.
Proof. vm_compute. reflexivity. Qed.

Lemma mp_table : forallb mp_ok (zrange 0 12) = true.
Proof. vm_compute. reflexivity. Qed.

Lemma next_month_table :
  forallb (fun y => forallb (next_month_ok y) (zrange 1 12)) (zrange 0 400) = true.
Proof. vm_compute. reflexivity. Qed.

Lemma zrange_In (a n x : Z) : 0 ≤ n → In x (zrange a n) ↔ a ≤ x < a + n.
Proof.
  intros Hn. unfold zrange. rewrite in_map_iff. split.
  - intros (i & <- & Hi). apply in_seq in Hi. lia.
  - intros Hx. exists (Z.to_nat (x - a)). split; [lia|]. apply in_seq. lia.
Qed.

Lemma forallb_zrange (f : Z → bool) (a n x : Z) :
  forallb f (zrange a n) = true → a ≤ x < a + n → f x = true.
Proof.
  intros H Hx. rewrite forallb_forall in H. apply H.
  apply zrange_In; lia.
Qed.

Lemma yoe_ok_all yoe : 0 ≤ yoe < 400 → yoe_ok yoe = true.
Proof.
  intros H. apply (forallb_zrange _ 0 400); [exact yoe_table|lia].
Qed.

Lemma mp_ok_all mp : 0 ≤ mp < 12 → mp_ok mp = true.
Proof.
  intros H. apply (forallb_zrange _ 0 12); [exact mp_table|lia].
Qed.

Lemma next_month_ok_all y m : 0 ≤ y < 400 → 1 ≤ m ≤ 12 → next_month_ok y m = true.
Proof.
  intros Hy Hm. pose proof next_month_table as C.
  apply (forallb_zrange (fun y => forallb (next_month_ok y) (zrange 1 12)) 0 400 y) in C; [|lia].
  apply (forallb_zrange _ 1 12); [exact C|lia].
Qed.

Ltac div_facts :=
  repeat match goal with
  | |- context [?a / ?k] =>
      let q := fresh "q" in let r := fresh "r" in
      let Hq := fresh "Hq" in let Hr := fresh "Hr" in
      assert (0 < k) by lia;
      pose proof (Z.div_mod a k ltac:(lia)) as Hq;
      pose proof (Z.mod_pos_bound a k ltac:(lia)) as Hr;
      set (q := a / k) in *; set (r := a mod k) in *; clearbody q r
  end.

Lemma civ_E_step x : 0 ≤ x → civ_E x ≤ civ_E (x + 1).
Proof. intros Hx. unfold civ_E. div_facts. lia. Qed.

Lemma civ_E_mono x y : 0 ≤ x ≤ y → civ_E x ≤ civ_E y.
Proof.
  intros Hxy.
  assert (∀ n : nat, civ_E x ≤ civ_E (x + Z.of_nat n)) as H.
  { induction n as [|n IH]; [rewrite Z.add_0_r; lia|].
    rewrite Nat2Z.inj_succ, <- Z.add_1_r, Z.add_assoc.
    pose proof (civ_E_step (x + Z.of_nat n)). lia. }
  specialize (H (Z.to_nat (y - x))). rewrite Z2Nat.id in H by lia.
  replace (x + (y - x)) with y in H by lia. done.
Qed.

Lemma leap_periodic a k : leap (a + 400 * k) = leap a.
Proof.
  unfold leap.
  replace (a + 400 * k) with (a + (100 * k) * 4) by ring. rewrite Z.mod_add by lia.
  replace (a + (100 * k) * 4) with (a + (4 * k) * 100) by ring. rewrite Z.mod_add by lia.
  replace (a + (4 * k) * 100) with (a + k * 400) by ring. rewrite Z.mod_add by lia.
  done.
Qed.

Lemma days_in_month_periodic a k m : days_in_month (a + 400 * k) m = days_in_month a m.
Proof. unfold days_in_month. by rewrite leap_periodic. Qed.

Lemma days_in_month_max y m : days_in_month y m ≤ days_in_month 2000 m.
Proof.
  unfold days_in_month. change (leap 2000) with true.
  destruct (leap y); repeat case_match; lia.
Qed.

Lemma days_in_month_pos y m : 28 ≤ days_in_month y m.
Proof. unfold days_in_month. destruct (leap y); repeat case_match; lia. Qed.

Lemma days_from_civil_eq y m d :
  days_from_civil y m d =
  let Y := if m <=? 2 then y - 1 else y in
  (Y / 400) * 146097 + year_start (Y mod 400) + ((153 * ((m + 9) mod 12) + 2) / 5 + d - 1) - 719468.
Proof.
  unfold days_from_civil, year_start. cbv zeta.
  generalize (if m <=? 2 then y - 1 else y) as Y. intros Y.
  rewrite (Zmod_eq_full Y 400) by lia. ring.
Qed.

Lemma year_start_nonneg yoe : 0 ≤ yoe → 0 ≤ year_start yoe.
Proof. intros H. unfold year_start. div_facts. lia. Qed.

Lemma civil_from_days_spec era yoe mp d :
  0 ≤ yoe < 400 → 0 ≤ mp < 12 → 1 ≤ d ≤ days_in_month 2000 (month_of_mp mp) →
  (153 * mp + 2) / 5 + d - 1 ≤ 336 + days_in_month (yoe + 1) 2 →
  civil_from_days (era * 146097 + year_start yoe + ((153 * mp + 2) / 5 + d - 1) - 719468) =
  ((if month_of_mp mp <=? 2 then era * 400 + yoe + 1 else era * 400 + yoe), month_of_mp mp).
Proof.
  intros Hy Hmp Hd Hdoy.
  pose proof (yoe_ok_all yoe Hy) as Hyo. unfold yoe_ok in Hyo. cbv zeta in Hyo.
  apply andb_prop in Hyo as [Hyo Hlt]. apply andb_prop in Hyo as [Hs Hl].
  apply Z.eqb_eq in Hs, Hl. apply Z.ltb_lt in Hlt.
  pose proof (mp_ok_all mp Hmp) as Hm. unfold mp_ok in Hm. rewrite forallb_forall in Hm.
  specialize (Hm d). apply Z.eqb_eq in Hm.
  2:{ apply zrange_In; [pose proof (days_in_month_pos 2000 (month_of_mp mp)); lia|lia]. }
  assert (0 ≤ (153 * mp + 2) / 5) by (apply Z.div_pos; lia).
  pose proof (year_start_nonneg yoe ltac:(lia)) as Hys.
  assert (0 ≤ (153 * mp + 2) / 5 + d - 1) by lia.
  set (doy := (153 * mp + 2) / 5 + d - 1) in *.
  unfold civil_from_days. cbv zeta.
  replace (era * 146097 + year_start yoe + doy - 719468 + 719468)
    with (year_start yoe + doy + era * 146097) by ring.
  rewrite Z.div_add by lia. rewrite (Z.div_small (year_start yoe + doy) 146097) by lia.
  rewrite Z.add_0_l.
  replace (year_start yoe + doy + era * 146097 - era * 146097) with (year_start yoe + doy) by ring.
  change ((year_start yoe + doy) - (year_start yoe + doy) / 1460 + (year_start yoe + doy) / 36524
          - (year_start yoe + doy) / 146096) with (civ_E (year_start yoe + doy)).
  assert (civ_E (year_start yoe + doy) / 365 = yoe) as ->.
  { apply Z.le_antisymm.
    - rewrite <- Hl at 2. apply Z.div_le_mono; [lia|]. apply civ_E_mono. lia.
    - rewrite <- Hs at 1. apply Z.div_le_mono; [lia|]. apply civ_E_mono. lia. }
  replace (year_start yoe + doy - (365 * yoe + yoe / 4 - yoe / 100)) with doy
    by (unfold year_start; ring).
  rewrite Hm. unfold month_of_mp.
  destruct (mp <? 10); destruct (_ <=? 2); f_equal; lia.
Qed.

Lemma month_of_mp_of_month m : 1 ≤ m ≤ 12 → month_of_mp ((m + 9) mod 12) = m.
Proof.
  intros H. assert (m = 1 ∨ m = 2 ∨ m = 3 ∨ m = 4 ∨ m = 5 ∨ m = 6 ∨ m = 7 ∨ m = 8 ∨
                    m = 9 ∨ m = 10 ∨ m = 11 ∨ m = 12) as Hc by lia.
  repeat destruct Hc as [->|Hc]; try reflexivity. subst. reflexivity.
Qed.

Lemma doy_bound_table m :
  1 ≤ m ≤ 12 → m ≠ 2 →
  (153 * ((m + 9) mod 12) + 2) / 5 + days_in_month 2000 m - 1 ≤ 336.
Proof.
  intros H H2. assert (m = 1 ∨ m = 2 ∨ m = 3 ∨ m = 4 ∨ m = 5 ∨ m = 6 ∨ m = 7 ∨ m = 8 ∨
                    m = 9 ∨ m = 10 ∨ m = 11 ∨ m = 12) as Hc by lia.
  repeat destruct Hc as [->|Hc]; try (vm_compute; discriminate); try lia.
  subst. vm_compute. discriminate.
Qed.

(** The calendar conversions agree: the day number of a valid date maps back
    to its year and month. *)
Lemma civil_roundtrip y m d :
  1 ≤ m ≤ 12 → 1 ≤ d ≤ days_in_month y m →
  civil_from_days (days_from_civil y m d) = (y, m).
Proof.
  intros Hm Hd. rewrite days_from_civil_eq. cbv zeta.
  set (Y := if m <=? 2 then y - 1 else y).
  pose proof (Z.mod_pos_bound Y 400 ltac:(lia)) as Hr.
  pose proof (Z.div_mod Y 400 ltac:(lia)) as HY.
  pose proof (Z.mod_pos_bound (m + 9) 12 ltac:(lia)) as Hmp.
  pose proof (month_of_mp_of_month m Hm) as Hmm.
  pose proof (days_in_month_max y m) as Hmax.
  rewrite civil_from_days_spec; [| lia | lia | rewrite Hmm; lia | ].
  - rewrite Hmm. f_equal. unfold Y in *. destruct (m <=? 2); lia.
  - destruct (decide (m = 2)) as [->|Hne].
    + assert (Hy : y = Y mod 400 + 1 + 400 * (Y / 400)) by (unfold Y in *; simpl in *; lia).
      rewrite Hy, days_in_month_periodic in Hd.
      change ((153 * ((2 + 9) mod 12) + 2) / 5) with 337. lia.
    + pose proof (doy_bound_table m Hm Hne).
      pose proof (days_in_month_pos (Y mod 400 + 1) 2). lia.
Qed.

(** A day of a month is the first day of that month plus the days before it. *)
Lemma days_from_civil_day y m d : days_from_civil y m d = days_from_civil y m 1 + (d - 1).
Proof. unfold days_from_civil. cbv zeta. lia. Qed.

(** The first day of the month after [y-m] comes [days_in_month y m] days
    after the first day of [y-m]. *)
Lemma next_month y m :
  1 ≤ m ≤ 12 →
  days_from_civil y m 1 + days_in_month y m =
  (if m =? 12 then days_from_civil (y + 1) 1 1 else days_from_civil y (m + 1) 1).
Proof.
  intros Hm.
  assert (Hper : ∀ a k mm, days_from_civil (a + 400 * k) mm 1 = days_from_civil a mm 1 + 146097 * k).
  { intros a k mm. rewrite !days_from_civil_eq. cbv zeta.
    destruct (mm <=? 2).
    - replace (a + 400 * k - 1) with ((a - 1) + k * 400) by ring.
      rewrite Z.div_add, Z.mod_add by lia. ring.
    - replace (a + 400 * k) with (a + k * 400) by ring.
      rewrite Z.div_add, Z.mod_add by lia. ring. }
  pose proof (Z.mod_pos_bound y 400 ltac:(lia)) as Hr.
  pose proof (Z.div_mod y 400 ltac:(lia)) as HY.
  pose proof (next_month_ok_all (y mod 400) m Hr Hm) as H. unfold next_month_ok in H.
  apply Z.eqb_eq in H.
  assert (Hy : y = y mod 400 + 400 * (y / 400)) by lia.
  set (r := y mod 400) in *. set (q := y / 400) in *. clearbody r q. clear HY. subst y.
  rewrite days_in_month_periodic.
  destruct (m =? 12).
  - replace (r + 400 * q + 1) with ((r + 1) + 400 * q) by ring. rewrite !Hper. lia.
  - rewrite !Hper. lia.
Qed.

Lemma days_from_civil_prev y m :
  1 ≤ m ≤ 12 →
  days_from_civil y m 1 - 1 =
  (if m =? 1 then days_from_civil (y - 1) 12 (days_in_month (y - 1) 12)
   else days_from_civil y (m - 1) (days_in_month y (m - 1))).
Proof.
  intros Hm. destruct (Z.eqb_spec m 1) as [->|Hne].
  - pose proof (next_month (y - 1) 12 ltac:(lia)) as H. rewrite Z.eqb_refl in H.
    rewrite (days_from_civil_day (y - 1) 12). replace (y - 1 + 1) with y in H by ring. lia.
  - pose proof (next_month y (m - 1) ltac:(lia)) as H.
    destruct (Z.eqb_spec (m - 1) 12) as [|_]; [lia|].
    replace (m - 1 + 1) with m in H by ring.
    rewrite (days_from_civil_day y (m - 1)). lia.
Qed.

Lemma local_day_east (d off : Z) :
  0 ≤ off < msPerDay → (d * msPerDay + off) / msPerDay = d.
Proof.
  unfold msPerDay. intros Hoff. symmetry.
  apply (Z.div_unique_pos _ _ _ off); lia.
Qed.

(** On a machine whose clock is ahead of UTC by less than a day (or on
    UTC), [monthKey] of a date-only string denoting the valid date [y-m-d]
    is [y] and [m] padded to two digits. *)
Theorem monthKey_east_month (tz : Z → Z) (s : string) (y m d : Z) :
  (∀ t, 0 ≤ tz t < msPerDay) →
  1 ≤ m ≤ 12 → 1 ≤ d ≤ days_in_month y m →
  parse_iso_date s = Some (days_from_civil y m d) →
  monthKey tz s = month_key_of y m.
Proof.
  intros Htz Hm Hd Hs. unfold monthKey. rewrite Hs. cbv beta zeta.
  rewrite local_day_east by apply Htz.
  rewrite civil_roundtrip by assumption. reflexivity.
Qed.

Lemma monthKey_east_month_witness :
  monthKey (fun _ => 3600000) "2024-03-15" = month_key_of 2024 3.
Proof.
  apply (monthKey_east_month (fun _ => 3600000) "2024-03-15" 2024 3 15).
  - intros _. unfold msPerDay. lia.
  - lia.
  - vm_compute. split; discriminate.
  - vm_compute. reflexivity.
Defined.

(** On a machine whose clock is behind UTC by less than a day, [monthKey]
    of a date-only string denoting the valid date [y-m-d] is [y-m] when
    [d] is not the first of the month, and the month before (December of
    [y - 1] for January) when it is. *)
Theorem monthKey_west_month (tz : Z → Z) (s : string) (y m d : Z) :
  (∀ t, - msPerDay < tz t < 0) →
  1 ≤ m ≤ 12 → 1 ≤ d ≤ days_in_month y m →
  parse_iso_date s = Some (days_from_civil y m d) →
  monthKey tz s =
    (if d =? 1 then (if m =? 1 then month_key_of (y - 1) 12 else month_key_of y (m - 1))
     else month_key_of y m).
Proof.
  intros Htz Hm Hd Hs. unfold monthKey. rewrite Hs. cbv beta zeta.
  rewrite local_day_west by apply Htz.
  destruct (Z.eqb_spec d 1) as [->|Hd1].
  - rewrite days_from_civil_prev by exact Hm.
    pose proof (days_in_month_pos (y - 1) 12). pose proof (days_in_month_pos y (m - 1)).
    destruct (Z.eqb_spec m 1).
    + rewrite civil_roundtrip by lia. reflexivity.
    + rewrite civil_roundtrip by lia. reflexivity.
  - replace (days_from_civil y m d - 1) with (days_from_civil y m (d - 1))
      by (rewrite (days_from_civil_day y m d), (days_from_civil_day y m (d - 1)); ring).
    rewrite civil_roundtrip by lia. reflexivity.
Qed.

Lemma monthKey_west_month_witness :
  monthKey (fun _ => -18000000) "2024-01-01" = month_key_of 2023 12.
Proof.
  apply (monthKey_west_month (fun _ => -18000000) "2024-01-01" 2024 1 1).
  - intros _. unfold msPerDay. lia.
  - lia.
  - vm_compute. split; discriminate.
  - vm_compute. reflexivity.
Defined.

(* ------------------------------------------------------------------ *)
(** ** The by-month aggregation *)

Lemma str_ltb_irrefl a : str_ltb a a = false.
Proof. induction a as [|x a IH]; simpl; [done|]. by rewrite Nat.ltb_irrefl. Qed.

Lemma str_ltb_trans a b c :
  str_ltb a b = true → str_ltb b c = true → str_ltb a c = true.
Proof.
  revert b c. induction a as [|x a IH]; intros [|y b] [|z c]; simpl; try done.
  destruct (Nat.ltb_spec (nat_of_ascii x) (nat_of_ascii y)),
           (Nat.ltb_spec (nat_of_ascii y) (nat_of_ascii x)),
           (Nat.ltb_spec (nat_of_ascii y) (nat_of_ascii z)),
           (Nat.ltb_spec (nat_of_ascii z) (nat_of_ascii y)),
           (Nat.ltb_spec (nat_of_ascii x) (nat_of_ascii z)),
           (Nat.ltb_spec (nat_of_ascii z) (nat_of_ascii x));
    try lia; try done. apply IH.
Qed.

Lemma str_ltb_total a b : a ≠ b → str_ltb a b = true ∨ str_ltb b a = true.
Proof.
  revert b. induction a as [|x a IH]; intros [|y b] Hne; simpl; try tauto.
  destruct (Nat.ltb_spec (nat_of_ascii x) (nat_of_ascii y)),
           (Nat.ltb_spec (nat_of_ascii y) (nat_of_ascii x)); try tauto; try lia.
  assert (x = y) as <-.
  { rewrite <- (ascii_nat_embedding x), <- (ascii_nat_embedding y). f_equal. lia. }
  apply IH. congruence.
Qed.

Lemma insert_sorted_perm k l : Permutation (insert_sorted k l) (k :: l).
Proof.
  induction l as [|x l IH]; simpl; [done|].
  destruct (str_ltb x k); [|done].
  rewrite IH. apply perm_swap.
Qed.

Lemma sort_strings_perm l : Permutation (sort_strings l) l.
Proof.
  induction l as [|x l IH]; simpl; [done|].
  unfold sort_strings in *. simpl. by rewrite insert_sorted_perm, IH.
Qed.

Lemma insert_sorted_sorted k l :
  StronglySorted str_lt l → k ∉ l → StronglySorted str_lt (insert_sorted k l).
Proof.
  induction l as [|x l IH]; intros Hs Hk; simpl.
  - repeat constructor.
  - apply StronglySorted_inv in Hs as [Hs Hx].
    assert (k ≠ x) by (intros ->; apply Hk; left).
    assert (k ∉ l) by (intros ?; apply Hk; by right).
    destruct (str_ltb x k) eqn:E.
    + constructor; [by apply IH|].
      apply Forall_forall. intros z Hz.
      apply list_elem_of_In, (Permutation_in _ (insert_sorted_perm k l)) in Hz as [->|Hz]; [done|].
      apply list_elem_of_In in Hz. by apply (proj1 (Forall_forall _ _) Hx).
    + constructor; [by constructor|].
      destruct (str_ltb_total k x) as [Hkx|Hxk]; [done| |congruence].
      constructor; [done|].
      apply Forall_forall. intros z Hz.
      apply (str_ltb_trans _ x); [done|]. by apply (proj1 (Forall_forall _ _) Hx).
Qed.

Lemma sort_strings_sorted l : NoDup l → StronglySorted str_lt (sort_strings l).
Proof.
  induction l as [|x l IH]; intros Hnd; [constructor|].
  apply NoDup_cons in Hnd as [Hx Hnd]. unfold sort_strings in *. simpl.
  apply insert_sorted_sorted; [by apply IH|].
  intros Hin. apply Hx. apply list_elem_of_In.
  apply (Permutation_in _ (sort_strings_perm l)). by apply list_elem_of_In.
Qed.

Lemma StronglySorted_app_inv {A} (R : A → A → Prop) l1 l2 :
  StronglySorted R (l1 ++ l2) →
  StronglySorted R l2 ∧ ∀ a b, In a l1 → In b l2 → R a b.
Proof.
  induction l1 as [|x l1 IH]; simpl; intros Hs; [done|].
  apply StronglySorted_inv in Hs as [Hs Hx]. destruct (IH Hs) as [H2 H12].
  split; [done|]. intros a b [<-|Ha] Hb; [|by apply H12].
  apply (proj1 (Forall_forall _ _) Hx). apply elem_of_app. right. by apply list_elem_of_In.
Qed.

Lemma assoc_get_cons p m k :
  assoc_get (p :: m) k = if String.eqb p.1 k then p.2 else assoc_get m k.
Proof. unfold assoc_get. simpl. by destruct (String.eqb p.1 k). Qed.

Lemma assoc_get_map m k d k' :
  assoc_get (map (fun p => if String.eqb p.1 k then (p.1, p.2 + d) else p) m) k' =
  assoc_get m k' + (if String.eqb k k' && existsb (fun p => String.eqb p.1 k) m then d else 0).
Proof.
  induction m as [|[x v] m IH]; simpl.
  - unfold assoc_get. simpl. rewrite andb_false_r. lia.
  - destruct (String.eqb_spec x k) as [->|Hxk].
    + rewrite assoc_get_cons, assoc_get_cons. simpl.
      destruct (String.eqb_spec k k') as [->|Hkk']; simpl; [lia|].
      rewrite IH. simpl. lia.
    + rewrite !assoc_get_cons. simpl.
      destruct (String.eqb_spec x k') as [->|Hxk']; simpl.
      * destruct (String.eqb_spec k k'); [congruence|]. simpl. lia.
      * rewrite IH. reflexivity.
Qed.

Lemma assoc_get_app_missing m k d k' :
  existsb (fun p => String.eqb p.1 k) m = false →
  assoc_get (m ++ [(k, d)]) k' = assoc_get m k' + (if String.eqb k k' then d else 0).
Proof.
  induction m as [|[x v] m IH]; intros E.
  - unfold assoc_get. cbn [find app fst snd]. destruct (String.eqb k k'); simpl; lia.
  - simpl in E. apply orb_false_iff in E as [Ex E]. rewrite <- app_comm_cons, !assoc_get_cons. simpl.
    destruct (String.eqb_spec x k'), (String.eqb_spec k k'), (String.eqb_spec x k);
      simpl in *; subst; try congruence; try lia; rewrite IH by done; lia.
Qed.

(** [assoc_add] adds [d] to the value of its key and to no other. *)
Lemma assoc_add_get m k d k' :
  assoc_get (assoc_add m k d) k' = assoc_get m k' + (if String.eqb k k' then d else 0).
Proof.
  unfold assoc_add. destruct (existsb _ m) eqn:E.
  - by rewrite assoc_get_map, E, andb_true_r.
  - by apply assoc_get_app_missing.
Qed.

Lemma assoc_keys_map m k d :
  map fst (map (fun p => if String.eqb p.1 k then (p.1, p.2 + d) else p) m) = map fst m.
Proof. induction m as [|p m IH]; simpl; [done|]. by destruct (String.eqb p.1 k); f_equal. Qed.

Lemma existsb_key (m : list (string * Z)) (k : string) : existsb (fun p => String.eqb p.1 k) m = true ↔ k ∈ map fst m.
Proof.
  induction m as [|[x v] m IH]; simpl.
  - split; [done|]. intros H. by apply elem_of_nil in H.
  - rewrite orb_true_iff, elem_of_cons, IH. simpl.
    destruct (String.eqb_spec x k); split; intros [H|H]; subst; auto; congruence.
Qed.

Lemma assoc_add_keys m k d x :
  x ∈ map fst (assoc_add m k d) ↔ x ∈ map fst m ∨ x = k.
Proof.
  unfold assoc_add. destruct (existsb _ m) eqn:E.
  - rewrite assoc_keys_map. apply existsb_key in E. split; [tauto|]. intros [H| ->]; done.
  - rewrite map_app, elem_of_app. simpl. rewrite list_elem_of_singleton. done.
Qed.

Lemma assoc_add_nodup m k d : NoDup (map fst m) → NoDup (map fst (assoc_add m k d)).
Proof.
  unfold assoc_add. destruct (existsb _ m) eqn:E; intros Hnd.
  - by rewrite assoc_keys_map.
  - rewrite map_app. simpl. apply NoDup_app. split; [done|]. split.
    + intros x Hx Hk. apply list_elem_of_singleton in Hk as ->.
      apply existsb_key in Hx. congruence.
    + apply NoDup_singleton.
Qed.

Section FoldAssoc.
Variable P : Tx.t Z → bool.
Variable f : Tx.t Z → string.

Let step := fun m t => if P t then assoc_add m (f t) (Tx.amountCents t) else m.

Lemma fold_assoc_get txs m0 k :
  assoc_get (foldl step m0 txs) k =
  assoc_get m0 k + sum_Z (map Tx.amountCents (List.filter (fun t => P t && String.eqb (f t) k) txs)).
Proof.
  induction txs as [|t txs IH] in m0 |- *; cbn [foldl List.filter map].
  - unfold sum_Z. simpl. lia.
  - rewrite IH. unfold step. destruct (P t); cbn [andb].
    + rewrite assoc_add_get. destruct (String.eqb (f t) k); cbn [map]; unfold sum_Z; cbn [foldr]; lia.
    + reflexivity.
Qed.

Lemma fold_assoc_keys txs m0 x :
  x ∈ map fst (foldl step m0 txs) ↔
  x ∈ map fst m0 ∨ ∃ t, t ∈ txs ∧ P t = true ∧ f t = x.
Proof.
  induction txs as [|t txs IH] in m0 |- *; cbn [foldl].
  - split; [tauto|]. intros [H|(t & Ht & _)]; [done|]. by apply elem_of_nil in Ht.
  - rewrite IH. unfold step. destruct (P t) eqn:Pt.
    + rewrite assoc_add_keys. split.
      * intros [[H| ->]|(t' & Ht' & HP & Hf)]; [by left| |].
        -- right. exists t. rewrite elem_of_cons. auto.
        -- right. exists t'. rewrite elem_of_cons. auto.
      * intros [H|(t' & [->|Ht']%elem_of_cons & HP & Hf)]; auto.
        right. exists t'. auto.
    + split.
      * intros [H|(t' & Ht' & HP & Hf)]; [by left|]. right. exists t'. rewrite elem_of_cons. auto.
      * intros [H|(t' & [->|Ht']%elem_of_cons & HP & Hf)]; [by left|congruence|].
        right. exists t'. auto.
Qed.

Lemma fold_assoc_nodup txs m0 : NoDup (map fst m0) → NoDup (map fst (foldl step m0 txs)).
Proof.
  induction txs as [|t txs IH] in m0 |- *; cbn [foldl]; intros Hnd; [done|].
  apply IH. unfold step. destruct (P t); [by apply assoc_add_nodup|done].
Qed.

End FoldAssoc.

Lemma gastosPorMes_unfold tz txs :
  gastosPorMes tz txs =
  let m := foldl (fun m t => if String.eqb (Tx.type t) "GASTO"
                             then assoc_add m (monthKey tz (Tx.date t)) (Tx.amountCents t)
                             else m) [] txs in
  let keys := sort_strings (map fst m) in
  map (fun k => (k, assoc_get m k)) (skipn (length keys - 6) keys).
Proof. reflexivity. Qed.

Lemma gastosPorMes_keys tz txs :
  let m := foldl (fun m t => if String.eqb (Tx.type t) "GASTO"
                             then assoc_add m (monthKey tz (Tx.date t)) (Tx.amountCents t)
                             else m) [] txs in
  map fst (gastosPorMes tz txs) =
  skipn (length (sort_strings (map fst m)) - 6) (sort_strings (map fst m)).
Proof.
  cbv zeta. rewrite gastosPorMes_unfold. cbv zeta.
  rewrite map_map. simpl. apply map_id.
Qed.

(** [gastosPorMes] returns at most six months, in strictly ascending order
    of their keys. *)
Theorem gastosPorMes_sorted_six tz txs :
  (length (gastosPorMes tz txs) ≤ 6)%nat ∧ StronglySorted str_lt (map fst (gastosPorMes tz txs)).
Proof.
  pose proof (gastosPorMes_keys tz txs) as Hk. cbv zeta in Hk.
  set (M := foldl _ [] txs) in Hk.
  set (keys := sort_strings (map fst M)) in Hk.
  assert (Hs : StronglySorted str_lt keys).
  { apply sort_strings_sorted, fold_assoc_nodup. constructor. }
  split.
  - rewrite <- (length_map fst), Hk, length_skipn. lia.
  - rewrite Hk. rewrite <- (firstn_skipn (length keys - 6) keys) in Hs.
    by apply StronglySorted_app_inv in Hs as [Hs _].
Qed.

(** Each month [gastosPorMes] returns is the key of some Expense of the log,
    and its value is the sum of the amounts of the Expenses with that key. *)
Theorem gastosPorMes_values tz txs k v :
  (k, v) ∈ gastosPorMes tz txs →
  v = sum_Z (map Tx.amountCents
               (List.filter (fun t => String.eqb (Tx.type t) "GASTO" &&
                                      String.eqb (monthKey tz (Tx.date t)) k) txs)) ∧
  ∃ t, t ∈ txs ∧ Tx.type t = "GASTO" ∧ monthKey tz (Tx.date t) = k.
Proof.
  intros Hin.
  assert (Hkey : k ∈ map fst (gastosPorMes tz txs)).
  { apply list_elem_of_In, in_map_iff. exists (k, v). split; [done|]. by apply list_elem_of_In. }
  rewrite gastosPorMes_keys in Hkey. cbv zeta in Hkey.
  rewrite gastosPorMes_unfold in Hin. cbv zeta in Hin.
  set (M := foldl _ [] txs) in Hin, Hkey.
  set (keys := sort_strings (map fst M)) in Hin, Hkey.
  apply list_elem_of_In, in_map_iff in Hin as (k' & [= Hk' Hv] & _). subst k' v.
  split.
  - unfold M. rewrite fold_assoc_get. unfold assoc_get at 1. simpl. done.
  - assert (HM : k ∈ map fst M).
    { apply list_elem_of_In in Hkey.
      assert (In k keys) as Hk.
      { rewrite <- (firstn_skipn (length keys - 6) keys). apply in_or_app. by right. }
      apply list_elem_of_In. by apply (Permutation_in _ (sort_strings_perm (map fst M))). }
    unfold M in HM. apply fold_assoc_keys in HM as [H|(t & Ht & Hg & Hkt)]; [by apply elem_of_nil in H|].
    exists t. split; [done|]. split; [by apply String.eqb_eq|done].
Qed.

(** [gastosPorMes] drops a month of an Expense only when it returns six
    months already, all of them later (greater keys) than the dropped one. *)
Theorem gastosPorMes_latest tz txs t :
  t ∈ txs → Tx.type t = "GASTO" →
  monthKey tz (Tx.date t) ∉ map fst (gastosPorMes tz txs) →
  length (gastosPorMes tz txs) = 6%nat ∧
  ∀ k, k ∈ map fst (gastosPorMes tz txs) → str_lt (monthKey tz (Tx.date t)) k.
Proof.
  intros Ht Hg Hout.
  pose proof (gastosPorMes_keys tz txs) as Hk. cbv zeta in Hk.
  set (M := foldl _ [] txs) in Hk.
  set (keys := sort_strings (map fst M)) in Hk.
  assert (HM : monthKey tz (Tx.date t) ∈ map fst M).
  { unfold M. apply fold_assoc_keys. right. exists t. split; [done|].
    split; [by apply String.eqb_eq|done]. }
  assert (HK : In (monthKey tz (Tx.date t)) keys).
  { apply (Permutation_in _ (Permutation_sym (sort_strings_perm (map fst M)))).
    by apply list_elem_of_In. }
  assert (Hs : StronglySorted str_lt keys).
  { apply sort_strings_sorted, fold_assoc_nodup. constructor. }
  rewrite Hk in Hout |- *.
  rewrite <- (firstn_skipn (length keys - 6) keys) in HK, Hs.
  apply StronglySorted_app_inv in Hs as [_ Hlt].
  apply in_app_or in HK as [HA|HB]; [|by apply list_elem_of_In in HB].
  split.
  - rewrite <- (length_map fst), Hk, length_skipn.
    assert (length (firstn (length keys - 6) keys) ≠ 0%nat) by (destruct (firstn _ _); [done|simpl; lia]).
    rewrite length_firstn in *. lia.
  - intros k Hkin. apply Hlt; [done|]. by apply list_elem_of_In.
Qed.

Lemma gastosPorMes_values_witness :
  ("2024-03", 330) ∈ gastosPorMes ExMonth.bogota ExMonth.eight_months ∧
  330 = sum_Z (map Tx.amountCents
                 (List.filter (fun t => String.eqb (Tx.type t) "GASTO" &&
                                        String.eqb (monthKey ExMonth.bogota (Tx.date t)) "2024-03")
                    ExMonth.eight_months)) ∧
  ∃ t, t ∈ ExMonth.eight_months ∧ Tx.type t = "GASTO" ∧ monthKey ExMonth.bogota (Tx.date t) = "2024-03".
Proof.
  assert (H : ("2024-03", 330) ∈ gastosPorMes ExMonth.bogota ExMonth.eight_months).
  { apply (bool_decide_unpack _). vm_compute. reflexivity. }
  split; [exact H|]. exact (gastosPorMes_values _ _ _ _ H).
Defined.

Lemma gastosPorMes_latest_witness :
  let t := ExMonth.exp "2023-12-05" 100 in
  t ∈ ExMonth.eight_months ∧ Tx.type t = "GASTO" ∧
  (monthKey ExMonth.bogota (Tx.date t) ∉ map fst (gastosPorMes ExMonth.bogota ExMonth.eight_months)) ∧
  length (gastosPorMes ExMonth.bogota ExMonth.eight_months) = 6%nat ∧
  ∀ k, k ∈ map fst (gastosPorMes ExMonth.bogota ExMonth.eight_months) →
       str_lt (monthKey ExMonth.bogota (Tx.date t)) k.
Proof.
  cbv zeta.
  assert (H1 : ExMonth.exp "2023-12-05" 100 ∈ ExMonth.eight_months).
  { unfold ExMonth.eight_months. do 1 apply elem_of_cons; right. apply elem_of_cons; left. reflexivity. }
  assert (H2 : Tx.type (ExMonth.exp "2023-12-05" 100) = "GASTO") by reflexivity.
  assert (H3 : monthKey ExMonth.bogota (Tx.date (ExMonth.exp "2023-12-05" 100))
               ∉ map fst (gastosPorMes ExMonth.bogota ExMonth.eight_months)).
  { apply (bool_decide_unpack _). vm_compute. reflexivity. }
  split; [exact H1|]. split; [exact H2|]. split; [exact H3|].
  exact (gastosPorMes_latest _ _ _ H1 H2 H3).
Defined.

(* ------------------------------------------------------------------ *)
(** ** The liquidity total *)

Lemma liquidez_sum r :
  liquidezCents r = sum_Z (map (balance_of r) Part000.liquidezIds).
Proof.
  unfold liquidezCents, liquidez_of.
  assert (∀ ids z, foldl (fun total id =>
           match List.find (fun x => String.eqb (Account.id (account x)) id) (accounts r) with
           | Some s => total + balanceCents s
           | None => total
           end) z ids = z + sum_Z (map (balance_of r) ids)) as ->; [|lia].
  induction ids as [|k ids IH]; intros z; cbn [foldl map]; [unfold sum_Z; simpl; lia|].
  rewrite IH. change (sum_Z (?x :: ?l)) with (x + sum_Z l).
  destruct (List.find _ (accounts r)) eqn:E; unfold balance_of; rewrite E; simpl; lia.
Qed.

Lemma balance_of_cons accs t txs k :
  balance_of (App.computeBalances accs (t :: txs)) k =
  balance_of (App.computeBalances accs txs) k + row_delta accs (Effects.effects accs t) k.
Proof.
  rewrite !balance_of_final, final_state_cons. unfold row_delta.
  destruct (find_account accs (Some k)) as [b|]; simpl; [|lia].
  rewrite entry_apply_effects. destruct (Account.type b); simpl; lia.
Qed.

Lemma liquidez_cons accs t txs :
  liquidezCents (App.computeBalances accs (t :: txs)) =
  liquidezCents (App.computeBalances accs txs) +
  sum_Z (map (row_delta accs (Effects.effects accs t)) Part000.liquidezIds).
Proof.
  rewrite !liquidez_sum, <- sum_Z_map_add. f_equal. apply map_ext. intros k.
  apply balance_of_cons.
Qed.

Lemma cash_only_no_debt accs es k : cash_only accs es → debt_delta es k = 0.
Proof.
  induction 1 as [|e es (a & x & _ & _ & ->) _ IH]; simpl; [done|]. done.
Qed.

Lemma cash_only_other accs es k :
  NoDup (map Account.id accs) → cash_only accs es →
  (∀ a, In a accs → Account.type a = CASH → Account.id a ≠ k) → ef_delta es k = 0.
Proof.
  intros Hnd. induction 1 as [|e es (a & x & Ha & Hc & ->) _ IH]; intros Hk; simpl; [done|].
  rewrite IH by done. destruct (String.eqb_spec (Account.id a) k) as [He|]; [|lia].
  exfalso. by apply (Hk a).
Qed.

Lemma row_delta_cash accs es k :
  NoDup (map Account.id accs) → cash_only accs es → row_delta accs es k = ef_delta es k.
Proof.
  intros Hnd Hes. unfold row_delta.
  destruct (find_account accs (Some k)) as [b|] eqn:Hf.
  - apply find_account_Some in Hf as [Hb [= ->]].
    destruct (Account.type b) eqn:Hty; [done|].
    rewrite (cash_only_no_debt _ _ _ Hes), (cash_only_other accs); [done|done|done|].
    intros a Ha Hca He. pose proof (same_id_same_account _ _ _ Hnd Ha Hb He). congruence.
  - symmetry. apply (cash_only_other accs); [done|done|].
    intros a Ha _ <-. rewrite find_account_unique in Hf by done. discriminate.
Qed.

Lemma liquid_indicator x c :
  x ∈ Part000.liquidezIds →
  sum_Z (map (fun k => if String.eqb x k then c else 0) Part000.liquidezIds) = c.
Proof.
  unfold Part000.liquidezIds.
  intros H. repeat (apply elem_of_cons in H as [->|H]; [unfold sum_Z; simpl; lia|]).
  by apply elem_of_nil in H.
Qed.

Lemma liquidez_cash_effects accs t txs :
  NoDup (map Account.id accs) → cash_only accs (Effects.effects accs t) →
  liquidezCents (App.computeBalances accs (t :: txs)) =
  liquidezCents (App.computeBalances accs txs) +
  sum_Z (map (ef_delta (Effects.effects accs t)) Part000.liquidezIds).
Proof.
  intros Hnd Hc. rewrite liquidez_cons. f_equal. f_equal. apply map_ext. intros k.
  by apply row_delta_cash.
Qed.

Lemma liquid_nonempty k : k ∈ Part000.liquidezIds → k ≠ "".
Proof.
  unfold Part000.liquidezIds. intros H.
  repeat (apply elem_of_cons in H as [->|H]; [done|]). by apply elem_of_nil in H.
Qed.

Lemma sum_ef_delta_nil (ids : list string) : sum_Z (map (ef_delta []) ids) = 0.
Proof. apply sum_zero. done. Qed.

Lemma cash_only_nil accs : cash_only accs [].
Proof. constructor. Qed.

Lemma cash_only_one accs a x : In a accs → Account.type a = CASH → cash_only accs [OnEf (Account.id a) x].
Proof. intros. repeat constructor. eauto 6. Qed.

(** A transfer between two CASH accounts of the registry (unique ids) whose
    ids are both liquid leaves [liquidezCents] unchanged. *)
Theorem liquidez_internal_transfer (accs : list Account.t) (txs : list (Tx.t Z))
    (t : Tx.t Z) (a b : Account.t) :
  NoDup (map Account.id accs) → In a accs → In b accs →
  Account.type a = CASH → Account.type b = CASH → Account.id a ≠ Account.id b →
  Account.id a ∈ Part000.liquidezIds → Account.id b ∈ Part000.liquidezIds →
  Tx.type t = "TRANSFERENCIA" →
  Tx.accountFromId t = Some (Account.id a) → Tx.accountToId t = Some (Account.id b) →
  liquidezCents (App.computeBalances accs (t :: txs)) =
  liquidezCents (App.computeBalances accs txs).
Proof.
  intros Hnd Ha Hb Hta Htb Hne La Lb Hty Hfrom Hto.
  assert (Effects.effects accs t =
          if bool_decide (Tx.amountCents t = 0) then []
          else [OnEf (Account.id a) (- Tx.amountCents t); OnEf (Account.id b) (Tx.amountCents t)])
    as He.
  { unfold Effects.effects. destruct (bool_decide _); [done|].
    rewrite Hty. cbn -[find_account]. rewrite Hfrom, Hto, !find_account_unique by done.
    rewrite (proj2 (String.eqb_neq _ _) Hne), Hta, Htb. done. }
  assert (cash_only accs (Effects.effects accs t)).
  { rewrite He. destruct (bool_decide _); [apply cash_only_nil|]. repeat constructor; eauto 6. }
  rewrite liquidez_cash_effects by done.
  rewrite He. destruct (bool_decide _); [rewrite sum_ef_delta_nil; lia|].
  simpl ef_delta.
  erewrite map_ext; [|intros k; rewrite Z.add_0_r; reflexivity].
  rewrite sum_Z_map_add, !liquid_indicator by done. lia.
Qed.

(** For a liquid CASH account of the registry (unique ids), an Income into
    it raises [liquidezCents] by the amount and an Expense paid from it
    lowers [liquidezCents] by the amount. *)
Theorem liquidez_income_expense (accs : list Account.t) (txs : list (Tx.t Z))
    (t : Tx.t Z) (a : Account.t) :
  NoDup (map Account.id accs) → In a accs → Account.type a = CASH →
  Account.id a ∈ Part000.liquidezIds →
  (Tx.type t = "INGRESO" → Tx.accountToId t = Some (Account.id a) →
   liquidezCents (App.computeBalances accs (t :: txs)) =
   liquidezCents (App.computeBalances accs txs) + Tx.amountCents t) ∧
  (Tx.type t = "GASTO" → Tx.accountFromId t = Some (Account.id a) →
   liquidezCents (App.computeBalances accs (t :: txs)) =
   liquidezCents (App.computeBalances accs txs) - Tx.amountCents t).
Proof.
  intros Hnd Ha Hta La. split; intros Hty Hacc.
  - assert (Effects.effects accs t =
            if bool_decide (Tx.amountCents t = 0) then [] else [OnEf (Account.id a) (Tx.amountCents t)])
      as He.
    { unfold Effects.effects. destruct (bool_decide _); [done|].
      rewrite Hty. cbn -[has_id_of_type truthy].
      rewrite Hacc, truthy_some by (apply String.eqb_neq, liquid_nonempty, La).
      assert (has_id_of_type CASH accs (Account.id a) = true) as -> by (apply has_id_of_type_spec; eauto).
      done. }
    assert (cash_only accs (Effects.effects accs t)).
    { rewrite He. destruct (bool_decide _); [apply cash_only_nil|]. by apply cash_only_one. }
    rewrite liquidez_cash_effects by done.
    rewrite He. case_bool_decide as Hz; [rewrite sum_ef_delta_nil; lia|].
    simpl ef_delta.
    erewrite map_ext; [|intros k; rewrite Z.add_0_r; reflexivity].
    rewrite liquid_indicator by done. lia.
  - assert (Effects.effects accs t =
            if bool_decide (Tx.amountCents t = 0) then [] else [OnEf (Account.id a) (- Tx.amountCents t)])
      as He.
    { unfold Effects.effects. destruct (bool_decide _); [done|].
      rewrite Hty. cbn -[find_account]. rewrite Hacc, find_account_unique, Hta by done. done. }
    assert (cash_only accs (Effects.effects accs t)).
    { rewrite He. destruct (bool_decide _); [apply cash_only_nil|]. by apply cash_only_one. }
    rewrite liquidez_cash_effects by done.
    rewrite He. case_bool_decide as Hz; [rewrite sum_ef_delta_nil; lia|].
    simpl ef_delta.
    erewrite map_ext; [|intros k; rewrite Z.add_0_r; reflexivity].
    rewrite liquid_indicator by done. lia.
Qed.

Lemma liquidez_internal_transfer_witness :
  liquidezCents (App.computeBalances defaultAccounts
                   [Ex.mkTx "TRANSFERENCIA" 5000 (Some "daviplata") (Some "nequi")]) =
  liquidezCents (App.computeBalances defaultAccounts []).
Proof.
  apply (liquidez_internal_transfer defaultAccounts []
           (Ex.mkTx "TRANSFERENCIA" 5000 (Some "daviplata") (Some "nequi"))
           (Account.mk "daviplata" "Daviplata" CASH (Some 0) None None)
           (Account.mk "nequi" "Nequi" CASH (Some 0) None None));
    [apply (bool_decide_unpack _); vm_compute; reflexivity|simpl; tauto|simpl; tauto
    |reflexivity|reflexivity|discriminate
    |apply (bool_decide_unpack _); vm_compute; reflexivity
    |apply (bool_decide_unpack _); vm_compute; reflexivity
    |reflexivity..].
Defined.

Lemma liquidez_income_expense_witness :
  let a := Account.mk "efectivo" "Efectivo" CASH (Some 0) None None in
  let inc := Ex.mkTx "INGRESO" 9000 None (Some "efectivo") in
  (Tx.type inc = "INGRESO" → Tx.accountToId inc = Some (Account.id a) →
   liquidezCents (App.computeBalances defaultAccounts [inc]) =
   liquidezCents (App.computeBalances defaultAccounts []) + Tx.amountCents inc) ∧
  (Tx.type inc = "GASTO" → Tx.accountFromId inc = Some (Account.id a) →
   liquidezCents (App.computeBalances defaultAccounts [inc]) =
   liquidezCents (App.computeBalances defaultAccounts []) - Tx.amountCents inc).
Proof.
  apply (liquidez_income_expense defaultAccounts [] (Ex.mkTx "INGRESO" 9000 None (Some "efectivo"))
           (Account.mk "efectivo" "Efectivo" CASH (Some 0) None None));
    [apply (bool_decide_unpack _); vm_compute; reflexivity|simpl; tauto|reflexivity
    |apply (bool_decide_unpack _); vm_compute; reflexivity].
Defined.

(* ------------------------------------------------------------------ *)
(** ** The report breakdowns *)

Lemma sum_Z_app l1 l2 : sum_Z (l1 ++ l2) = sum_Z l1 + sum_Z l2.
Proof. induction l1 as [|x l1 IH]; simpl; [done|]. unfold sum_Z in *. simpl. lia. Qed.

Lemma sum_Z_perm l l' : Permutation l l' → sum_Z l = sum_Z l'.
Proof. induction 1; unfold sum_Z in *; simpl; lia. Qed.

Lemma insert_idx_perm x l : Permutation (insert_idx x l) (x :: l).
Proof.
  induction l as [|y l IH]; simpl; [done|].
  destruct (y.1 <? x.1); [|done]. rewrite IH. apply perm_swap.
Qed.

Lemma sort_idx_perm l : Permutation (foldr insert_idx [] l) l.
Proof. induction l as [|x l IH]; simpl; [done|]. by rewrite insert_idx_perm, IH. Qed.

Lemma object_entries_perm m : Permutation (object_entries m) m.
Proof.
  unfold object_entries. rewrite sort_idx_perm.
  induction m as [|p m IH]; simpl; [done|].
  destruct (array_index p.1); simpl.
  - by apply perm_skip.
  - rewrite <- Permutation_middle. by apply perm_skip.
Qed.

Lemma assoc_map_absent (m : list (string * Z)) k d :
  k ∉ map fst m → map (fun p => if String.eqb p.1 k then (p.1, p.2 + d) else p) m = m.
Proof.
  induction m as [|[x v] m IH]; simpl; intros Hk; [done|].
  rewrite elem_of_cons in Hk.
  destruct (String.eqb_spec x k); [subst; tauto|]. f_equal. apply IH. tauto.
Qed.

Lemma sum_assoc_add m k d :
  NoDup (map fst m) → sum_Z (map snd (assoc_add m k d)) = sum_Z (map snd m) + d.
Proof.
  unfold assoc_add. destruct (existsb _ m) eqn:E; intros Hnd.
  - induction m as [|[x v] m IH]; simpl in *; [done|].
    apply NoDup_cons in Hnd as [Hx Hnd].
    destruct (String.eqb_spec x k) as [->|Hne]; simpl.
    + rewrite assoc_map_absent by done. unfold sum_Z. simpl. lia.
    + rewrite IH by done. unfold sum_Z. simpl. lia.
  - rewrite map_app, sum_Z_app. change (sum_Z (map snd [(k, d)])) with (d + 0). lia.
Qed.

Section GastosBy.
Variable key : Tx.t Z → string.

Let F := fun om t => if String.eqb (Tx.type t) "GASTO"
                     then om ≫= (fun m => obj_add m (key t) (Tx.amountCents t))
                     else om.

Lemma gastos_fold_none txs : foldl F None txs = None.
Proof. induction txs as [|t txs IH]; simpl; [done|]. unfold F at 2. by destruct (String.eqb _ _). Qed.

Lemma gastos_fold_some txs m0 m :
  NoDup (map fst m0) → "__proto__" ∉ map fst m0 →
  foldl F (Some m0) txs = Some m →
  NoDup (map fst m) ∧
  sum_Z (map snd m) = sum_Z (map snd m0) +
    sum_Z (map Tx.amountCents
             (List.filter (fun t => String.eqb (Tx.type t) "GASTO" &&
                                    negb (String.eqb (key t) "__proto__")) txs)).
Proof.
  induction txs as [|t txs IH] in m0 |- *; intros Hnd Hp Hf; simpl in Hf.
  - injection Hf as <-. split; [done|]. unfold sum_Z at 3. simpl. lia.
  - unfold F at 2 in Hf. cbn [List.filter].
    destruct (String.eqb (Tx.type t) "GASTO"); cbn [andb]; [|by apply IH].
    simpl in Hf. unfold obj_add in Hf.
    destruct (String.eqb_spec (key t) "__proto__") as [He|Hne]; cbn [negb].
    + by apply IH.
    + destruct (existsb _ proto_names); [by rewrite gastos_fold_none in Hf|].
      assert (Hp' : "__proto__" ∉ map fst (assoc_add m0 (key t) (Tx.amountCents t))).
      { rewrite assoc_add_keys. intros [H|H]; [exact (Hp H)|congruence]. }
      destruct (IH _ (assoc_add_nodup _ _ _ Hnd) Hp' Hf) as [H1 H2].
      split; [done|]. rewrite H2, sum_assoc_add by done.
      cbn [map]. unfold sum_Z at 4. cbn [foldr]. fold (sum_Z (map Tx.amountCents (List.filter (fun t => String.eqb (Tx.type t) "GASTO" &&
                                    negb (String.eqb (key t) "__proto__")) txs))). lia.
Qed.

Lemma gastos_by_some txs r :
  gastos_by key txs = Some r →
  NoDup (map fst r) ∧
  sum_Z (map snd r) =
    sum_Z (map Tx.amountCents
             (List.filter (fun t => String.eqb (Tx.type t) "GASTO" &&
                                    negb (String.eqb (key t) "__proto__")) txs)).
Proof.
  unfold gastos_by. destruct (foldl _ (Some []) txs) as [m|] eqn:Hf; [|done]. simpl.
  intros [= <-].
  destruct (gastos_fold_some txs [] m) as [H1 H2]; [constructor|by intros ?%elem_of_nil|done|].
  split.
  - assert (map fst (object_entries m) ≡ₚ map fst m) as ->; [|done].
    apply Permutation_map, object_entries_perm.
  - rewrite (sum_Z_perm _ (map snd m)) by (apply Permutation_map, object_entries_perm).
    rewrite H2. change (sum_Z (map snd [])) with 0. lia.
Qed.

End GastosBy.

Lemma filter_ext_bool {A} (f g : A → bool) (l : list A) :
  (∀ x, f x = g x) → List.filter f l = List.filter g l.
Proof. intros H. induction l as [|x l IH]; simpl; [done|]. by rewrite H, IH. Qed.

Lemma filter_filter_bool {A} (f g : A → bool) (l : list A) :
  List.filter f (List.filter g l) = List.filter (fun x => g x && f x) l.
Proof.
  induction l as [|x l IH]; simpl; [done|].
  destruct (g x); simpl; [destruct (f x); simpl; by rewrite IH|done].
Qed.

Lemma account_label_not_proto accounts t :
  (∀ a, In a accounts → Account.name a ≠ "__proto__") →
  account_label accounts t ≠ "__proto__".
Proof.
  intros H. unfold account_label, name_or.
  destruct (find_account accounts (Tx.accountFromId t)) as [a|] eqn:Hf; simpl; [|discriminate].
  destruct (String.eqb_spec (Account.name a) ""); [discriminate|].
  apply find_account_Some in Hf as [Hin _]. by apply H.
Qed.

Lemma category_label_not_proto categories t :
  (∀ c, In c categories → Category.name c ≠ "__proto__") →
  category_label categories t ≠ "__proto__".
Proof.
  intros H. unfold category_label, name_or.
  destruct (Tx.categoryId t) as [k|]; simpl; [|discriminate].
  destruct (List.find _ categories) as [c|] eqn:Hf; simpl; [|discriminate].
  destruct (String.eqb_spec (Category.name c) ""); [discriminate|].
  apply find_some in Hf as [Hin _]. by apply H.
Qed.

(** When no account is named ["__proto__"], the per-account breakdown has
    one slice per distinct account name (["—"] for an unknown account or an
    empty name), and the slices add up to the total of the Expenses of the
    filtered log. *)
Theorem gastosPorCuenta_total (accounts : list Account.t) (txsF : list (Tx.t Z)) r :
  (∀ a, In a accounts → Account.name a ≠ "__proto__") →
  gastosPorCuenta accounts txsF = Some r →
  NoDup (map fst r) ∧
  sum_Z (map snd r) =
    sum_Z (map Tx.amountCents (List.filter (fun t => String.eqb (Tx.type t) "GASTO") txsF)).
Proof.
  intros Hn Hr. apply gastos_by_some in Hr as [H1 H2]. split; [done|].
  rewrite H2. f_equal. f_equal. apply filter_ext_bool. intros t.
  rewrite (proj2 (String.eqb_neq _ _) (account_label_not_proto accounts t Hn)).
  apply andb_true_r.
Qed.

(** For a chosen month [k], when no category is named ["__proto__"], the
    per-category breakdown of [txsFiltered] adds up to the value
    [gastosPorMes] shows for [k]. *)
Theorem gastosPorCategoria_month_total (categories : list Category.t) tz txs k v r :
  k ≠ "__all__" →
  (∀ c, In c categories → Category.name c ≠ "__proto__") →
  (k, v) ∈ gastosPorMes tz txs →
  gastosPorCategoria categories (txsFiltered tz k txs) = Some r →
  sum_Z (map snd r) = v.
Proof.
  intros Hk Hn Hv Hr. apply gastos_by_some in Hr as [_ ->].
  unfold txsFiltered. rewrite (proj2 (String.eqb_neq _ _) Hk).
  rewrite filter_filter_bool.
  rewrite gastosPorMes_unfold in Hv. cbv zeta in Hv.
  apply list_elem_of_In, in_map_iff in Hv as (k' & [= Hk' Hv] & _). subst k' v.
  rewrite fold_assoc_get. unfold assoc_get at 1. simpl. rewrite Z.add_0_l.
  f_equal. f_equal. apply filter_ext_bool. intros t.
  rewrite (proj2 (String.eqb_neq _ _) (category_label_not_proto categories t Hn)).
  rewrite andb_true_r. apply andb_comm.
Qed.

Lemma defaultAccounts_names a : In a defaultAccounts → Account.name a ≠ "__proto__".
Proof. intros Ha. repeat (destruct Ha as [<-|Ha]; [discriminate|]). done. Qed.

Lemma defaultCategories_names c : In c defaultCategories → Category.name c ≠ "__proto__".
Proof. intros Hc. repeat (destruct Hc as [<-|Hc]; [discriminate|]). done. Qed.

Lemma gastosPorCuenta_total_witness :
  NoDup (map fst [("Nequi", 550); ("Tarjeta Visa", 300); ("—", 100)]) ∧
  sum_Z (map snd [("Nequi", 550); ("Tarjeta Visa", 300); ("—", 100)]) =
  sum_Z (map Tx.amountCents (List.filter (fun t => String.eqb (Tx.type t) "GASTO")
    [Ex.mkTx "GASTO" 500 (Some "nequi") None; Ex.mkTx "GASTO" 300 (Some "visa") None;
     Ex.mkTx "GASTO" 100 (Some "ghost") None; Ex.mkTx "GASTO" 50 (Some "nequi") None])).
Proof.
  apply (gastosPorCuenta_total defaultAccounts
    [Ex.mkTx "GASTO" 500 (Some "nequi") None; Ex.mkTx "GASTO" 300 (Some "visa") None;
     Ex.mkTx "GASTO" 100 (Some "ghost") None; Ex.mkTx "GASTO" 50 (Some "nequi") None]);
    [exact defaultAccounts_names | vm_compute; reflexivity].
Defined.

Lemma gastosPorCategoria_month_total_witness :
  sum_Z (map snd [("Sin categoría", 330)]) = 330.
Proof.
  apply (gastosPorCategoria_month_total defaultCategories ExMonth.bogota ExMonth.eight_months "2024-03");
    [discriminate | exact defaultCategories_names
    | apply (bool_decide_unpack _); vm_compute; reflexivity | vm_compute; reflexivity].
Defined.

(* ------------------------------------------------------------------ *)
(** ** The month list of the report *)

Lemma days_from_civil_bound y m d :
  -150000 ≤ y ≤ 150000 → 1 ≤ m ≤ 12 → 1 ≤ d ≤ 31 →
  -60000000 ≤ days_from_civil y m d ≤ 60000000.
Proof.
  intros Hy Hm Hd. unfold days_from_civil. cbv zeta.
  pose proof (Z.mod_pos_bound (m + 9) 12 ltac:(lia)).
  destruct (m <=? 2); div_facts; lia.
Qed.

Lemma landing_month_spec ym mn dt :
  1 ≤ mn ≤ 12 → 1 ≤ dt ≤ 31 →
  civil_from_days (days_from_civil ym mn dt) = landing_month ym mn dt.
Proof.
  intros Hm Hd. unfold landing_month.
  destruct (Z.leb_spec dt (days_in_month ym mn)).
  - apply civil_roundtrip; lia.
  - pose proof (next_month ym mn Hm) as Hn.
    pose proof (days_in_month_pos ym mn).
    rewrite days_from_civil_day.
    destruct (Z.eqb_spec mn 12) as [->|Hne].
    + replace (days_from_civil ym 12 1 + (dt - 1))
        with (days_from_civil (ym + 1) 1 (dt - days_in_month ym 12)).
      2:{ rewrite (days_from_civil_day (ym + 1)). simpl in Hn. lia. }
      apply civil_roundtrip; [lia|].
      pose proof (days_in_month_pos (ym + 1) 1).
      assert (days_in_month ym 12 = 31) as E by reflexivity.
      assert (days_in_month (ym + 1) 1 = 31) as E' by reflexivity. lia.
    + replace (days_from_civil ym mn 1 + (dt - 1))
        with (days_from_civil ym (mn + 1) (dt - days_in_month ym mn)).
      2:{ rewrite (days_from_civil_day ym (mn + 1)). lia. }
      apply civil_roundtrip; [lia|].
      assert (28 ≤ days_in_month ym mn) by (unfold days_in_month; repeat case_match; lia).
      assert (28 ≤ days_in_month ym (mn + 1)) by (unfold days_in_month; repeat case_match; lia).
      lia.
Qed.

Lemma days_in_month_le_31 y m : days_in_month y m ≤ 31.
Proof. unfold days_in_month. repeat case_match; lia. Qed.

(** On a machine with a fixed offset from UTC (less than a day), when every
    clock reading of the loop falls on the local date [y-m-dt], entry [i]
    of [last12] is the key of the month [i] months before [y-m] if that
    month has a day [dt], and else the key of the month after it: from a
    29th, 30th or 31st, a shorter month is replaced by the following one,
    so that month appears twice. *)
Theorem last12_months (off : Z) (clock : nat → Z) (y m dt : Z) :
  - msPerDay < off < msPerDay →
  -100000 ≤ y ≤ 100000 → 1 ≤ m ≤ 12 → 1 ≤ dt ≤ days_in_month y m →
  (∀ i, (i < 12)%nat → (clock i + off) / msPerDay = days_from_civil y m dt) →
  last12 (fun _ => off) (fun _ => off) clock =
  map (fun i => let mon := m - 1 - Z.of_nat i in
                let '(y', m') := landing_month (y + mon / 12) (mon mod 12 + 1) dt in
                month_key_of y' m') (seq 0 12).
Proof.
  intros Hoff Hy Hm Hdt Hclock. unfold last12. apply map_ext_in. intros i Hi.
  apply in_seq in Hi.
  cbv beta zeta. rewrite (Hclock i) by lia. rewrite civil_roundtrip by lia.
  cbv beta iota zeta.
  rewrite (days_from_civil_day y m dt).
  replace (days_from_civil y m 1 + (dt - 1) - days_from_civil y m 1 + 1) with dt by ring.
  pose proof (days_in_month_le_31 y m).
  set (mon := m - 1 - Z.of_nat i).
  assert (Hmon : -11 ≤ mon ≤ 11) by (unfold mon; lia).
  pose proof (Z.mod_pos_bound mon 12 ltac:(lia)) as Hmn.
  pose proof (Z.div_mod mon 12 ltac:(lia)) as Hdm.
  assert (Hym : -1 ≤ mon / 12 ≤ 0) by lia.
  pose proof (days_from_civil_bound (y + mon / 12) (mon mod 12 + 1) dt ltac:(lia) ltac:(lia) ltac:(lia)) as Hb.
  pose proof (Z.mod_pos_bound (clock i + off) msPerDay ltac:(unfold msPerDay; lia)) as Hr.
  set (D := days_from_civil (y + mon / 12) (mon mod 12 + 1) dt) in *.
  set (r := (clock i + off) mod msPerDay) in *.
  rewrite (proj2 (Z.ltb_ge _ _)) by (unfold msPerDay in *; lia).
  replace (D * msPerDay + r - off + off) with (D * msPerDay + r) by ring.
  rewrite local_day_east by lia.
  unfold D. rewrite landing_month_spec by lia. reflexivity.
Qed.

Lemma last12_months_witness :
  last12 (fun _ => -18000000) (fun _ => -18000000) (fun _ => 1711929600000) =
  map (fun i => let mon := 3 - 1 - Z.of_nat i in
                let '(y', m') := landing_month (2024 + mon / 12) (mon mod 12 + 1) 31 in
                month_key_of y' m') (seq 0 12).
Proof.
  apply (last12_months (-18000000) (fun _ => 1711929600000) 2024 3 31);
    [unfold msPerDay; lia | lia | lia | vm_compute; split; discriminate
    | intros i _; vm_compute; reflexivity].
Defined.

(** After the category form effect the field holds either nothing, the
    empty string left on a transfer, or the id of a category whose kind is
    the form's type, [GASTO] or [INGRESO]. *)
Lemma categoryEffect_kind (ftype : string) (cid : option string)
      (cats : list Category.t) (k : string) :
  categoryEffect ftype cid cats = Some k ->
  (ftype = "TRANSFERENCIA" /\ k = "") \/
  (exists c, In c cats /\ Category.id c = k /\ Category.kind c = ftype /\
             (ftype = "GASTO" \/ ftype = "INGRESO")).
Proof.
  assert (Hal : forall c, In c (List.filter (fun c =>
      (String.eqb ftype "GASTO" && String.eqb (Category.kind c) "GASTO") ||
      (String.eqb ftype "INGRESO" && String.eqb (Category.kind c) "INGRESO")) cats) ->
      In c cats /\ Category.kind c = ftype /\ (ftype = "GASTO" \/ ftype = "INGRESO")).
  { intros c Hc. apply filter_In in Hc as [Hin Hb]. split; [exact Hin|].
    apply orb_true_iff in Hb as [Hb|Hb]; apply andb_true_iff in Hb as [H1 H2];
      apply String.eqb_eq in H1, H2; subst; auto. }
  unfold categoryEffect. intros H.
  destruct (String.eqb ftype "TRANSFERENCIA") eqn:Ht.
  - apply String.eqb_eq in Ht. left. split; [exact Ht|].
    destruct cid as [k'|]; [|discriminate]. cbn in H.
    destruct (String.eqb k' "") eqn:He; [|discriminate].
    apply String.eqb_eq in He. congruence.
  - right. set (allowed := List.filter _ cats) in *.
    destruct (existsb _ allowed) eqn:Hex.
    + subst cid. apply existsb_exists in Hex as [c [Hc Hb]].
      apply String.eqb_eq in Hb. exists c. destruct (Hal c Hc) as (? & ? & ?).
      auto.
    + destruct allowed as [|c rest] eqn:Ha; [discriminate|].
      cbn in H. destruct (String.eqb (Category.id c) "") eqn:He; [discriminate|].
      injection H as <-. exists c.
      destruct (Hal c (or_introl eq_refl)) as (? & ? & ?). auto.
Qed.

Lemma categoryEffect_kind_witness :
  categoryEffect "INGRESO" (Some "mercado") defaultCategories = Some "trabajos" /\
  ((String.eqb "INGRESO" "TRANSFERENCIA" = true /\ String.eqb "trabajos" "" = true) \/
   (exists c, In c defaultCategories /\ Category.id c = "trabajos" /\
              Category.kind c = "INGRESO" /\ ("INGRESO" = "GASTO" \/ "INGRESO" = "INGRESO"))).
Proof.
  assert (H : categoryEffect "INGRESO" (Some "mercado") defaultCategories = Some "trabajos")
    by reflexivity.
  split; [exact H|].
  destruct (categoryEffect_kind _ _ _ _ H) as [[H1 _]|Hc]; [discriminate H1|right; exact Hc].
Defined.

(* ------------------------------------------------------------------ *)
(** ** The result object with the string-valued properties of [ef] *)

Lemma JsMap_set_nonempty {V} (m : JsMap.t V) k v : JsMap.set m k v ≠ [].
Proof. destruct m as [|[k' v'] m]; simpl; [done|]. by destruct (String.eqb k' k). Qed.

Lemma JsMap_set_keys {V} (m : JsMap.t V) k v k' :
  k' ∈ map fst (JsMap.set m k v) → k' = k ∨ k' ∈ map fst m.
Proof.
  induction m as [|[k0 v0] m IH]; simpl.
  - rewrite list_elem_of_singleton. auto.
  - destruct (String.eqb_spec k0 k); simpl; rewrite !elem_of_cons; [naive_solver|].
    intros [->|H]; [auto|]. destruct (IH H); auto.
Qed.

Lemma JsMap_get_keys {V} (m : JsMap.t V) k v : JsMap.get m k = Some v → k ∈ map fst m.
Proof.
  unfold JsMap.get. destruct (List.find _ m) as [p|] eqn:E; [|done]. intros _.
  apply find_some in E as [Hin He]. apply String.eqb_eq in He. subst.
  apply list_elem_of_In, in_map. done.
Qed.

Lemma ef_strings_step_keys s ps t :
  (∀ k, k ∈ map fst ps → k ≠ "__proto__" ∧ existsb (String.eqb k) proto_names = true) →
  ∀ k, k ∈ map fst (ef_strings_step s ps t) →
       k ≠ "__proto__" ∧ existsb (String.eqb k) proto_names = true.
Proof.
  intros Hps k. unfold ef_strings_step.
  destruct (bool_decide _); [apply Hps|].
  destruct (String.eqb (Tx.type t) "INGRESO"); [|apply Hps].
  destruct (truthy (Tx.accountToId t)) as [k'|]; [|apply Hps].
  destruct (ef s !! k'); [apply Hps|].
  destruct (JsMap.get ps k') as [v|] eqn:Eg.
  - intros Hk. destruct (JsMap_set_keys _ _ _ _ Hk) as [->|Hk']; [|by apply Hps].
    apply Hps. by eapply JsMap_get_keys.
  - destruct (String.eqb_spec k' "__proto__"); [apply Hps|].
    destruct (existsb (String.eqb k') proto_names) eqn:Ep; [|apply Hps].
    intros Hk. destruct (JsMap_set_keys _ _ _ _ Hk) as [->|Hk']; [done|by apply Hps].
Qed.

Lemma ef_strings_step_same s s' ps t :
  (∀ k, is_Some (ef s !! k) ↔ is_Some (ef s' !! k)) →
  ef_strings_step s ps t = ef_strings_step s' ps t.
Proof.
  intros H. unfold ef_strings_step.
  destruct (bool_decide _); [done|]. destruct (String.eqb _ _); [|done].
  destruct (truthy _) as [k|]; [|done].
  destruct (ef s !! k) eqn:E1, (ef s' !! k) eqn:E2; try done.
  - exfalso. destruct (proj1 (H k)) as [? ?]; [by eexists|congruence].
  - exfalso. destruct (proj2 (H k)) as [? ?]; [by eexists|congruence].
Qed.

Lemma ef_strings_step_inert accs s ps t :
  WF accs s →
  (∀ k, k ∈ map fst ps → k ≠ "__proto__" ∧ existsb (String.eqb k) proto_names = true) →
  proto_income accs t = false → ef_strings_step s ps t = ps.
Proof.
  intros Hwf Hps. unfold proto_income, ef_strings_step.
  destruct (bool_decide _); [done|]. cbn [negb andb].
  destruct (String.eqb _ _); [|done]. cbn [andb].
  destruct (truthy _) as [k|]; [|done].
  destruct (ef s !! k) eqn:E; [done|].
  assert (has_id_of_type CASH accs k = false) as ->.
  { apply not_true_iff_false. rewrite <- (proj1 (Hwf k)), E. by intros [? ?]. }
  cbn [negb andb]. intros Hp.
  destruct (JsMap.get ps k) as [v|] eqn:Eg.
  - exfalso. destruct (Hps k (JsMap_get_keys _ _ _ Eg)) as [Hn He].
    rewrite (proj2 (String.eqb_neq _ _) Hn), He in Hp. discriminate.
  - destruct (String.eqb k "__proto__"); [done|]. cbn [negb andb] in Hp. by rewrite Hp.
Qed.

Lemma ef_strings_step_grows accs s ps t :
  WF accs s → proto_income accs t = true → ef_strings_step s ps t ≠ [].
Proof.
  intros Hwf. unfold proto_income, ef_strings_step.
  destruct (bool_decide _); [done|]. cbn [negb andb].
  destruct (String.eqb _ _); [|done]. cbn [andb].
  destruct (truthy _) as [k|]; [|done].
  intros Hp. apply andb_true_iff in Hp as [Hp Hex]. apply andb_true_iff in Hp as [Hc Hn].
  apply negb_true_iff in Hc, Hn.
  destruct (ef s !! k) eqn:E.
  { exfalso. assert (is_Some (ef s !! k)) as Hs by (rewrite E; by eexists).
    apply (proj1 (Hwf k)) in Hs. congruence. }
  destruct (JsMap.get ps k); [apply JsMap_set_nonempty|].
  rewrite Hn, Hex. apply JsMap_set_nonempty.
Qed.

Lemma ef_strings_step_nonempty s ps t : ps ≠ [] → ef_strings_step s ps t ≠ [].
Proof.
  intros Hps. unfold ef_strings_step.
  destruct (bool_decide _); [done|]. destruct (String.eqb _ _); [|done].
  destruct (truthy _) as [k|]; [|done]. destruct (ef s !! k); [done|].
  destruct (JsMap.get ps k); [apply JsMap_set_nonempty|].
  destruct (String.eqb k "__proto__"); [done|].
  destruct (existsb _ _); [apply JsMap_set_nonempty|done].
Qed.

Lemma WF_step accs s t : WF accs s → WF accs (App.step accs s t).
Proof. intros Hwf. rewrite step_effects by done. apply WF_apply_all; [done|apply effects_good]. Qed.

Lemma AppJs_fold_nums accs st txs :
  AppJs.nums (foldl (AppJs.step accs) st txs) = foldl (App.step accs) (AppJs.nums st) txs.
Proof. revert st. induction txs as [|t txs IH]; intros st; simpl; [done|]. apply IH. Qed.

Lemma AppJs_fold_keys accs st txs :
  (∀ k, k ∈ map fst (AppJs.strs st) → k ≠ "__proto__" ∧ existsb (String.eqb k) proto_names = true) →
  ∀ k, k ∈ map fst (AppJs.strs (foldl (AppJs.step accs) st txs)) →
       k ≠ "__proto__" ∧ existsb (String.eqb k) proto_names = true.
Proof.
  revert st. induction txs as [|t txs IH]; intros st Hst; simpl; [done|].
  apply IH. simpl. by apply ef_strings_step_keys.
Qed.

Lemma AppJs_fold_strs_indep accs s s' ps txs :
  WF accs s → WF accs s' →
  AppJs.strs (foldl (AppJs.step accs) (AppJs.mkJsState s ps) txs) =
  AppJs.strs (foldl (AppJs.step accs) (AppJs.mkJsState s' ps) txs).
Proof.
  revert s s' ps. induction txs as [|t txs IH]; intros s s' ps Hs Hs'; simpl; [done|].
  change (AppJs.step accs (AppJs.mkJsState s ps) t)
    with (AppJs.mkJsState (App.step accs s t) (ef_strings_step s ps t)).
  change (AppJs.step accs (AppJs.mkJsState s' ps) t)
    with (AppJs.mkJsState (App.step accs s' t) (ef_strings_step s' ps t)).
  rewrite (ef_strings_step_same s s').
  - apply IH; by apply WF_step.
  - intros k. by rewrite (proj1 (Hs k)), (proj1 (Hs' k)).
Qed.

Lemma AppJs_fold_strs_inert accs s ps txs :
  WF accs s →
  (∀ k, k ∈ map fst ps → k ≠ "__proto__" ∧ existsb (String.eqb k) proto_names = true) →
  Forall (fun t => proto_income accs t = false) txs →
  AppJs.strs (foldl (AppJs.step accs) (AppJs.mkJsState s ps) txs) = ps.
Proof.
  revert s. induction txs as [|t txs IH]; intros s Hs Hps Hall; simpl; [done|].
  apply Forall_cons in Hall as [Ht Hall].
  change (AppJs.step accs (AppJs.mkJsState s ps) t)
    with (AppJs.mkJsState (App.step accs s t) (ef_strings_step s ps t)).
  rewrite (ef_strings_step_inert accs s ps t) by done.
  apply IH; [by apply WF_step|done|done].
Qed.

Lemma AppJs_fold_strs_nonempty accs s ps txs :
  WF accs s → ps ≠ [] ∨ Exists (fun t => proto_income accs t = true) txs →
  AppJs.strs (foldl (AppJs.step accs) (AppJs.mkJsState s ps) txs) ≠ [].
Proof.
  revert s ps. induction txs as [|t txs IH]; intros s ps Hs H; simpl.
  - destruct H as [H|H]; [done|by apply Exists_nil in H].
  - change (AppJs.step accs (AppJs.mkJsState s ps) t)
      with (AppJs.mkJsState (App.step accs s t) (ef_strings_step s ps t)).
    apply IH; [by apply WF_step|].
    destruct H as [H|H]; [left; by apply ef_strings_step_nonempty|].
    apply Exists_cons in H as [H|H]; [left; by apply (ef_strings_step_grows accs)|by right].
Qed.

Lemma AppJs_computeBalances accs txs :
  AppJs.computeBalances accs txs =
  AppJs.mkResult (accounts (App.computeBalances accs txs))
    (foldl js_add (JNum (efectivoTotal (App.computeBalances accs txs)))
       (map (fun p => JStr p.2)
          (AppJs.strs (foldl (AppJs.step accs) (AppJs.mkJsState (App.init_state accs) []) txs))))
    (creditoDisponibleTotal (App.computeBalances accs txs)).
Proof. unfold AppJs.computeBalances. cbn zeta. rewrite AppJs_fold_nums. reflexivity. Qed.

Lemma AppJs_strs_middle accs t txs1 txs2 :
  proto_income accs t = false →
  AppJs.strs (foldl (AppJs.step accs) (AppJs.mkJsState (App.init_state accs) []) (txs1 ++ t :: txs2)) =
  AppJs.strs (foldl (AppJs.step accs) (AppJs.mkJsState (App.init_state accs) []) (txs1 ++ txs2)).
Proof.
  intros Ht. rewrite !foldl_app.
  pose proof (AppJs_fold_nums accs (AppJs.mkJsState (App.init_state accs) []) txs1) as Hn.
  pose proof (AppJs_fold_keys accs (AppJs.mkJsState (App.init_state accs) []) txs1) as Hk.
  destruct (foldl (AppJs.step accs) _ txs1) as [s1 ps1].
  cbn [AppJs.nums AppJs.strs] in Hn, Hk.
  assert (Hw : WF accs s1) by (rewrite Hn; apply WF_final). clear Hn.
  specialize (Hk ltac:(intros k Hk0; simpl in Hk0; set_solver)).
  cbn [foldl].
  change (AppJs.step accs (AppJs.mkJsState s1 ps1) t)
    with (AppJs.mkJsState (App.step accs s1 t) (ef_strings_step s1 ps1 t)).
  rewrite (ef_strings_step_inert accs s1 ps1 t Hw Hk Ht).
  apply AppJs_fold_strs_indep; [apply WF_step|]; exact Hw.
Qed.

Lemma str_append_cons (c : Ascii.ascii) (a b : string) :
  String.append (String c a) b = String c (String.append a b).
Proof. reflexivity. Qed.

Lemma str_append_empty_r (a : string) : String.append a EmptyString = a.
Proof. induction a as [|c a IH]; [done|rewrite str_append_cons; congruence]. Qed.

Lemma str_append_assoc (a b c : string) :
  String.append (String.append a b) c = String.append a (String.append b c).
Proof. induction a as [|x a IH]; [done|rewrite !str_append_cons; congruence]. Qed.

Lemma js_add_strings (a : string) (ps : JsMap.t string) :
  ∃ r, foldl js_add (JStr a) (map (fun p => JStr p.2) ps) = JStr (String.append a r).
Proof.
  revert a. induction ps as [|p ps IH]; intros a; simpl.
  - exists EmptyString. by rewrite str_append_empty_r.
  - destruct (IH (String.append a p.2)) as [r Hr]. rewrite Hr.
    exists (String.append p.2 r). by rewrite str_append_assoc.
Qed.

Lemma js_add_num_strings (n : Z) (ps : JsMap.t string) :
  ps ≠ [] →
  ∃ r, foldl js_add (JNum n) (map (fun p => JStr p.2) ps) = JStr (String.append (number_to_string n) r).
Proof.
  destruct ps as [|p ps]; [done|]. intros _. simpl.
  destruct (js_add_strings (String.append (number_to_string n) p.2) ps) as [r Hr].
  rewrite Hr. exists (String.append p.2 r). by rewrite str_append_assoc.
Qed.

(** Two incomes of 1 and 2 into ["toString"] give a different [efectivoTotal]
    in the two orders ("...}12" and "...}21"): the cash total, unlike the
    rows, depends on the order of the log. *)
Lemma efectivoTotal_order_dependent :
  AppJs.efectivoTotal (AppJs.computeBalances [Ex.cashA] [ExJs.to_toString 1; ExJs.to_toString 2]) ≠
  AppJs.efectivoTotal (AppJs.computeBalances [Ex.cashA] [ExJs.to_toString 2; ExJs.to_toString 1]).
Proof. vm_compute. discriminate. Qed.

(** C1. For every registry and every two logs that are permutations of each
    other, the result of [computeBalances] has the same rows (balance and
    credit availability of every account), the same total available credit
    and the same liquidity total ([liquidezCents], read off the rows). *)
Theorem computeBalances_permutation_invariant (accs : list Account.t) (txs txs' : list (Tx.t Z)) :
  Permutation txs txs' →
  let r := AppJs.computeBalances accs txs in
  let r' := AppJs.computeBalances accs txs' in
  AppJs.accounts r = AppJs.accounts r' ∧
  AppJs.creditoDisponibleTotal r = AppJs.creditoDisponibleTotal r' ∧
  liquidez_of (AppJs.accounts r) = liquidez_of (AppJs.accounts r').
Proof.
  intros Hp r r'. subst r r'. rewrite !AppJs_computeBalances.
  cbn [AppJs.accounts AppJs.creditoDisponibleTotal].
  rewrite !computeBalances_final. cbn zeta. cbn [accounts creditoDisponibleTotal].
  rewrite (final_state_perm _ _ _ Hp). auto.
Qed.

(** C5. A transaction that names an account id absent from the registry (an
    income whose destination is unknown, an expense whose source is unknown,
    a transfer with an unknown end) contributes nothing to the accounts:
    wherever it sits in the log, the rows (balance and credit availability
    of every account) and the total available credit are the ones computed
    without it, and so is [efectivoTotal] unless the transaction is an
    income into a name [ef] inherits from [Object.prototype]. *)
Theorem unknown_reference_skipped (accs : list Account.t) (t : Tx.t Z) (txs1 txs2 : list (Tx.t Z)) :
  (Tx.type t = "INGRESO" ∧ unknown_ref accs (Tx.accountToId t)) ∨
  (Tx.type t = "GASTO" ∧ unknown_ref accs (Tx.accountFromId t)) ∨
  (Tx.type t = "TRANSFERENCIA" ∧
     (unknown_ref accs (Tx.accountFromId t) ∨ unknown_ref accs (Tx.accountToId t))) →
  let r := AppJs.computeBalances accs (txs1 ++ t :: txs2) in
  let r0 := AppJs.computeBalances accs (txs1 ++ txs2) in
  AppJs.accounts r = AppJs.accounts r0 ∧
  AppJs.creditoDisponibleTotal r = AppJs.creditoDisponibleTotal r0 ∧
  (proto_income accs t = false → AppJs.efectivoTotal r = AppJs.efectivoTotal r0).
Proof.
  intros H r r0. subst r r0. rewrite !AppJs_computeBalances.
  cbn [AppJs.accounts AppJs.creditoDisponibleTotal AppJs.efectivoTotal].
  assert (Hf : final_state accs (txs1 ++ t :: txs2) = final_state accs (txs1 ++ txs2)).
  { rewrite final_state_middle, effects_unknown by done. done. }
  rewrite !computeBalances_final. cbn zeta. cbn [accounts creditoDisponibleTotal efectivoTotal].
  rewrite Hf. split; [done|]. split; [done|].
  intros Hp. by rewrite AppJs_strs_middle.
Qed.

(** Paying a credit card from a CASH account moves the amount between the
    totals (unique ids): the total available credit rises by it, and a cash
    total that is a number falls by it. *)
Theorem card_payment_totals (accs : list Account.t) (txs : list (Tx.t Z)) (t : Tx.t Z) (a c : Account.t) :
  NoDup (map Account.id accs) → In a accs → In c accs →
  Account.type a = CASH → Account.type c = CREDIT → Account.id a ≠ Account.id c →
  Tx.type t = "TRANSFERENCIA" →
  Tx.accountFromId t = Some (Account.id a) → Tx.accountToId t = Some (Account.id c) →
  let r0 := AppJs.computeBalances accs txs in
  let r1 := AppJs.computeBalances accs (t :: txs) in
  AppJs.creditoDisponibleTotal r1 = AppJs.creditoDisponibleTotal r0 + Tx.amountCents t ∧
  ∀ x, AppJs.efectivoTotal r0 = JNum x → AppJs.efectivoTotal r1 = JNum (x - Tx.amountCents t).
Proof.
  intros Hnd Ha Hc Hta Htc Hne Hty Hfrom Hto r0 r1. subst r0 r1.
  destruct (card_payment_totals_num accs txs t a c Hnd Ha Hc Hta Htc Hne Hty Hfrom Hto) as [He Hcr].
  rewrite !AppJs_computeBalances.
  cbn [AppJs.creditoDisponibleTotal AppJs.efectivoTotal].
  split; [exact Hcr|]. intros x.
  assert (Hp : proto_income accs t = false).
  { unfold proto_income. rewrite Hty. by destruct (bool_decide _). }
  pose proof (AppJs_strs_middle accs t [] txs Hp) as Hs. cbn [app] in Hs. rewrite Hs, He.
  remember (AppJs.strs (foldl (AppJs.step accs) (AppJs.mkJsState (App.init_state accs) []) txs))
    as S eqn:ES.
  destruct S as [|p ps].
  - cbn [map foldl js_add]. intros Hx. injection Hx as Hx. subst x. reflexivity.
  - destruct (js_add_num_strings (efectivoTotal (App.computeBalances accs txs)) (p :: ps)) as [r Hr];
      [done|]. rewrite Hr. discriminate.
Qed.

(** The cash total is the sum of the balances of the CASH rows (unique
    ids), a number when no income of the log goes into a name [ef] inherits
    from [Object.prototype]; after such an income it is a string: the
    decimal numeral of that sum followed by the text of the string-valued
    properties. *)
Theorem efectivoTotal_cash_rows (accs : list Account.t) (txs : list (Tx.t Z)) :
  NoDup (map Account.id accs) →
  let r := AppJs.computeBalances accs txs in
  let cash := sum_Z (map balanceCents
    (List.filter (fun e => bool_decide (Account.type (account e) = CASH)) (AppJs.accounts r))) in
  (Forall (fun t => proto_income accs t = false) txs → AppJs.efectivoTotal r = JNum cash) ∧
  (Exists (fun t => proto_income accs t = true) txs →
   ∃ s, AppJs.efectivoTotal r = JStr (String.append (number_to_string cash) s)).
Proof.
  intros Hnd r cash. subst r cash. rewrite !AppJs_computeBalances.
  cbn [AppJs.accounts AppJs.efectivoTotal].
  rewrite (efectivoTotal_cash_rows_num accs txs Hnd). split.
  - intros Hall. rewrite (AppJs_fold_strs_inert accs) by (apply WF_init || done || (intros k Hk; simpl in Hk; set_solver)).
    reflexivity.
  - intros Hex. apply js_add_num_strings. apply AppJs_fold_strs_nonempty; [apply WF_init|by right].
Qed.

Lemma computeBalances_permutation_invariant_witness :
  Permutation [Ex.transfer_AB; Ex.wallet_expense] [Ex.wallet_expense; Ex.transfer_AB] ∧
  let r := AppJs.computeBalances [Ex.cashA; Ex.cashB; Ex.card] [Ex.transfer_AB; Ex.wallet_expense] in
  let r' := AppJs.computeBalances [Ex.cashA; Ex.cashB; Ex.card] [Ex.wallet_expense; Ex.transfer_AB] in
  AppJs.accounts r = AppJs.accounts r' ∧
  AppJs.creditoDisponibleTotal r = AppJs.creditoDisponibleTotal r' ∧
  liquidez_of (AppJs.accounts r) = liquidez_of (AppJs.accounts r').
Proof.
  split; [apply perm_swap|].
  apply (computeBalances_permutation_invariant [Ex.cashA; Ex.cashB; Ex.card]
           [Ex.transfer_AB; Ex.wallet_expense] [Ex.wallet_expense; Ex.transfer_AB]).
  apply perm_swap.
Defined.

Lemma unknown_reference_skipped_witness :
  let r := AppJs.computeBalances [Ex.cashA; Ex.card] ([Ex.wallet_expense] ++ Ex.ghost_expense :: []) in
  let r0 := AppJs.computeBalances [Ex.cashA; Ex.card] ([Ex.wallet_expense] ++ []) in
  AppJs.accounts r = AppJs.accounts r0 ∧
  AppJs.creditoDisponibleTotal r = AppJs.creditoDisponibleTotal r0 ∧
  (proto_income [Ex.cashA; Ex.card] Ex.ghost_expense = false →
   AppJs.efectivoTotal r = AppJs.efectivoTotal r0).
Proof.
  apply (unknown_reference_skipped [Ex.cashA; Ex.card] Ex.ghost_expense [Ex.wallet_expense] []).
  right. left. split; [reflexivity|].
  exists "ghost". split; [reflexivity|].
  intros a [<-|[<-|[]]]; vm_compute; discriminate.
Defined.

Lemma card_payment_totals_witness :
  let r0 := AppJs.computeBalances Ex2.accs [Ex2.card_expense] in
  let r1 := AppJs.computeBalances Ex2.accs [Ex2.card_payment; Ex2.card_expense] in
  AppJs.creditoDisponibleTotal r1 = AppJs.creditoDisponibleTotal r0 + Tx.amountCents Ex2.card_payment ∧
  ∀ x, AppJs.efectivoTotal r0 = JNum x →
       AppJs.efectivoTotal r1 = JNum (x - Tx.amountCents Ex2.card_payment).
Proof.
  apply (card_payment_totals Ex2.accs [Ex2.card_expense] Ex2.card_payment Ex.cashA Ex.card);
    [apply (bool_decide_unpack _); vm_compute; reflexivity|simpl; tauto|simpl; tauto
    |reflexivity|reflexivity|vm_compute; discriminate|reflexivity..].
Defined.

Lemma efectivoTotal_cash_rows_witness :
  let r := AppJs.computeBalances Ex2.accs [Ex2.salary; ExJs.to_toString 7; Ex2.card_payment] in
  let cash := sum_Z (map balanceCents
    (List.filter (fun e => bool_decide (Account.type (account e) = CASH)) (AppJs.accounts r))) in
  (Forall (fun t => proto_income Ex2.accs t = false) [Ex2.salary; ExJs.to_toString 7; Ex2.card_payment] →
   AppJs.efectivoTotal r = JNum cash) ∧
  (Exists (fun t => proto_income Ex2.accs t = true) [Ex2.salary; ExJs.to_toString 7; Ex2.card_payment] →
   ∃ s, AppJs.efectivoTotal r = JStr (String.append (number_to_string cash) s)).
Proof.
  apply (efectivoTotal_cash_rows Ex2.accs [Ex2.salary; ExJs.to_toString 7; Ex2.card_payment]).
  apply (bool_decide_unpack _); vm_compute; reflexivity.
Defined.
